(** * webgl-physics-shader: the mass-spring integrator [SimTimeStep]

    A shallow embedding of [SimTimeStep] (src/webgl-physics-shader.js,
    lines 222-280) and of the [Vec3] operations it calls, with the
    properties of the time step stated and proved over it.

    JavaScript numbers are IEEE 754 binary64 values.  The embedding is
    written once, over the arithmetic operations the code uses ([Number]),
    and is instantiated twice: at Rocq's primitive binary64 floats
    ([float_number]: what the script computes, NaN and rounding included)
    and at the real numbers ([real_number]: the exact arithmetic in which
    the physical laws are stated).

    The rest of the script is embedded after the time step:
    [GetModelViewMatrix] (lines 12-41), and the class [MeshDrawer] (lines
    43-202), each method of which is a function from the drawer to the
    drawer it leaves and the calls it makes on the WebGL context. *)

From Stdlib Require Import ZArith Floats Reals Lra Lia String.
From stdpp Require Import base option list.

Set Warnings "-inexact-float".

(** ** Numbers *)

(** The operations on numbers that [SimTimeStep] and [Vec3] use: the
    literals [0], [1] and [0.05], unary minus, the four arithmetic
    operations, [Math.sqrt] and the comparison [<] (the code's [a > b]
    is [b < a]). *)
Class Number (F : Type) := {
  lit_0 : F;
  lit_1 : F;
  lit_0_05 : F;
  num_neg : F → F;
  num_add : F → F → F;
  num_sub : F → F → F;
  num_mul : F → F → F;
  num_div : F → F → F;
  num_sqrt : F → F;
  num_lt : F → F → bool
}.

Declare Scope js_scope.
Delimit Scope js_scope with js.
Notation "a + b" := (num_add a b) : js_scope.
Notation "a - b" := (num_sub a b) : js_scope.
Notation "a * b" := (num_mul a b) : js_scope.
Notation "a / b" := (num_div a b) : js_scope.
Notation "- a" := (num_neg a) : js_scope.
Notation "a < b" := (num_lt a b) : js_scope.
Notation "a > b" := (num_lt b a) (only parsing) : js_scope.

(** JavaScript numbers: binary64 with round-to-nearest-even. *)
#[export] Instance float_number : Number float := {
  lit_0 := 0%float;
  lit_1 := 1%float;
  lit_0_05 := 0.05%float;
  num_neg := PrimFloat.opp;
  num_add := PrimFloat.add;
  num_sub := PrimFloat.sub;
  num_mul := PrimFloat.mul;
  num_div := PrimFloat.div;
  num_sqrt := PrimFloat.sqrt;
  num_lt := PrimFloat.ltb
}.

(** Exact arithmetic over the reals. *)
#[export] Instance real_number : Number R := {
  lit_0 := 0%R;
  lit_1 := 1%R;
  lit_0_05 := (5 / 100)%R;
  num_neg := Ropp;
  num_add := Rplus;
  num_sub := Rminus;
  num_mul := Rmult;
  num_div := Rdiv;
  num_sqrt := R_sqrt.sqrt;
  num_lt := λ a b, if Rlt_dec a b then true else false
}.

(** ** Vectors, springs, axes *)

(** Modelled from the spec: a [Vec3] object, three numbers [x], [y],
    [z].  The arrays [positions] and [velocities] hold one object per
    particle, no object twice, so a list of values models each array. *)
Record Vec3 (F : Type) := mkVec3 { x : F; y : F; z : F }.
Arguments mkVec3 {F} _ _ _.
Arguments x {F} _.
Arguments y {F} _.
Arguments z {F} _.

(** A spring [{p0, p1, rest}]: two particle indices and a rest length. *)
Record Spring (F : Type) := mkSpring { p0 : nat; p1 : nat; rest : F }.
Arguments mkSpring {F} _ _ _.
Arguments p0 {F} _.
Arguments p1 {F} _.
Arguments rest {F} _.

(** The property names ['x'], ['y'], ['z'] the collision pass loops over. *)
Inductive Axis := Ax | Ay | Az.

Module Vec.
Section Vec.
Context {F : Type} `{Number F}.
Local Open Scope js_scope.

(** The class [Vec3] is not under src/: the page that loads the script
    defines it.  Its methods are modelled from the spec, section 3 ("a
    3-component floating-point tuple supporting add, subtract, scalar
    multiply/divide, length, and normalization") and section 4.1 (length
    [L = |d|], unit direction [u = d / L]).  For the methods that mutate
    their receiver ([inc], [dec]) the value returned here is the new value
    of the receiver. *)

(** Modelled from the spec: [Vec3.sub], the difference of two vectors,
    as a new vector. *)
Definition sub (a b : Vec3 F) : Vec3 F :=
  mkVec3 (x a - x b) (y a - y b) (z a - z b).

(** Modelled from the spec: [Vec3.mul], the product by a scalar, as a new
    vector. *)
Definition mul (a : Vec3 F) (f : F) : Vec3 F :=
  mkVec3 (x a * f) (y a * f) (z a * f).

(** Modelled from the spec: [Vec3.div], the quotient by a scalar, as a
    new vector. *)
Definition div (a : Vec3 F) (f : F) : Vec3 F :=
  mkVec3 (x a / f) (y a / f) (z a / f).

(** Modelled from the spec: [Vec3.inc], the in-place add. *)
Definition inc (a b : Vec3 F) : Vec3 F :=
  mkVec3 (x a + x b) (y a + y b) (z a + z b).

(** Modelled from the spec: [Vec3.dec], the in-place subtract. *)
Definition dec (a b : Vec3 F) : Vec3 F :=
  mkVec3 (x a - x b) (y a - y b) (z a - z b).

(** Modelled from the spec: [Vec3.len], the Euclidean length. *)
Definition len (a : Vec3 F) : F :=
  num_sqrt (x a * x a + y a * y a + z a * z a).

(** Modelled from the spec: [Vec3.unit], the vector over its length
    ([u = d / L]), with no test on the length. *)
Definition unit (a : Vec3 F) : Vec3 F := div a (len a).

(** [v[axis]] and [v[axis] = c]. *)
Definition get (axis : Axis) (v : Vec3 F) : F :=
  match axis with Ax => x v | Ay => y v | Az => z v end.

Definition set (axis : Axis) (c : F) (v : Vec3 F) : Vec3 F :=
  match axis with
  | Ax => mkVec3 c (y v) (z v)
  | Ay => mkVec3 (x v) c (z v)
  | Az => mkVec3 (x v) (y v) c
  end.

End Vec.
End Vec.

(** ** Control *)

(** A call either completes ([Some]) or throws a [TypeError] ([None]):
    an array access out of range yields [undefined], and reading a
    property of [undefined] throws. *)

(** [arr[i].m(...)] for a method [m] that mutates its receiver. *)
Definition update {A : Type} (i : nat) (m : A → A) (arr : list A)
  : option (list A) :=
  a ← arr !! i; Some (<[i := m a]> arr).

(** [l.forEach(a => body)], threading the state the body mutates. *)
Fixpoint forEach {A S : Type} (body : S → A → option S) (l : list A) (s : S)
  : option S :=
  match l with
  | [] => Some s
  | a :: l' => s' ← body s a; forEach body l' s'
  end.

(** [for (let i = 0; i < n; i++) body].  The bounds in [SimTimeStep] are
    [positions.length], which no statement of a loop body changes. *)
Fixpoint for_upto {S : Type} (n : nat) (body : nat → S → option S) (s : S)
  : option S :=
  match n with
  | O => Some s
  | S n' => s' ← for_upto n' body s; body n' s'
  end.

(** ** The time step *)

Section SimTimeStep.
Context {F : Type} `{Number F}.
Local Open Scope js_scope.

Definition minBound : F := - lit_1.
Definition maxBound : F := lit_1.

(** Lines 224-227: the clamp of [dt], with the text passed to
    [console.warn]. *)
Definition clamp_dt (dt : F) : list string * F :=
  if dt > lit_0_05
  then (["Time step too large, consider reducing it."%string], lit_0_05)
  else ([], dt).

(** Line 230: one fresh zero vector per particle. *)
Definition init_forces (positions : list (Vec3 F)) : list (Vec3 F) :=
  (λ _, mkVec3 lit_0 lit_0 lit_0) <$> positions.

(** Lines 233-245: the body of [springs.forEach]. *)
Definition spring_step (stiffness : F) (positions : list (Vec3 F))
    (forces : list (Vec3 F)) (spring : Spring F) : option (list (Vec3 F)) :=
  pos0 ← positions !! p0 spring;
  pos1 ← positions !! p1 spring;
  let displacement := Vec.sub pos1 pos0 in
  let currentLength := Vec.len displacement in
  let direction := Vec.unit displacement in
  let forceMagnitude := stiffness * (currentLength - rest spring) in
  let springForce := Vec.mul direction forceMagnitude in
  forces ← update (p0 spring) (λ f, Vec.inc f springForce) forces;
  update (p1 spring) (λ f, Vec.dec f springForce) forces.

(** Lines 230-245: the spring forces, accumulated from zero. *)
Definition spring_forces (stiffness : F) (positions : list (Vec3 F))
    (springs : list (Spring F)) : option (list (Vec3 F)) :=
  forEach (spring_step stiffness positions) springs (init_forces positions).

(** Lines 248-251: the body of the gravity and damping loop. *)
Definition gravity_damping_step (velocities : list (Vec3 F))
    (damping particleMass : F) (gravity : Vec3 F)
    (i : nat) (forces : list (Vec3 F)) : option (list (Vec3 F)) :=
  forces ← update i (λ f, Vec.inc f (Vec.mul gravity particleMass)) forces;
  v ← velocities !! i;
  update i (λ f, Vec.dec f (Vec.mul v damping)) forces.

(** Lines 230-251: the forces on the particles. *)
Definition accumulate_forces (positions velocities : list (Vec3 F))
    (springs : list (Spring F)) (stiffness damping particleMass : F)
    (gravity : Vec3 F) : option (list (Vec3 F)) :=
  forces ← spring_forces stiffness positions springs;
  for_upto (length positions)
    (gravity_damping_step velocities damping particleMass gravity) forces.

(** Lines 254-258: the body of the semi-implicit Euler loop.  The state
    is the pair of the arrays [positions] and [velocities]. *)
Definition integrate_step (forces : list (Vec3 F)) (particleMass dt : F)
    (i : nat) (st : list (Vec3 F) * list (Vec3 F))
  : option (list (Vec3 F) * list (Vec3 F)) :=
  let '(positions, velocities) := st in
  f ← forces !! i;
  let acceleration := Vec.div f particleMass in
  velocities ← update i (λ v, Vec.inc v (Vec.mul acceleration dt)) velocities;
  v ← velocities !! i;
  positions ← update i (λ p, Vec.inc p (Vec.mul v dt)) positions;
  Some (positions, velocities).

(** Lines 230-258: the state when the integration loop ends, [dt] being
    the clamped step. *)
Definition integrate (dt : F) (positions velocities : list (Vec3 F))
    (springs : list (Spring F)) (stiffness damping particleMass : F)
    (gravity : Vec3 F) : option (list (Vec3 F) * list (Vec3 F)) :=
  forces ← accumulate_forces positions velocities springs stiffness damping
             particleMass gravity;
  for_upto (length positions) (integrate_step forces particleMass dt)
    (positions, velocities).

(** Lines 267-277: one axis of one particle; the state is the particle's
    position and velocity. *)
Definition collide_axis (restitution : F) (pv : Vec3 F * Vec3 F)
    (axis : Axis) : Vec3 F * Vec3 F :=
  let '(p, v) := pv in
  if Vec.get axis p < minBound then
    let p := Vec.set axis minBound p in
    if Vec.get axis v < lit_0
    then (p, Vec.set axis (Vec.get axis v * - restitution) v)
    else (p, v)
  else if Vec.get axis p > maxBound then
    let p := Vec.set axis maxBound p in
    if Vec.get axis v > lit_0
    then (p, Vec.set axis (Vec.get axis v * - restitution) v)
    else (p, v)
  else (p, v).

(** Line 266: [['x', 'y', 'z'].forEach] on one particle (its body does
    not throw). *)
Definition collide_particle (restitution : F) (pv : Vec3 F * Vec3 F)
  : Vec3 F * Vec3 F :=
  foldl (collide_axis restitution) pv [Ax; Ay; Az].

(** Lines 264-279: the body of the collision loop. *)
Definition collide_step (restitution : F) (i : nat)
    (st : list (Vec3 F) * list (Vec3 F))
  : option (list (Vec3 F) * list (Vec3 F)) :=
  let '(positions, velocities) := st in
  p ← positions !! i;
  v ← velocities !! i;
  let '(p, v) := collide_particle restitution (p, v) in
  Some (<[i := p]> positions, <[i := v]> velocities).

Definition collide (restitution : F) (st : list (Vec3 F) * list (Vec3 F))
  : option (list (Vec3 F) * list (Vec3 F)) :=
  for_upto (length st.1) (collide_step restitution) st.

(** [SimTimeStep]: the warnings logged, and the arrays [positions] and
    [velocities] as the call leaves them, or [None] when it throws. *)
Definition SimTimeStep (dt : F) (positions velocities : list (Vec3 F))
    (springs : list (Spring F)) (stiffness damping particleMass : F)
    (gravity : Vec3 F) (restitution : F)
  : list string * option (list (Vec3 F) * list (Vec3 F)) :=
  let '(warnings, dt) := clamp_dt dt in
  (warnings,
   st ← integrate dt positions velocities springs stiffness damping
          particleMass gravity;
   collide restitution st).

(** [n] successive calls with the same parameters. *)
Fixpoint iterate (n : nat) (dt : F)
    (positions velocities : list (Vec3 F)) (springs : list (Spring F))
    (stiffness damping particleMass : F) (gravity : Vec3 F) (restitution : F)
  : option (list (Vec3 F) * list (Vec3 F)) :=
  match n with
  | O => Some (positions, velocities)
  | S n' =>
      st ← (SimTimeStep dt positions velocities springs stiffness damping
              particleMass gravity restitution).2;
      iterate n' dt st.1 st.2 springs stiffness damping particleMass gravity
        restitution
  end.

End SimTimeStep.

(** ** Derived notions used in the statements *)

(** The spring indices are valid for [n] particles. *)
Definition valid_springs {F : Type} (n : nat) (springs : list (Spring F)) : Prop :=
  Forall (λ s, p0 s < n ∧ p1 s < n) springs.

Section Derived.
Context {F : Type} `{Number F}.
Local Open Scope js_scope.

(** Lines 236-240: the force of one spring on the particle at [pos0],
    the other end being at [pos1]. *)
Definition spring_force (stiffness : F) (pos0 pos1 : Vec3 F) (rest : F)
  : Vec3 F :=
  Vec.mul (Vec.unit (Vec.sub pos1 pos0))
    (stiffness * (Vec.len (Vec.sub pos1 pos0) - rest)).

(** What lines 248-258 do to particle [i], given the spring force [f]
    accumulated on it: the force after gravity and damping, then the
    position and velocity when the integration loop ends. *)
Definition net_force (damping particleMass : F) (gravity : Vec3 F)
    (f v : Vec3 F) : Vec3 F :=
  Vec.dec (Vec.inc f (Vec.mul gravity particleMass)) (Vec.mul v damping).

Definition euler (particleMass dt : F) (force p v : Vec3 F)
  : Vec3 F * Vec3 F :=
  let acceleration := Vec.div force particleMass in
  let v := Vec.inc v (Vec.mul acceleration dt) in
  let p := Vec.inc p (Vec.mul v dt) in
  (p, v).

(** Lines 267-277 on the two numbers [positions[i][axis]] and
    [velocities[i][axis]]. *)
Definition collide_component (restitution c w : F) : F * F :=
  if c < minBound then (minBound, if w < lit_0 then w * - restitution else w)
  else if c > maxBound then (maxBound, if w > lit_0 then w * - restitution else w)
  else (c, w).

(** The sum of the vectors of an array. *)
Definition vsum (l : list (Vec3 F)) : Vec3 F :=
  foldr (λ v total, Vec.inc total v) (mkVec3 lit_0 lit_0 lit_0) l.

(** The accumulators after the first [k] springs, for every [k] up to the
    number of springs. *)
Definition accumulators_of (stiffness : F) (positions : list (Vec3 F))
    (springs : list (Spring F)) : list (list (Vec3 F)) :=
  (λ k, default [] (spring_forces stiffness positions (take k springs)))
    <$> seq 0 (S (length springs)).

End Derived.

(** ** Binary64 notions used in the statements *)

(** The same number, the sign of a zero apart (what [===] compares, NaN
    being the same as NaN here). *)
Definition same (a b : float) : Prop :=
  a = b ∨ (is_zero a = true ∧ is_zero b = true).

Definition same_vec (a b : Vec3 float) : Prop :=
  ∀ axis, same (Vec.get axis a) (Vec.get axis b).

(** A test on the three components of a vector. *)
Definition all_components (test : float → bool) (v : Vec3 float) : bool :=
  test (x v) && test (y v) && test (z v).

(** Within the bounds of the box: neither below [-1] nor above [1]. *)
Definition within_bounds (c : float) : bool :=
  negb (c <? -1)%float && negb (1 <? c)%float.

(** Component [axis] of entry [i] of an array of vectors is NaN. *)
Definition nan_at (axis : Axis) (i : nat) (l : list (Vec3 float)) : Prop :=
  ∃ a, l !! i = Some a ∧ is_nan (Vec.get axis a) = true.

(** A zero or NaN: what [a - a] and [a * 0] are on any binary64 [a]. *)
Definition zero_or_nan (a : float) : bool := is_zero a || is_nan a.

(** Infinite or NaN. *)
Definition not_finite (a : float) : bool := negb (is_finite a).

(** The sign bit of a binary64 number is clear (NaN counts). *)
Definition sign_clear (a : spec_float) : Prop :=
  match a with
  | S754_nan => True
  | S754_zero s | S754_infinity s | S754_finite s _ _ => s = false
  end.

(** ** Sample states *)

(** Two particles within the box joined by one spring at its rest length,
    as binary64 numbers. *)
Definition two_positions : list (Vec3 float) :=
  [mkVec3 0 0 0; mkVec3 0.5 0 0]%float.
Definition two_velocities : list (Vec3 float) :=
  [mkVec3 0 0 0; mkVec3 0 0.25 0]%float.
Definition one_spring : list (Spring float) := [mkSpring 0 1 0.5%float].

(** A stretched spring and its two end points at rest, as real numbers. *)
Definition stretched_positions : list (Vec3 R) :=
  [mkVec3 0 0 0; mkVec3 2 0 0]%R.
Definition stretched_velocities : list (Vec3 R) :=
  [mkVec3 0 0 0; mkVec3 0 0 0]%R.
Definition unit_spring : Spring R := mkSpring 0 1 1%R.

(** ** More numbers *)

(** A number from an array length or an integer literal
    ([vertPos.length], [3], [32.0]).  On binary64 the conversion is exact
    below [2^53], and an array holds fewer than [2^32] elements. *)
Class NumberOfNat (F : Type) := num_of_nat : nat → F.

#[export] Instance float_of_nat : NumberOfNat float :=
  λ n, PrimFloat.of_uint63 (Uint63.of_Z (Z.of_nat n)).

#[export] Instance real_of_nat : NumberOfNat R := INR.

(** [Math.cos] and [Math.sin]. *)
Class Trig (F : Type) := {
  num_cos : F → F;
  num_sin : F → F
}.

#[export] Instance real_trig : Trig R := {
  num_cos := cos;
  num_sin := sin
}.

(** ** The model-view matrix *)

Section GetModelViewMatrix.
Context {F : Type} `{Number F} `{Trig F}.
Local Open Scope js_scope.

(** Lines 12-41.  A matrix is a flat array of 16 numbers.  [MatrixMult]
    is not under src/ (the page that loads the script defines it): it is
    a parameter here. *)
Definition GetModelViewMatrix (MatrixMult : list F → list F → list F)
    (translationX translationY translationZ rotationX rotationY : F)
  : list F :=
  let trans := [
    lit_1; lit_0; lit_0; lit_0;
    lit_0; lit_1; lit_0; lit_0;
    lit_0; lit_0; lit_1; lit_0;
    translationX; translationY; translationZ; lit_1
  ] in
  let cosX := num_cos rotationX in
  let sinX := num_sin rotationX in
  let rotX := [
    lit_1; lit_0; lit_0; lit_0;
    lit_0; cosX; - sinX; lit_0;
    lit_0; sinX; cosX; lit_0;
    lit_0; lit_0; lit_0; lit_1
  ] in
  let cosY := num_cos rotationY in
  let sinY := num_sin rotationY in
  let rotY := [
    cosY; lit_0; sinY; lit_0;
    lit_0; lit_1; lit_0; lit_0;
    - sinY; lit_0; cosY; lit_0;
    lit_0; lit_0; lit_0; lit_1
  ] in
  MatrixMult trans (MatrixMult rotY rotX).

(** Entry in row [r] and column [c] of a matrix stored column by
    column. *)
Definition entry (M : list F) (r c : nat) : F := nth (r + 4 * c) M lit_0.

(** The product of two 4x4 matrices stored column by column: what the
    statement on [GetModelViewMatrix] assumes [MatrixMult] to compute. *)
Definition column_major_product (A B : list F) : list F :=
  c ← seq 0 4; r ← seq 0 4;
  [entry A r 0 * entry B 0 c + entry A r 1 * entry B 1 c
   + entry A r 2 * entry B 2 c + entry A r 3 * entry B 3 c].

(** The scalar product of the upper three entries of two columns. *)
Definition column_dot (M : list F) (c c' : nat) : F :=
  entry M 0 c * entry M 0 c' + entry M 1 c * entry M 1 c'
  + entry M 2 c * entry M 2 c'.

End GetModelViewMatrix.

(** ** WebGL, as the script uses it *)

Module gl.

(** The constants of the context that the script names. *)
Inductive enum :=
| TEXTURE_2D | RGB | UNSIGNED_BYTE | TEXTURE_MIN_FILTER | TEXTURE_MAG_FILTER
| TEXTURE_WRAP_S | TEXTURE_WRAP_T | LINEAR | LINEAR_MIPMAP_LINEAR | REPEAT
| ARRAY_BUFFER | STATIC_DRAW | FLOAT | TEXTURE0 | TRIANGLES.

(** The typed arrays the script builds from its arrays of numbers. *)
Inductive typed_array (F : Type) :=
| Float32Array (l : list F)
| Uint8Array (l : list Z).
Arguments Float32Array {F} _.
Arguments Uint8Array {F} _.

(** The value passed to [uniform1i]: a flag of the drawer, or an integer
    literal. *)
Inductive int_arg := flag (b : bool) | int (n : Z).

(** The calls on the context that return nothing, with their arguments.
    [Handle] is the type of the objects the context hands out (program,
    locations, buffers, texture) and of the image: the script stores them
    and passes them back. *)
Inductive call (F Handle : Type) :=
| bindTexture (target : enum) (texture : Handle)
| texImage2D_pixels (target : enum) (level : Z) (internalformat : enum)
    (width height border : Z) (format type : enum) (pixels : typed_array F)
| texImage2D_image (target : enum) (level : Z)
    (internalformat format type : enum) (img : Handle)
| texParameteri (target pname param : enum)
| generateMipmap (target : enum)
| bindBuffer (target : enum) (buffer : Handle)
| bufferData (target : enum) (data : typed_array F) (usage : enum)
| useProgram (program : Handle)
| uniform1i (location : Handle) (v : int_arg)
| uniform1f (location : Handle) (v : F)
| uniform3fv (location : Handle) (v : list F)
| uniformMatrix3fv (location : Handle) (transpose : bool) (v : list F)
| uniformMatrix4fv (location : Handle) (transpose : bool) (v : list F)
| vertexAttribPointer (index : Handle) (size : Z) (type : enum)
    (normalized : bool) (stride offset : Z)
| enableVertexAttribArray (index : Handle)
| activeTexture (texture : enum)
| drawArrays (mode : enum) (first : Z) (count : F).
Arguments bindTexture {F Handle} _ _.
Arguments texImage2D_pixels {F Handle} _ _ _ _ _ _ _ _ _.
Arguments texImage2D_image {F Handle} _ _ _ _ _ _.
Arguments texParameteri {F Handle} _ _ _.
Arguments generateMipmap {F Handle} _.
Arguments bindBuffer {F Handle} _ _.
Arguments bufferData {F Handle} _ _ _.
Arguments useProgram {F Handle} _.
Arguments uniform1i {F Handle} _ _.
Arguments uniform1f {F Handle} _ _.
Arguments uniform3fv {F Handle} _ _.
Arguments uniformMatrix3fv {F Handle} _ _ _.
Arguments uniformMatrix4fv {F Handle} _ _ _.
Arguments vertexAttribPointer {F Handle} _ _ _ _ _ _.
Arguments enableVertexAttribArray {F Handle} _.
Arguments activeTexture {F Handle} _.
Arguments drawArrays {F Handle} _ _ _.

End gl.

(** ** The mesh drawer *)

(** The fields of a [MeshDrawer] object. *)
Record MeshDrawer (F Handle : Type) := mkMeshDrawer {
  prog : Handle;
  mvpLoc : Handle;
  mvLoc : Handle;
  normalLoc : Handle;
  lightDirLoc : Handle;
  shininessLoc : Handle;
  swapYZLoc : Handle;
  showTextureLoc : Handle;
  texSamplerLoc : Handle;
  posLoc : Handle;
  textLoc : Handle;
  normLoc : Handle;
  vertexBuffer : Handle;
  texCoordBuffer : Handle;
  normalBuffer : Handle;
  texture : Handle;
  numTriangles : F;
  useSwapYZ : bool;
  useTexture : bool;
  lightDir : list F;
  shininess : F
}.
Arguments mkMeshDrawer {F Handle} _ _ _ _ _ _ _ _ _ _ _ _ _ _ _ _ _ _ _ _ _.
Arguments prog {F Handle} _.
Arguments mvpLoc {F Handle} _.
Arguments mvLoc {F Handle} _.
Arguments normalLoc {F Handle} _.
Arguments lightDirLoc {F Handle} _.
Arguments shininessLoc {F Handle} _.
Arguments swapYZLoc {F Handle} _.
Arguments showTextureLoc {F Handle} _.
Arguments texSamplerLoc {F Handle} _.
Arguments posLoc {F Handle} _.
Arguments textLoc {F Handle} _.
Arguments normLoc {F Handle} _.
Arguments vertexBuffer {F Handle} _.
Arguments texCoordBuffer {F Handle} _.
Arguments normalBuffer {F Handle} _.
Arguments texture {F Handle} _.
Arguments numTriangles {F Handle} _.
Arguments useSwapYZ {F Handle} _.
Arguments useTexture {F Handle} _.
Arguments lightDir {F Handle} _.
Arguments shininess {F Handle} _.

(** The calls of the methods of a drawer, to speak of sequences of
    them. *)
Inductive Method (F Handle : Type) :=
| SetMesh (vertPos texCoords normals : list F)
| SwapYZ (swap : bool)
| Draw (matrixMVP matrixMV matrixNormal : list F)
| SetTexture (img : Handle)
| ShowTexture (show : bool)
| SetLightDir (x y z : F)
| SetShininess (shininess : F).
Arguments SetMesh {F Handle} _ _ _.
Arguments SwapYZ {F Handle} _.
Arguments Draw {F Handle} _ _ _.
Arguments SetTexture {F Handle} _.
Arguments ShowTexture {F Handle} _.
Arguments SetLightDir {F Handle} _ _ _.
Arguments SetShininess {F Handle} _.

Section MeshDrawer.
Context {F Handle : Type} `{Number F} `{NumberOfNat F}.
Local Open Scope js_scope.
Implicit Types (this : MeshDrawer F Handle).

(** [this.field = value], field by field. *)
Definition set_numTriangles (value : F) this : MeshDrawer F Handle :=
  mkMeshDrawer (prog this) (mvpLoc this) (mvLoc this) (normalLoc this)
    (lightDirLoc this) (shininessLoc this) (swapYZLoc this)
    (showTextureLoc this) (texSamplerLoc this) (posLoc this) (textLoc this)
    (normLoc this) (vertexBuffer this) (texCoordBuffer this)
    (normalBuffer this) (texture this)
    value (useSwapYZ this) (useTexture this) (lightDir this) (shininess this).

Definition set_useSwapYZ (value : bool) this : MeshDrawer F Handle :=
  mkMeshDrawer (prog this) (mvpLoc this) (mvLoc this) (normalLoc this)
    (lightDirLoc this) (shininessLoc this) (swapYZLoc this)
    (showTextureLoc this) (texSamplerLoc this) (posLoc this) (textLoc this)
    (normLoc this) (vertexBuffer this) (texCoordBuffer this)
    (normalBuffer this) (texture this)
    (numTriangles this) value (useTexture this) (lightDir this)
    (shininess this).

Definition set_useTexture (value : bool) this : MeshDrawer F Handle :=
  mkMeshDrawer (prog this) (mvpLoc this) (mvLoc this) (normalLoc this)
    (lightDirLoc this) (shininessLoc this) (swapYZLoc this)
    (showTextureLoc this) (texSamplerLoc this) (posLoc this) (textLoc this)
    (normLoc this) (vertexBuffer this) (texCoordBuffer this)
    (normalBuffer this) (texture this)
    (numTriangles this) (useSwapYZ this) value (lightDir this)
    (shininess this).

Definition set_lightDir (value : list F) this : MeshDrawer F Handle :=
  mkMeshDrawer (prog this) (mvpLoc this) (mvLoc this) (normalLoc this)
    (lightDirLoc this) (shininessLoc this) (swapYZLoc this)
    (showTextureLoc this) (texSamplerLoc this) (posLoc this) (textLoc this)
    (normLoc this) (vertexBuffer this) (texCoordBuffer this)
    (normalBuffer this) (texture this)
    (numTriangles this) (useSwapYZ this) (useTexture this) value
    (shininess this).

Definition set_shininess (value : F) this : MeshDrawer F Handle :=
  mkMeshDrawer (prog this) (mvpLoc this) (mvLoc this) (normalLoc this)
    (lightDirLoc this) (shininessLoc this) (swapYZLoc this)
    (showTextureLoc this) (texSamplerLoc this) (posLoc this) (textLoc this)
    (normLoc this) (vertexBuffer this) (texCoordBuffer this)
    (normalBuffer this) (texture this)
    (numTriangles this) (useSwapYZ this) (useTexture this) (lightDir this)
    value.

(** Each method returns the drawer as it leaves it and the calls it has
    made on the context, in order. *)

(** Lines 48-84.  The calls that return a value are parameters: the
    program that [InitShaderProgram(meshVS, meshFS)] returns, the answers
    of [getUniformLocation] and [getAttribLocation] on that program, the
    buffers of the three calls of [createBuffer], and the texture of
    [createTexture]. *)
Definition constructor (InitShaderProgram : Handle)
    (getUniformLocation getAttribLocation : Handle → string → Handle)
    (createBuffer : nat → Handle) (createTexture : Handle)
  : MeshDrawer F Handle * list (gl.call F Handle) :=
  let prog := InitShaderProgram in
  let texture := createTexture in
  (mkMeshDrawer prog
     (getUniformLocation prog "mvp"%string)
     (getUniformLocation prog "mv"%string)
     (getUniformLocation prog "normalMatrix"%string)
     (getUniformLocation prog "lightDir"%string)
     (getUniformLocation prog "shininess"%string)
     (getUniformLocation prog "swapYZ"%string)
     (getUniformLocation prog "showTexture"%string)
     (getUniformLocation prog "texSampler"%string)
     (getAttribLocation prog "pos"%string)
     (getAttribLocation prog "tex"%string)
     (getAttribLocation prog "normal"%string)
     (createBuffer 0%nat) (createBuffer 1%nat) (createBuffer 2%nat)
     texture
     lit_0 false true [lit_0; lit_0; - lit_1] (num_of_nat 32),
   [gl.bindTexture gl.TEXTURE_2D texture;
    gl.texImage2D_pixels gl.TEXTURE_2D 0 gl.RGB 1 1 0 gl.RGB gl.UNSIGNED_BYTE
      (gl.Uint8Array [255; 255; 255]%Z);
    gl.texParameteri gl.TEXTURE_2D gl.TEXTURE_MIN_FILTER gl.LINEAR;
    gl.texParameteri gl.TEXTURE_2D gl.TEXTURE_MAG_FILTER gl.LINEAR]).

(** Lines 93-104. *)
Definition setMesh this (vertPos texCoords normals : list F)
  : MeshDrawer F Handle * list (gl.call F Handle) :=
  let this :=
    set_numTriangles (num_of_nat (length vertPos) / num_of_nat 3) this in
  (this,
   [gl.bindBuffer gl.ARRAY_BUFFER (vertexBuffer this);
    gl.bufferData gl.ARRAY_BUFFER (gl.Float32Array vertPos) gl.STATIC_DRAW;
    gl.bindBuffer gl.ARRAY_BUFFER (texCoordBuffer this);
    gl.bufferData gl.ARRAY_BUFFER (gl.Float32Array texCoords) gl.STATIC_DRAW;
    gl.bindBuffer gl.ARRAY_BUFFER (normalBuffer this);
    gl.bufferData gl.ARRAY_BUFFER (gl.Float32Array normals) gl.STATIC_DRAW]).

(** Lines 111-115. *)
Definition swapYZ this (swap : bool)
  : MeshDrawer F Handle * list (gl.call F Handle) :=
  let this := set_useSwapYZ swap this in
  (this,
   [gl.useProgram (prog this);
    gl.uniform1i (swapYZLoc this) (gl.flag (useSwapYZ this))]).

(** Lines 124-152. *)
Definition draw this (matrixMVP matrixMV matrixNormal : list F)
  : MeshDrawer F Handle * list (gl.call F Handle) :=
  (this,
   [gl.useProgram (prog this);
    gl.uniformMatrix4fv (mvpLoc this) false matrixMVP;
    gl.uniformMatrix4fv (mvLoc this) false matrixMV;
    gl.uniformMatrix3fv (normalLoc this) false matrixNormal;
    gl.uniform3fv (lightDirLoc this) (lightDir this);
    gl.uniform1f (shininessLoc this) (shininess this);
    gl.uniform1i (showTextureLoc this) (gl.flag (useTexture this));
    gl.uniform1i (swapYZLoc this) (gl.flag (useSwapYZ this));
    gl.bindBuffer gl.ARRAY_BUFFER (vertexBuffer this);
    gl.vertexAttribPointer (posLoc this) 3 gl.FLOAT false 0 0;
    gl.enableVertexAttribArray (posLoc this);
    gl.bindBuffer gl.ARRAY_BUFFER (texCoordBuffer this);
    gl.vertexAttribPointer (textLoc this) 2 gl.FLOAT false 0 0;
    gl.enableVertexAttribArray (textLoc this);
    gl.bindBuffer gl.ARRAY_BUFFER (normalBuffer this);
    gl.vertexAttribPointer (normLoc this) 3 gl.FLOAT false 0 0;
    gl.enableVertexAttribArray (normLoc this);
    gl.activeTexture gl.TEXTURE0;
    gl.bindTexture gl.TEXTURE_2D (texture this);
    gl.uniform1i (texSamplerLoc this) (gl.int 0);
    gl.drawArrays gl.TRIANGLES 0 (numTriangles this)]).

(** Lines 159-167. *)
Definition setTexture this (img : Handle)
  : MeshDrawer F Handle * list (gl.call F Handle) :=
  (this,
   [gl.bindTexture gl.TEXTURE_2D (texture this);
    gl.texImage2D_image gl.TEXTURE_2D 0 gl.RGB gl.RGB gl.UNSIGNED_BYTE img;
    gl.texParameteri gl.TEXTURE_2D gl.TEXTURE_WRAP_S gl.REPEAT;
    gl.texParameteri gl.TEXTURE_2D gl.TEXTURE_WRAP_T gl.REPEAT;
    gl.texParameteri gl.TEXTURE_2D gl.TEXTURE_MIN_FILTER
      gl.LINEAR_MIPMAP_LINEAR;
    gl.texParameteri gl.TEXTURE_2D gl.TEXTURE_MAG_FILTER gl.LINEAR;
    gl.generateMipmap gl.TEXTURE_2D]).

(** Lines 174-176. *)
Definition showTexture this (show : bool)
  : MeshDrawer F Handle * list (gl.call F Handle) :=
  (set_useTexture show this, []).

(** Lines 185-190. *)
Definition setLightDir this (x y z : F)
  : MeshDrawer F Handle * list (gl.call F Handle) :=
  let length := num_sqrt (x * x + y * y + z * z) in
  let this := set_lightDir [x / length; y / length; z / length] this in
  (this,
   [gl.useProgram (prog this);
    gl.uniform3fv (lightDirLoc this) (lightDir this)]).

(** Lines 197-201 (the parameter [shininess] is [shininess'] here, the
    name being that of the field). *)
Definition setShininess this (shininess' : F)
  : MeshDrawer F Handle * list (gl.call F Handle) :=
  let this := set_shininess shininess' this in
  (this,
   [gl.useProgram (prog this);
    gl.uniform1f (shininessLoc this) (shininess this)]).

(** One method call, and a sequence of them: the drawer at the end and
    all the calls made on the context. *)
Definition invoke this (m : Method F Handle)
  : MeshDrawer F Handle * list (gl.call F Handle) :=
  match m with
  | SetMesh vertPos texCoords normals => setMesh this vertPos texCoords normals
  | SwapYZ swap => swapYZ this swap
  | Draw matrixMVP matrixMV matrixNormal =>
      draw this matrixMVP matrixMV matrixNormal
  | SetTexture img => setTexture this img
  | ShowTexture show => showTexture this show
  | SetLightDir x y z => setLightDir this x y z
  | SetShininess shininess => setShininess this shininess
  end.

Fixpoint invoke_all this (ms : list (Method F Handle))
  : MeshDrawer F Handle * list (gl.call F Handle) :=
  match ms with
  | [] => (this, [])
  | m :: ms =>
      let '(this, calls) := invoke this m in
      let '(this, calls') := invoke_all this ms in
      (this, calls ++ calls')
  end.

(** The value a setter was last called with in a sequence of method
    calls, or [default]. *)
Definition last_swapYZ (default : bool) (ms : list (Method F Handle)) : bool :=
  foldl (λ value m, match m with SwapYZ swap => swap | _ => value end)
    default ms.

Definition last_showTexture (default : bool) (ms : list (Method F Handle))
  : bool :=
  foldl (λ value m, match m with ShowTexture show => show | _ => value end)
    default ms.

Definition last_setShininess (default : F) (ms : list (Method F Handle)) : F :=
  foldl (λ value m,
           match m with SetShininess shininess => shininess | _ => value end)
    default ms.

(** The number of vertices of the mesh last set: three coordinates per
    vertex. *)
Definition last_setMesh (default : F) (ms : list (Method F Handle)) : F :=
  foldl (λ value m,
           match m with
           | SetMesh vertPos _ _ =>
               num_of_nat (length vertPos) / num_of_nat 3
           | _ => value
           end)
    default ms.

End MeshDrawer.

Section LastLightDir.
Context {F Handle : Type} `{Number F}.
Local Open Scope js_scope.

(** The direction [setLightDir] was last called with, over its length,
    or [default]. *)
Definition last_setLightDir (default : list F) (ms : list (Method F Handle))
  : list F :=
  foldl (λ value m,
           match m with
           | SetLightDir x y z =>
               let length := num_sqrt (x * x + y * y + z * z) in
               [x / length; y / length; z / length]
           | _ => value
           end)
    default ms.

End LastLightDir.

(** A vector of three real numbers of length [1]. *)
Definition unit_length (v : list R) : Prop :=
  ∃ a b c : R, v = [a; b; c] ∧ (a * a + b * b + c * c = 1)%R.

(** Every light direction among the calls is of length [1]. *)
Definition unit_light_directions {Handle : Type}
    (calls : list (gl.call R Handle)) : Prop :=
  Forall (λ c, match c with gl.uniform3fv _ v => unit_length v | _ => True end)
    calls.

(** No call of [setLightDir] is on the zero vector. *)
Definition no_zero_light {Handle : Type} (ms : list (Method R Handle)) : Prop :=
  Forall (λ m, match m with
               | SetLightDir x y z => ¬ (x = 0 ∧ y = 0 ∧ z = 0)%R
               | _ => True
               end) ms.

(** ** More sample states *)

(** Three particles, the third one free of the spring [one_spring]. *)
Definition three_positions : list (Vec3 float) :=
  [mkVec3 0 0 0; mkVec3 0.5 0 0; mkVec3 0 0.5 0]%float.
Definition three_velocities : list (Vec3 float) :=
  [mkVec3 0 0 0; mkVec3 0 0.25 0; mkVec3 0.125 0 0]%float.

(** A spring from the second particle to itself. *)
Definition self_spring : Spring float := mkSpring 1 1 0.5%float.

(** A drawer as the constructor leaves it, the objects of the context
    being numbered. *)
Definition sample_drawer {F : Type} `{Number F} `{NumberOfNat F}
  : MeshDrawer F nat :=
  (constructor 0%nat (λ _ name, String.length name)
     (λ _ name, 100 + String.length name)%nat (λ n, 200 + n)%nat 300%nat).1.

(** The spring [one_spring] with a shorter rest length: stretched between
    [two_positions]. *)
Definition stretched_spring : Spring float := mkSpring 0 1 0.25%float.

(** Two particles joined by [one_spring], the first one outside the box
    on two axes and moving further out. *)
Definition outside_positions : list (Vec3 float) :=
  [mkVec3 2 (-3) 0; mkVec3 0.5 0 0]%float.
Definition outside_velocities : list (Vec3 float) :=
  [mkVec3 1 (-1) 0; mkVec3 0 0.25 0]%float.

(** Two particles joined by [one_spring]: the first one has a NaN [x]
    position, the second one a NaN [y] velocity. *)
Definition nan_positions : list (Vec3 float) :=
  [mkVec3 nan 0 0; mkVec3 0.5 0 0]%float.
Definition nan_velocities : list (Vec3 float) :=
  [mkVec3 0 0 0; mkVec3 0 nan 0]%float.

(** Two particles at rest within the box and the stretched spring that
    joins them, as real numbers; [inside_positions1] and
    [inside_velocities1] are where the integration with stiffness [1],
    mass [1], no damping, gravity [(0, -10, 0)] and [dt = 1/100] leaves
    them. *)
Definition inside_positions : list (Vec3 R) := [mkVec3 0 0 0; mkVec3 1 0 0]%R.
Definition inside_velocities : list (Vec3 R) :=
  [mkVec3 0 0 0; mkVec3 0 0 0]%R.
Definition half_spring : Spring R := mkSpring 0 1 (1 / 2)%R.
Definition inside_positions1 : list (Vec3 R) :=
  [mkVec3 (1 / 20000) (-1 / 1000) 0;
   mkVec3 (19999 / 20000) (-1 / 1000) 0]%R.
Definition inside_velocities1 : list (Vec3 R) :=
  [mkVec3 (1 / 200) (-1 / 10) 0; mkVec3 (-1 / 200) (-1 / 10) 0]%R.

(** * Properties *)

(** ** Arrays and loops *)

Section Control.
Context {A S : Type}.

Lemma update_Some (i : nat) (m : A → A) (arr arr' : list A) :
  update i m arr = Some arr' ↔ ∃ a, arr !! i = Some a ∧ arr' = <[i := m a]> arr.
Proof.
  unfold update. destruct (arr !! i) as [a|]; simpl; split.
  - intros [= <-]. eauto.
  - intros (a' & [= <-] & ->). reflexivity.
  - discriminate.
  - intros (? & [=] & _).
Qed.

Lemma update_is_Some (i : nat) (m : A → A) (arr : list A) :
  i < length arr → ∃ arr', update i m arr = Some arr'.
Proof.
  intros Hi. destruct (lookup_lt_is_Some_2 arr i Hi) as [a Ha].
  exists (<[i := m a]> arr). apply update_Some. eauto.
Qed.

Lemma update_length (i : nat) (m : A → A) (arr arr' : list A) :
  update i m arr = Some arr' → length arr' = length arr.
Proof. intros (a & _ & ->)%update_Some. apply length_insert. Qed.

Lemma update_lookup (i j : nat) (m : A → A) (arr arr' : list A) :
  update i m arr = Some arr' →
  arr' !! j = if decide (i = j) then m <$> arr !! j else arr !! j.
Proof.
  intros (a & Ha & ->)%update_Some. case_decide as Hij.
  - subst j. rewrite Ha. simpl. apply list_lookup_insert_eq.
    by eapply lookup_lt_Some.
  - by apply list_lookup_insert_ne.
Qed.

(** The invariant rule for [for_upto], for a loop that completes. *)
Lemma for_upto_inv (Inv : nat → S → Prop) (n : nat)
    (body : nat → S → option S) (s : S) :
  Inv 0 s →
  (∀ i t, i < n → Inv i t → ∃ t', body i t = Some t' ∧ Inv (Datatypes.S i) t') →
  ∃ s', for_upto n body s = Some s' ∧ Inv n s'.
Proof.
  intros H0 Hstep. induction n as [|n IH]; simpl.
  - eauto.
  - destruct IH as (t & -> & Ht); [intros; apply Hstep; auto with lia|].
    simpl. apply Hstep; auto with lia.
Qed.

(** What a completed loop tells about its iterations. *)
Lemma for_upto_Some_inv (Inv : nat → S → Prop) (n : nat)
    (body : nat → S → option S) (s s' : S) :
  for_upto n body s = Some s' →
  Inv 0 s →
  (∀ i t t', i < n → Inv i t → body i t = Some t' → Inv (Datatypes.S i) t') →
  Inv n s'.
Proof.
  revert s'. induction n as [|n IH]; simpl; intros s' Hrun H0 Hstep.
  - by injection Hrun as <-.
  - destruct (for_upto n body s) as [t|] eqn:Ht; [|discriminate].
    simpl in Hrun. apply (Hstep n t s'); [lia| |exact Hrun].
    apply IH; [done|done|]. intros i u u' Hi. apply Hstep. lia.
Qed.

Lemma forEach_inv (Inv : S → Prop) (body : S → A → option S)
    (l : list A) (s : S) :
  Inv s →
  (∀ a t, a ∈ l → Inv t → ∃ t', body t a = Some t' ∧ Inv t') →
  ∃ s', forEach body l s = Some s' ∧ Inv s'.
Proof.
  revert s. induction l as [|a l IH]; simpl; intros s Hs Hstep.
  - eauto.
  - destruct (Hstep a s) as (t & -> & Ht); [by left|done|].
    simpl. apply IH; [done|]. intros; apply Hstep; [by right|done].
Qed.

Lemma forEach_Some_inv (Inv : S → Prop) (body : S → A → option S)
    (l : list A) (s s' : S) :
  forEach body l s = Some s' →
  Inv s →
  (∀ a t t', a ∈ l → Inv t → body t a = Some t' → Inv t') →
  Inv s'.
Proof.
  revert s. induction l as [|a l IH]; simpl; intros s Hrun Hs Hstep.
  - by injection Hrun as <-.
  - destruct (body s a) as [t|] eqn:Ht; [|discriminate]. simpl in Hrun.
    eapply IH; [exact Hrun| |].
    + eapply Hstep; [by left|done|done].
    + intros; eapply Hstep; [by right|done|done].
Qed.

End Control.

(** ** The phases of the step, particle by particle *)

Section Phases.
Context {F : Type} `{Number F}.
Implicit Types (positions velocities forces : list (Vec3 F)).
Implicit Types (springs : list (Spring F)) (spring : Spring F).

Lemma init_forces_length positions :
  length (init_forces positions) = length positions.
Proof. apply length_fmap. Qed.

Lemma vsum_cons (a : Vec3 F) (l : list (Vec3 F)) :
  vsum (a :: l) = Vec.inc (vsum l) a.
Proof. reflexivity. Qed.

Lemma spring_step_Some stiffness positions forces spring forces' :
  spring_step stiffness positions forces spring = Some forces' ↔
  ∃ pos0 pos1 forces1,
    positions !! p0 spring = Some pos0 ∧ positions !! p1 spring = Some pos1 ∧
    update (p0 spring)
      (λ f, Vec.inc f (spring_force stiffness pos0 pos1 (rest spring)))
      forces = Some forces1 ∧
    update (p1 spring)
      (λ f, Vec.dec f (spring_force stiffness pos0 pos1 (rest spring)))
      forces1 = Some forces'.
Proof.
  unfold spring_step, spring_force. split.
  - intros Hrun.
    destruct (positions !! p0 spring) as [pos0|]; [|discriminate].
    destruct (positions !! p1 spring) as [pos1|]; [|discriminate].
    simpl in Hrun.
    destruct (update (p0 spring) _ forces) as [forces1|] eqn:H1;
      [|discriminate].
    exists pos0, pos1, forces1. auto.
  - intros (pos0 & pos1 & forces1 & -> & -> & H1 & H2). simpl.
    rewrite H1. exact H2.
Qed.

Lemma spring_step_length stiffness positions forces spring forces' :
  spring_step stiffness positions forces spring = Some forces' →
  length forces' = length forces.
Proof.
  intros (pos0 & pos1 & forces1 & _ & _ & H1 & H2)%spring_step_Some.
  apply update_length in H1, H2. congruence.
Qed.

Lemma spring_step_valid stiffness positions forces spring forces' :
  spring_step stiffness positions forces spring = Some forces' →
  p0 spring < length positions ∧ p1 spring < length positions.
Proof.
  intros (pos0 & pos1 & forces1 & H0 & H1 & _)%spring_step_Some.
  split; by eapply lookup_lt_Some.
Qed.

Lemma spring_step_is_Some stiffness positions forces spring :
  length forces = length positions →
  p0 spring < length positions → p1 spring < length positions →
  ∃ forces', spring_step stiffness positions forces spring = Some forces'.
Proof.
  intros Hlen H0 H1.
  destruct (lookup_lt_is_Some_2 positions _ H0) as [pos0 Hp0].
  destruct (lookup_lt_is_Some_2 positions _ H1) as [pos1 Hp1].
  destruct (update_is_Some (p0 spring)
    (λ f, Vec.inc f (spring_force stiffness pos0 pos1 (rest spring))) forces)
    as [forces1 Hf1]; [lia|].
  destruct (update_is_Some (p1 spring)
    (λ f, Vec.dec f (spring_force stiffness pos0 pos1 (rest spring))) forces1)
    as [forces' Hf']; [apply update_length in Hf1; lia|].
  exists forces'. apply spring_step_Some. eauto 10.
Qed.

(** The spring loop completes exactly on valid indices, and keeps one
    accumulator per particle. *)
Lemma spring_forces_is_Some stiffness positions springs :
  valid_springs (length positions) springs →
  ∃ forces, spring_forces stiffness positions springs = Some forces ∧
            length forces = length positions.
Proof.
  intros Hvalid. unfold spring_forces.
  apply (forEach_inv (λ forces, length forces = length positions)).
  - apply init_forces_length.
  - intros spring t Hin Ht.
    destruct (proj1 (Forall_forall _ _) Hvalid spring Hin) as [H0 H1].
    destruct (spring_step_is_Some stiffness positions t spring Ht H0 H1)
      as [t' Ht'].
    exists t'. split; [done|]. apply spring_step_length in Ht'. congruence.
Qed.

Lemma forEach_spring_step_valid stiffness positions springs forces forces' :
  forEach (spring_step stiffness positions) springs forces = Some forces' →
  valid_springs (length positions) springs ∧ length forces' = length forces.
Proof.
  revert forces. induction springs as [|spring springs IH]; simpl; intros forces Hrun.
  - injection Hrun as <-. split; [constructor|done].
  - destruct (spring_step stiffness positions forces spring) as [t|] eqn:Ht;
      [|discriminate].
    simpl in Hrun. destruct (IH _ Hrun) as [Hv Hl]. split.
    + constructor; [by eapply spring_step_valid|done].
    + apply spring_step_length in Ht. congruence.
Qed.

Lemma spring_forces_Some_inv stiffness positions springs forces :
  spring_forces stiffness positions springs = Some forces →
  valid_springs (length positions) springs ∧
  length forces = length positions.
Proof.
  intros [Hv Hl]%forEach_spring_step_valid. split; [done|].
  by rewrite Hl, init_forces_length.
Qed.

(** The gravity and damping loop. *)
Lemma gravity_damping_loop velocities damping particleMass gravity forces
    (n : nat) :
  n ≤ length forces → n ≤ length velocities →
  ∃ forces',
    for_upto n (gravity_damping_step velocities damping particleMass gravity)
      forces = Some forces' ∧
    length forces' = length forces ∧
    ∀ j, forces' !! j =
         if decide (j < n)
         then f ← forces !! j; v ← velocities !! j;
              Some (net_force damping particleMass gravity f v)
         else forces !! j.
Proof.
  intros Hf Hv.
  apply (for_upto_inv (λ k (t : list (Vec3 F)),
    length t = length forces ∧
    ∀ j, t !! j =
         if decide (j < k)
         then f ← forces !! j; v ← velocities !! j;
              Some (net_force damping particleMass gravity f v)
         else forces !! j) n
    (gravity_damping_step velocities damping particleMass gravity) forces).
  - split; [done|]. intros j. case_decide; [lia|done].
  - intros i t Hi [Hlen Ht]. unfold gravity_damping_step.
    destruct (update_is_Some i
      (λ f, Vec.inc f (Vec.mul gravity particleMass)) t) as [t1 Ht1]; [lia|].
    rewrite Ht1. simpl.
    destruct (lookup_lt_is_Some_2 velocities i) as [v Hvi]; [lia|].
    rewrite Hvi. simpl.
    destruct (update_is_Some i (λ f, Vec.dec f (Vec.mul v damping)) t1)
      as [t2 Ht2]; [apply update_length in Ht1; lia|].
    exists t2. split; [done|]. split.
    + apply update_length in Ht1, Ht2. congruence.
    + intros j. rewrite (update_lookup _ j _ _ _ Ht2),
        (update_lookup _ j _ _ _ Ht1), Ht.
      destruct (decide (i = j)) as [<-|Hij].
      * repeat case_decide; try lia.
        rewrite Hvi. destruct (forces !! i); reflexivity.
      * repeat case_decide; try lia; done.
Qed.

Lemma gravity_damping_loop_Some_inv velocities damping particleMass gravity
    forces forces' (n : nat) :
  for_upto n (gravity_damping_step velocities damping particleMass gravity)
    forces = Some forces' →
  n ≤ length velocities.
Proof.
  intros Hrun.
  apply (for_upto_Some_inv (λ k _, k ≤ length velocities) _ _ _ _ Hrun);
    [lia|].
  intros i t t' _ _. unfold gravity_damping_step.
  destruct (update i _ t); [|discriminate]. simpl.
  destruct (velocities !! i) eqn:Hv; [|discriminate].
  intros _. apply lookup_lt_Some in Hv. lia.
Qed.

(** The integration loop. *)
Lemma integrate_loop forces particleMass dt positions velocities (n : nat) :
  n ≤ length forces → n ≤ length positions → n ≤ length velocities →
  ∃ positions' velocities',
    for_upto n (integrate_step forces particleMass dt)
      (positions, velocities) = Some (positions', velocities') ∧
    length positions' = length positions ∧
    length velocities' = length velocities ∧
    ∀ j,
      positions' !! j =
        (if decide (j < n)
         then f ← forces !! j; p ← positions !! j; v ← velocities !! j;
              Some (euler particleMass dt f p v).1
         else positions !! j) ∧
      velocities' !! j =
        (if decide (j < n)
         then f ← forces !! j; p ← positions !! j; v ← velocities !! j;
              Some (euler particleMass dt f p v).2
         else velocities !! j).
Proof.
  intros Hf Hp Hv.
  destruct (for_upto_inv (λ k (st : list (Vec3 F) * list (Vec3 F)),
    length st.1 = length positions ∧ length st.2 = length velocities ∧
    ∀ j,
      st.1 !! j =
        (if decide (j < k)
         then f ← forces !! j; p ← positions !! j; v ← velocities !! j;
              Some (euler particleMass dt f p v).1
         else positions !! j) ∧
      st.2 !! j =
        (if decide (j < k)
         then f ← forces !! j; p ← positions !! j; v ← velocities !! j;
              Some (euler particleMass dt f p v).2
         else velocities !! j)) n (integrate_step forces particleMass dt)
    (positions, velocities)) as ([ps' vs'] & Hrun & Hinv).
  - split; [done|]. split; [done|].
    intros j. rewrite !decide_False by lia. done.
  - intros i [ps vs] Hi (Hlp & Hlv & Hst).
    unfold integrate_step. cbn [fst snd] in *.
    destruct (lookup_lt_is_Some_2 forces i) as [f Hfi]; [lia|].
    rewrite Hfi. simpl.
    destruct (update_is_Some i
      (λ v, Vec.inc v (Vec.mul (Vec.div f particleMass) dt)) vs)
      as [vs1 Hvs1]; [lia|].
    rewrite Hvs1. simpl.
    destruct (lookup_lt_is_Some_2 vs1 i) as [v1 Hv1];
      [apply update_length in Hvs1; lia|].
    rewrite Hv1. simpl.
    destruct (update_is_Some i (λ p, Vec.inc p (Vec.mul v1 dt)) ps)
      as [ps1 Hps1]; [lia|].
    rewrite Hps1. simpl.
    exists (ps1, vs1). split; [done|]. cbn [fst snd].
    split; [apply update_length in Hps1; lia|].
    split; [apply update_length in Hvs1; lia|].
    intros j. rewrite (update_lookup _ j _ _ _ Hps1),
      (update_lookup _ j _ _ _ Hvs1).
    destruct (decide (i = j)) as [<-|Hij].
    + destruct (Hst i) as [Hpi Hvi]. rewrite decide_False in Hpi, Hvi by lia.
      rewrite (update_lookup _ i _ _ _ Hvs1), decide_True, Hvi in Hv1 by done.
      rewrite Hpi, Hvi, Hfi. repeat case_decide; try lia.
      destruct (lookup_lt_is_Some_2 positions i) as [p ->]; [lia|].
      destruct (velocities !! i) as [v|]; [|discriminate].
      injection Hv1 as <-. done.
    + destruct (Hst j) as [-> ->]. repeat case_decide; try lia; done.
  - exists ps', vs'. cbn [fst snd] in Hinv. tauto.
Qed.

(** One axis of the collision pass touches that axis only. *)
Lemma collide_particle_get restitution (p v : Vec3 F) (axis : Axis) :
  let pv := collide_particle restitution (p, v) in
  (Vec.get axis pv.1, Vec.get axis pv.2)
  = collide_component restitution (Vec.get axis p) (Vec.get axis v).
Proof.
  destruct p as [px py pz], v as [vx vy vz].
  unfold collide_particle, collide_component, collide_axis. simpl.
  destruct axis; simpl;
    repeat (match goal with
            | |- context [if ?b then _ else _] => destruct b
            end; simpl); reflexivity.
Qed.

(** The collision loop. *)
Lemma collide_loop restitution positions velocities (n : nat) :
  n ≤ length positions → n ≤ length velocities →
  ∃ positions' velocities',
    for_upto n (collide_step restitution) (positions, velocities)
      = Some (positions', velocities') ∧
    length positions' = length positions ∧
    length velocities' = length velocities ∧
    ∀ j,
      positions' !! j =
        (if decide (j < n)
         then p ← positions !! j; v ← velocities !! j;
              Some (collide_particle restitution (p, v)).1
         else positions !! j) ∧
      velocities' !! j =
        (if decide (j < n)
         then p ← positions !! j; v ← velocities !! j;
              Some (collide_particle restitution (p, v)).2
         else velocities !! j).
Proof.
  intros Hp Hv.
  destruct (for_upto_inv (λ k (st : list (Vec3 F) * list (Vec3 F)),
    length st.1 = length positions ∧ length st.2 = length velocities ∧
    ∀ j,
      st.1 !! j =
        (if decide (j < k)
         then p ← positions !! j; v ← velocities !! j;
              Some (collide_particle restitution (p, v)).1
         else positions !! j) ∧
      st.2 !! j =
        (if decide (j < k)
         then p ← positions !! j; v ← velocities !! j;
              Some (collide_particle restitution (p, v)).2
         else velocities !! j)) n (collide_step restitution)
    (positions, velocities)) as ([ps' vs'] & Hrun & Hinv).
  - split; [done|]. split; [done|].
    intros j. rewrite !decide_False by lia. done.
  - intros i [ps vs] Hi (Hlp & Hlv & Hst).
    unfold collide_step. cbn [fst snd] in *.
    destruct (Hst i) as [Hpi Hvi]. rewrite decide_False in Hpi, Hvi by lia.
    destruct (lookup_lt_is_Some_2 positions i) as [p Hp0]; [lia|].
    destruct (lookup_lt_is_Some_2 velocities i) as [v Hv0]; [lia|].
    rewrite Hpi, Hvi, Hp0, Hv0. simpl.
    destruct (collide_particle restitution (p, v)) as [p' v'] eqn:Hc.
    exists (<[i := p']> ps, <[i := v']> vs). split; [done|]. cbn [fst snd].
    rewrite !length_insert. split; [done|]. split; [done|].
    intros j. destruct (Hst j) as [Hpj Hvj].
    destruct (decide (i = j)) as [<-|Hij].
    + rewrite !list_lookup_insert_eq by lia.
      repeat case_decide; try lia. rewrite Hp0, Hv0. simpl.
      by rewrite Hc.
    + rewrite !list_lookup_insert_ne by done. rewrite Hpj, Hvj.
      repeat case_decide; try lia; done.
  - exists ps', vs'. cbn [fst snd] in Hinv. tauto.
Qed.

End Phases.

(** ** The spring loop, spring by spring *)

Section SpringLoop.
Context {F : Type} `{Number F}.
Implicit Types (positions velocities forces : list (Vec3 F)).
Implicit Types (springs : list (Spring F)) (spring : Spring F).

Lemma forEach_app {A S : Type} (body : S → A → option S) (l k : list A)
    (s : S) :
  forEach body (l ++ k) s = s' ← forEach body l s; forEach body k s'.
Proof.
  revert s. induction l as [|a l IH]; intros s; simpl; [done|].
  destruct (body s a) as [t|]; simpl; [apply IH|done].
Qed.

Lemma init_forces_replicate positions :
  init_forces positions
  = replicate (length positions) (mkVec3 lit_0 lit_0 lit_0).
Proof.
  unfold init_forces. induction positions as [|p positions IH]; [done|].
  rewrite fmap_cons. simpl. by rewrite IH.
Qed.

(** What one spring does to each accumulator, also when its two ends are
    the same particle. *)
Lemma spring_step_accumulators (stiffness : F) positions forces spring
    forces' (pos0 pos1 : Vec3 F) :
  spring_step stiffness positions forces spring = Some forces' →
  positions !! p0 spring = Some pos0 → positions !! p1 spring = Some pos1 →
  length forces' = length forces ∧
  ∀ j a, forces !! j = Some a →
    forces' !! j
    = Some (let sf := spring_force stiffness pos0 pos1 (rest spring) in
            let a := if decide (j = p0 spring) then Vec.inc a sf else a in
            if decide (j = p1 spring) then Vec.dec a sf else a).
Proof.
  intros Hrun Hp0 Hp1. split; [by eapply spring_step_length|].
  apply spring_step_Some in Hrun
    as (pos0' & pos1' & forces1 & Hp0' & Hp1' & H1 & H2).
  rewrite Hp0 in Hp0'. injection Hp0' as <-.
  rewrite Hp1 in Hp1'. injection Hp1' as <-.
  intros j a Hj. cbv zeta.
  rewrite (update_lookup _ j _ _ _ H2), (update_lookup _ j _ _ _ H1), Hj.
  repeat case_decide; subst; simpl; congruence.
Qed.

Lemma valid_springs_take (n k : nat) springs :
  valid_springs n springs → valid_springs n (take k springs).
Proof. apply Forall_take. Qed.

Lemma accumulators_of_lookup (stiffness : F) positions springs (k : nat) :
  valid_springs (length positions) springs →
  k ≤ length springs →
  ∃ forces,
    spring_forces stiffness positions (take k springs) = Some forces ∧
    accumulators_of stiffness positions springs !! k = Some forces.
Proof.
  intros Hvalid Hk.
  destruct (spring_forces_is_Some stiffness positions (take k springs))
    as (forces & Hrun & _); [by apply valid_springs_take|].
  exists forces. split; [done|]. unfold accumulators_of.
  rewrite list_lookup_fmap, lookup_seq_lt by lia. simpl. by rewrite Hrun.
Qed.

(** The spring loop as a sequence of accumulator arrays: zero vectors at
    the start, one spring applied from each array to the next, and the
    result of the loop at the end. *)
Lemma spring_forces_trace (stiffness : F) positions springs :
  valid_springs (length positions) springs →
  ∃ (accumulators : list (list (Vec3 F))) sforces,
    length accumulators = S (length springs) ∧
    accumulators !! 0
    = Some (replicate (length positions) (mkVec3 lit_0 lit_0 lit_0)) ∧
    (∀ k spring, springs !! k = Some spring →
       ∃ pos0 pos1 forces forces',
         positions !! p0 spring = Some pos0 ∧
         positions !! p1 spring = Some pos1 ∧
         accumulators !! k = Some forces ∧
         accumulators !! S k = Some forces' ∧
         spring_forces stiffness positions (take k springs) = Some forces ∧
         spring_forces stiffness positions (take (S k) springs)
         = Some forces' ∧
         length forces = length positions ∧
         length forces' = length positions ∧
         ∀ j a, forces !! j = Some a →
           forces' !! j
           = Some (let sf := spring_force stiffness pos0 pos1 (rest spring) in
                   let a := if decide (j = p0 spring) then Vec.inc a sf
                            else a in
                   if decide (j = p1 spring) then Vec.dec a sf else a)) ∧
    accumulators !! length springs = Some sforces ∧
    spring_forces stiffness positions springs = Some sforces.
Proof.
  intros Hvalid.
  destruct (spring_forces_is_Some stiffness positions springs Hvalid)
    as (sforces & Hsf & Hsl).
  exists (accumulators_of stiffness positions springs), sforces.
  split_and!.
  - unfold accumulators_of. by rewrite length_fmap, length_seq.
  - destruct (accumulators_of_lookup stiffness positions springs 0 Hvalid)
      as (forces & Hrun & Hacc); [lia|].
    rewrite Hacc. rewrite take_0 in Hrun. injection Hrun as <-.
    by rewrite init_forces_replicate.
  - intros k spring Hk.
    pose proof (lookup_lt_Some _ _ _ Hk) as Hlt.
    destruct (accumulators_of_lookup stiffness positions springs k Hvalid)
      as (forces & Hrun & Hacc); [lia|].
    destruct (accumulators_of_lookup stiffness positions springs (S k) Hvalid)
      as (forces' & Hrun' & Hacc'); [lia|].
    pose proof Hrun' as Hstep.
    rewrite (take_S_r _ _ _ Hk) in Hstep. unfold spring_forces in Hstep.
    rewrite forEach_app in Hstep. fold (spring_forces stiffness positions
      (take k springs)) in Hstep. rewrite Hrun in Hstep. simpl in Hstep.
    destruct (spring_step stiffness positions forces spring) as [t|] eqn:Ht;
      [|discriminate].
    simpl in Hstep. injection Hstep as ->.
    destruct (spring_step_valid _ _ _ _ _ Ht) as [H0 H1].
    destruct (lookup_lt_is_Some_2 positions _ H0) as [pos0 Hp0].
    destruct (lookup_lt_is_Some_2 positions _ H1) as [pos1 Hp1].
    destruct (spring_step_accumulators _ _ _ _ _ _ _ Ht Hp0 Hp1)
      as [Hlen Hall].
    apply spring_forces_Some_inv in Hrun as Hinv. destruct Hinv as [_ Hl].
    exists pos0, pos1, forces, forces'.
    split_and!; [done|done|done|done|done|done|done|lia|done].
  - destruct (accumulators_of_lookup stiffness positions springs
      (length springs) Hvalid) as (forces & Hrun & Hacc); [lia|].
    rewrite firstn_all in Hrun. congruence.
  - done.
Qed.

(** In the spring loop, a spring between two different particles adds
    its force to the accumulator of [p0] and subtracts it from that of
    [p1]. *)
Lemma spring_forces_step (stiffness : F) positions springs (k : nat) spring :
  valid_springs (length positions) springs →
  springs !! k = Some spring →
  p0 spring ≠ p1 spring →
  ∃ (pos0 pos1 a0 a1 : Vec3 F) (forces forces' : list (Vec3 F)),
    positions !! p0 spring = Some pos0 ∧
    positions !! p1 spring = Some pos1 ∧
    spring_forces stiffness positions (take k springs) = Some forces ∧
    spring_forces stiffness positions (take (S k) springs) = Some forces' ∧
    forces !! p0 spring = Some a0 ∧ forces !! p1 spring = Some a1 ∧
    let sforce := spring_force stiffness pos0 pos1 (rest spring) in
    forces' !! p0 spring = Some (Vec.inc a0 sforce) ∧
    forces' !! p1 spring = Some (Vec.dec a1 sforce).
Proof.
  intros Hvalid Hk Hne.
  destruct (spring_forces_trace stiffness positions springs Hvalid)
    as (accumulators & sforces & _ & _ & Hsprings & _).
  destruct (Hsprings k spring Hk) as (pos0 & pos1 & forces & forces'
    & Hp0 & Hp1 & _ & _ & Hrun & Hrun' & Hl & Hl' & Hall).
  destruct (lookup_lt_is_Some_2 forces (p0 spring)) as [a0 Ha0];
    [rewrite Hl; by eapply lookup_lt_Some|].
  destruct (lookup_lt_is_Some_2 forces (p1 spring)) as [a1 Ha1];
    [rewrite Hl; by eapply lookup_lt_Some|].
  exists pos0, pos1, a0, a1, forces, forces'.
  split_and!; [done..|]. cbv zeta. split.
  - rewrite (Hall _ _ Ha0). cbv zeta. repeat case_decide; congruence.
  - rewrite (Hall _ _ Ha1). cbv zeta. repeat case_decide; congruence.
Qed.

End SpringLoop.

Section Components.
Context {F : Type} `{Number F}.

Lemma get_inc (axis : Axis) (a b : Vec3 F) :
  Vec.get axis (Vec.inc a b) = (Vec.get axis a + Vec.get axis b)%js.
Proof. by destruct axis. Qed.

Lemma get_dec (axis : Axis) (a b : Vec3 F) :
  Vec.get axis (Vec.dec a b) = (Vec.get axis a - Vec.get axis b)%js.
Proof. by destruct axis. Qed.

Lemma get_sub (axis : Axis) (a b : Vec3 F) :
  Vec.get axis (Vec.sub a b) = (Vec.get axis a - Vec.get axis b)%js.
Proof. by destruct axis. Qed.

Lemma get_mul (axis : Axis) (a : Vec3 F) (f : F) :
  Vec.get axis (Vec.mul a f) = (Vec.get axis a * f)%js.
Proof. by destruct axis. Qed.

Lemma get_div (axis : Axis) (a : Vec3 F) (f : F) :
  Vec.get axis (Vec.div a f) = (Vec.get axis a / f)%js.
Proof. by destruct axis. Qed.

Lemma vec3_ext (a b : Vec3 F) :
  (∀ axis, Vec.get axis a = Vec.get axis b) → a = b.
Proof.
  intros Hget. pose proof (Hget Ax). pose proof (Hget Ay).
  pose proof (Hget Az). destruct a, b; simpl in *; congruence.
Qed.

(** The collision pass leaves a particle alone when, on every axis, the
    pass on that axis does. *)
Lemma collide_particle_fixed (restitution : F) (p v : Vec3 F) :
  (∀ axis, collide_component restitution (Vec.get axis p) (Vec.get axis v)
           = (Vec.get axis p, Vec.get axis v)) →
  collide_particle restitution (p, v) = (p, v).
Proof.
  intros Hfix.
  destruct (collide_particle restitution (p, v)) as [p' v'] eqn:Hc.
  f_equal; apply vec3_ext; intros axis;
    pose proof (collide_particle_get restitution p v axis) as Hget;
    cbv zeta in Hget; rewrite Hc, Hfix in Hget; simpl in Hget; congruence.
Qed.

End Components.

(** ** The whole step, particle by particle *)

Section Step.
Context {F : Type} `{Number F}.
Implicit Types (positions velocities forces : list (Vec3 F)).
Implicit Types (springs : list (Spring F)) (spring : Spring F).

Lemma accumulate_forces_spec positions velocities springs
    stiffness damping particleMass gravity :
  valid_springs (length positions) springs →
  length positions ≤ length velocities →
  ∃ sforces forces,
    spring_forces stiffness positions springs = Some sforces ∧
    accumulate_forces positions velocities springs stiffness damping
      particleMass gravity = Some forces ∧
    length sforces = length positions ∧
    length forces = length positions ∧
    ∀ i f v, sforces !! i = Some f → velocities !! i = Some v →
      forces !! i = Some (net_force damping particleMass gravity f v).
Proof.
  intros Hvalid Hlen.
  destruct (spring_forces_is_Some stiffness positions springs Hvalid)
    as (sforces & Hsf & Hsl).
  destruct (gravity_damping_loop velocities damping particleMass gravity
    sforces (length positions)) as (forces & Hrun & Hfl & Hforces);
    [lia|lia|].
  exists sforces, forces. unfold accumulate_forces. rewrite Hsf. simpl.
  split_and!; [done|done|done|lia|].
  intros i f v Hf Hv. rewrite Hforces, Hf, Hv.
  apply lookup_lt_Some in Hf. by rewrite decide_True by lia.
Qed.

Lemma accumulate_forces_Some_inv positions velocities springs
    stiffness damping particleMass gravity forces :
  accumulate_forces positions velocities springs stiffness damping
    particleMass gravity = Some forces →
  valid_springs (length positions) springs ∧
  length positions ≤ length velocities.
Proof.
  unfold accumulate_forces. intros Hrun.
  destruct (spring_forces stiffness positions springs) as [sforces|] eqn:Hsf;
    [|discriminate].
  simpl in Hrun. apply spring_forces_Some_inv in Hsf as [Hv _].
  split; [done|]. by eapply gravity_damping_loop_Some_inv.
Qed.

Lemma integrate_spec dt positions velocities springs
    stiffness damping particleMass gravity :
  valid_springs (length positions) springs →
  length positions ≤ length velocities →
  ∃ sforces positions1 velocities1,
    spring_forces stiffness positions springs = Some sforces ∧
    integrate dt positions velocities springs stiffness damping particleMass
      gravity = Some (positions1, velocities1) ∧
    length positions1 = length positions ∧
    length velocities1 = length velocities ∧
    (∀ i f p v,
       sforces !! i = Some f → positions !! i = Some p →
       velocities !! i = Some v →
       let pv := euler particleMass dt
                   (net_force damping particleMass gravity f v) p v in
       positions1 !! i = Some pv.1 ∧ velocities1 !! i = Some pv.2) ∧
    (∀ i, length positions ≤ i → velocities1 !! i = velocities !! i).
Proof.
  intros Hvalid Hlen.
  destruct (accumulate_forces_spec positions velocities springs stiffness
    damping particleMass gravity Hvalid Hlen)
    as (sforces & forces & Hsf & Hacc & Hsl & Hfl & Hforces).
  destruct (integrate_loop forces particleMass dt positions velocities
    (length positions)) as (ps1 & vs1 & Hrun & Hpl & Hvl & Hst); [lia..|].
  exists sforces, ps1, vs1. unfold integrate. rewrite Hacc. simpl.
  split_and!; [done|done|done|done| |].
  - intros i f p v Hf Hp Hv. destruct (Hst i) as [-> ->].
    rewrite (Hforces i f v), Hp, Hv by done.
    apply lookup_lt_Some in Hp. rewrite !decide_True by lia. done.
  - intros i Hi. destruct (Hst i) as [_ ->]. by rewrite decide_False by lia.
Qed.

Lemma integrate_Some_inv dt positions velocities springs
    stiffness damping particleMass gravity st :
  integrate dt positions velocities springs stiffness damping particleMass
    gravity = Some st →
  valid_springs (length positions) springs ∧
  length positions ≤ length velocities.
Proof.
  unfold integrate. intros Hrun.
  destruct (accumulate_forces positions velocities springs stiffness damping
    particleMass gravity) as [forces|] eqn:Hacc; [|discriminate].
  by eapply accumulate_forces_Some_inv.
Qed.

Lemma collide_spec restitution positions velocities :
  length positions ≤ length velocities →
  ∃ positions' velocities',
    collide restitution (positions, velocities)
      = Some (positions', velocities') ∧
    length positions' = length positions ∧
    length velocities' = length velocities ∧
    (∀ i p v, positions !! i = Some p → velocities !! i = Some v →
       let pv := collide_particle restitution (p, v) in
       positions' !! i = Some pv.1 ∧ velocities' !! i = Some pv.2) ∧
    (∀ i, length positions ≤ i → velocities' !! i = velocities !! i).
Proof.
  intros Hlen.
  destruct (collide_loop restitution positions velocities (length positions))
    as (ps' & vs' & Hrun & Hpl & Hvl & Hst); [lia..|].
  exists ps', vs'. split_and!; [done|done|done| |].
  - intros i p v Hp Hv. destruct (Hst i) as [-> ->]. rewrite Hp, Hv.
    apply lookup_lt_Some in Hp. rewrite !decide_True by lia. done.
  - intros i Hi. destruct (Hst i) as [_ ->]. by rewrite decide_False by lia.
Qed.

Lemma SimTimeStep_unfold dt positions velocities springs
    stiffness damping particleMass gravity restitution :
  SimTimeStep dt positions velocities springs stiffness damping particleMass
    gravity restitution
  = ((clamp_dt dt).1,
     st ← integrate (clamp_dt dt).2 positions velocities springs stiffness
            damping particleMass gravity;
     collide restitution st).
Proof. unfold SimTimeStep. by destruct (clamp_dt dt). Qed.

(** On valid input the call completes, and leaves particle [i] where the
    collision pass puts the result of the Euler update. *)
Lemma SimTimeStep_spec dt positions velocities springs
    stiffness damping particleMass gravity restitution :
  valid_springs (length positions) springs →
  length positions ≤ length velocities →
  ∃ sforces positions' velocities',
    spring_forces stiffness positions springs = Some sforces ∧
    SimTimeStep dt positions velocities springs stiffness damping
      particleMass gravity restitution
    = ((clamp_dt dt).1, Some (positions', velocities')) ∧
    length positions' = length positions ∧
    length velocities' = length velocities ∧
    (∀ i f p v,
       sforces !! i = Some f → positions !! i = Some p →
       velocities !! i = Some v →
       let pv := collide_particle restitution
                   (euler particleMass (clamp_dt dt).2
                      (net_force damping particleMass gravity f v) p v) in
       positions' !! i = Some pv.1 ∧ velocities' !! i = Some pv.2) ∧
    (∀ i, length positions ≤ i → velocities' !! i = velocities !! i).
Proof.
  intros Hvalid Hlen.
  destruct (integrate_spec (clamp_dt dt).2 positions velocities springs
    stiffness damping particleMass gravity Hvalid Hlen)
    as (sforces & ps1 & vs1 & Hsf & Hint & Hpl & Hvl & Hst & Hrest).
  destruct (collide_spec restitution ps1 vs1)
    as (ps' & vs' & Hcol & Hpl' & Hvl' & Hst' & Hrest'); [lia|].
  exists sforces, ps', vs'. rewrite SimTimeStep_unfold, Hint. simpl.
  rewrite Hcol. split_and!; [done|done|lia|lia| |].
  - intros i f p v Hf Hp Hv. destruct (Hst i f p v) as [Hp1 Hv1]; [done..|].
    destruct (Hst' i _ _ Hp1 Hv1) as [-> ->].
    by destruct (euler _ _ _ _ _).
  - intros i Hi. rewrite Hrest', Hrest by lia. done.
Qed.

End Step.

(** ** Facts on binary64 numbers *)

Section FloatFacts.
Local Open Scope float_scope.

Lemma SFcompare_antisym (a b : spec_float) :
  SFcompare b a = option_map CompOpp (SFcompare a b).
Proof.
  destruct a as [sa|sa| |sa ma ea], b as [sb|sb| |sb mb eb]; simpl;
    try destruct sa; try destruct sb; simpl; try reflexivity.
  - rewrite (Z.compare_antisym ea eb).
    destruct (ea ?= eb)%Z; simpl; try reflexivity.
    pose proof (Pos.compare_cont_antisym ma mb Eq) as Ha. simpl in Ha.
    rewrite <- Ha. by destruct (Pos.compare_cont Eq ma mb).
  - rewrite (Z.compare_antisym ea eb).
    destruct (ea ?= eb)%Z; simpl; try reflexivity.
    pose proof (Pos.compare_cont_antisym ma mb Eq) as Ha. simpl in Ha.
    rewrite <- Ha. by destruct (Pos.compare_cont Eq ma mb).
Qed.

Lemma SFcompare_None (a b : spec_float) :
  SFcompare a b = None → a = S754_nan ∨ b = S754_nan.
Proof.
  destruct a as [sa|sa| |sa ma ea], b as [sb|sb| |sb mb eb]; simpl;
    auto; discriminate.
Qed.

Lemma is_nan_spec (f : float) :
  is_nan f = match Prim2SF f with S754_nan => true | _ => false end.
Proof.
  unfold is_nan. rewrite FloatAxioms.eqb_spec. unfold SFeqb.
  destruct (Prim2SF f) as [s|s| |s m e]; simpl; [by destruct s..|done|].
  rewrite Z.compare_refl.
  replace (Pos.compare_cont Eq m m) with Eq
    by (symmetry; apply Pos.compare_refl).
  by destruct s.
Qed.

(** On numbers that are not NaN, [x < y] fails exactly when [y <= x]. *)
Lemma ltb_false_leb (a b : float) :
  is_nan a = false → is_nan b = false → (a <? b) = false → (b <=? a) = true.
Proof.
  rewrite !is_nan_spec, FloatAxioms.ltb_spec, FloatAxioms.leb_spec. unfold SFltb, SFleb.
  rewrite (SFcompare_antisym (Prim2SF a) (Prim2SF b)).
  destruct (SFcompare (Prim2SF a) (Prim2SF b)) as [[]|] eqn:Hc; simpl;
    try done.
  apply SFcompare_None in Hc as [-> | ->]; done.
Qed.

Lemma SFltb_above_positive (c : spec_float) (m m' : positive) (e e' : Z) :
  SFltb (S754_finite false m e) c = true →
  SFltb c (S754_finite true m' e') = false.
Proof.
  unfold SFltb. destruct c as [s|s| |s mc ec]; simpl; try done.
  - by destruct s.
  - by destruct s.
Qed.

(** A number above [1] is not below [-1]. *)
Lemma above_1_not_below (c : float) : (1 <? c) = true → (c <? -1) = false.
Proof.
  rewrite !FloatAxioms.ltb_spec.
  replace (Prim2SF 1) with (S754_finite false 4503599627370496 (-52))
    by reflexivity.
  replace (Prim2SF (-1)) with (S754_finite true 4503599627370496 (-52))
    by reflexivity.
  apply SFltb_above_positive.
Qed.

End FloatFacts.

(** ** Zeros, finite numbers and NaN *)

Section FloatZero.
Local Open Scope float_scope.

Lemma is_zero_spec (f : float) :
  is_zero f = match Prim2SF f with S754_zero _ => true | _ => false end.
Proof.
  unfold is_zero. rewrite FloatAxioms.eqb_spec. unfold SFeqb.
  replace (Prim2SF zero) with (S754_zero false) by reflexivity.
  destruct (Prim2SF f) as [s|s| |s m e]; simpl; try done; by destruct s.
Qed.

Lemma is_finite_spec (f : float) :
  is_finite f = match Prim2SF f with
                | S754_zero _ | S754_finite _ _ _ => true
                | _ => false
                end.
Proof.
  unfold is_finite, is_infinity.
  rewrite is_nan_spec, FloatAxioms.eqb_spec, abs_spec. unfold SFeqb.
  replace (Prim2SF infinity) with (S754_infinity false) by reflexivity.
  destruct (Prim2SF f) as [s|s| |s m e]; simpl; done.
Qed.

Lemma is_zero_finite (f : float) : is_zero f = true → is_finite f = true.
Proof.
  rewrite is_zero_spec, is_finite_spec. by destruct (Prim2SF f).
Qed.

Lemma same_zero (a b : float) :
  is_zero a = true → is_zero b = true → same a b.
Proof. by right. Qed.

Lemma same_is_finite (a b : float) : same a b → is_finite a = is_finite b.
Proof.
  intros [->|[Ha Hb]]; [done|].
  by rewrite (is_zero_finite a Ha), (is_zero_finite b Hb).
Qed.

(** Comparisons do not see the sign of a zero. *)
Lemma same_ltb_l (a b c : float) : same a b → (a <? c) = (b <? c).
Proof.
  intros [->|[Ha Hb]]; [done|]. rewrite is_zero_spec in Ha, Hb.
  rewrite !FloatAxioms.ltb_spec. unfold SFltb.
  destruct (Prim2SF a), (Prim2SF b); try done; by destruct (Prim2SF c).
Qed.

Lemma same_ltb_r (a b c : float) : same a b → (c <? a) = (c <? b).
Proof.
  intros [->|[Ha Hb]]; [done|]. rewrite is_zero_spec in Ha, Hb.
  rewrite !FloatAxioms.ltb_spec. unfold SFltb.
  destruct (Prim2SF a), (Prim2SF b); try done; by destruct (Prim2SF c).
Qed.

(** A finite number times a zero is a zero. *)
Lemma mul_zero_r (a b : float) :
  is_finite a = true → is_zero b = true → is_zero (a * b) = true.
Proof.
  rewrite is_finite_spec, !is_zero_spec, mul_spec. unfold SF64mul.
  destruct (Prim2SF a), (Prim2SF b); simpl; done.
Qed.

Lemma mul_zero_l (a b : float) :
  is_zero a = true → is_finite b = true → is_zero (a * b) = true.
Proof.
  rewrite is_finite_spec, !is_zero_spec, mul_spec. unfold SF64mul.
  destruct (Prim2SF a), (Prim2SF b); simpl; done.
Qed.

(** Adding a zero changes at most the sign of a zero. *)
Lemma add_zero_r (a b : float) : is_zero b = true → same (a + b) a.
Proof.
  rewrite is_zero_spec. intros Hb.
  destruct (Prim2SF b) as [sb| | |] eqn:Eb; try done.
  destruct (Prim2SF a) as [sa|sa| |sa ma ea] eqn:Ea.
  - right. rewrite !is_zero_spec, add_spec, Ea, Eb. simpl.
    by destruct sa, sb.
  - left. apply Prim2SF_inj. by rewrite add_spec, Ea, Eb.
  - left. apply Prim2SF_inj. by rewrite add_spec, Ea, Eb.
  - left. apply Prim2SF_inj. by rewrite add_spec, Ea, Eb.
Qed.

End FloatZero.

(** ** Arithmetic on zeros *)

Section FloatZeroArith.
Local Open Scope float_scope.

Lemma same_trans (a b c : float) : same a b → same b c → same a c.
Proof.
  intros [->|[Ha Hb]] [->|[Hb' Hc]]; try by left.
  - by right.
  - by right.
  - by right.
Qed.

Lemma same_is_zero (a b : float) : same a b → is_zero a = is_zero b.
Proof. intros [->|[-> ->]]; done. Qed.

Lemma add_zero_zero (a b : float) :
  is_zero a = true → is_zero b = true → is_zero (a + b) = true.
Proof.
  rewrite !is_zero_spec, add_spec. unfold SF64add.
  destruct (Prim2SF a) as [sa| | |], (Prim2SF b) as [sb| | |]; try done.
  by destruct sa, sb.
Qed.

Lemma sub_zero_zero (a b : float) :
  is_zero a = true → is_zero b = true → is_zero (a - b) = true.
Proof.
  rewrite !is_zero_spec, sub_spec. unfold SF64sub.
  destruct (Prim2SF a) as [sa| | |], (Prim2SF b) as [sb| | |]; try done.
  by destruct sa, sb.
Qed.

(** A zero over a number that is neither NaN nor a zero is a zero. *)
Lemma div_zero_l (a b : float) :
  is_zero a = true → is_nan b = false → is_zero b = false →
  is_zero (a / b) = true.
Proof.
  rewrite !is_zero_spec, is_nan_spec, div_spec. unfold SF64div.
  destruct (Prim2SF a), (Prim2SF b); done.
Qed.

(** A finite number minus itself is [+0]. *)
Lemma sub_diag (a : float) : is_finite a = true → is_zero (a - a) = true.
Proof.
  rewrite is_finite_spec, is_zero_spec, sub_spec. unfold SF64sub, SFsub.
  destruct (Prim2SF a) as [s|s| |s m e]; try done.
  - by destruct s.
  - intros _. by rewrite Z.sub_diag.
Qed.

(** Subtraction, squares and quotients do not see the sign of a zero,
    but in the sign of a zero result. *)
Lemma sub_same (a a' b b' : float) :
  same a a' → same b b' → same (a - b) (a' - b').
Proof.
  intros [->|[Ha Ha']] [->|[Hb Hb']]; [by left| | |].
  - rewrite is_zero_spec in Hb, Hb'.
    destruct (Prim2SF b) as [sb| | |] eqn:Eb; try done.
    destruct (Prim2SF b') as [sb'| | |] eqn:Eb'; try done.
    destruct (Prim2SF a') as [sa|sa| |sa ma ea] eqn:Ea.
    + right. rewrite !is_zero_spec, !sub_spec, Ea, Eb, Eb'. simpl.
      by destruct sa, sb, sb'.
    + left. apply Prim2SF_inj. by rewrite !sub_spec, Ea, Eb, Eb'.
    + left. apply Prim2SF_inj. by rewrite !sub_spec, Ea, Eb, Eb'.
    + left. apply Prim2SF_inj. by rewrite !sub_spec, Ea, Eb, Eb'.
  - rewrite is_zero_spec in Ha, Ha'.
    destruct (Prim2SF a) as [sa| | |] eqn:Ea; try done.
    destruct (Prim2SF a') as [sa'| | |] eqn:Ea'; try done.
    destruct (Prim2SF b') as [sb|sb| |sb mb eb] eqn:Eb.
    + right. rewrite !is_zero_spec, !sub_spec, Ea, Ea', Eb. simpl.
      by destruct sa, sa', sb.
    + left. apply Prim2SF_inj. by rewrite !sub_spec, Ea, Ea', Eb.
    + left. apply Prim2SF_inj. by rewrite !sub_spec, Ea, Ea', Eb.
    + left. apply Prim2SF_inj. by rewrite !sub_spec, Ea, Ea', Eb.
  - right. split; by apply sub_zero_zero.
Qed.

Lemma mul_self_same (a a' : float) : same a a' → a * a = a' * a'.
Proof.
  intros [->|[Ha Ha']]; [done|]. rewrite is_zero_spec in Ha, Ha'.
  apply Prim2SF_inj. rewrite !mul_spec.
  destruct (Prim2SF a) as [sa| | |]; try done.
  destruct (Prim2SF a') as [sa'| | |]; try done.
  by destruct sa, sa'.
Qed.

Lemma div_same_l (a a' b : float) : same a a' → same (a / b) (a' / b).
Proof.
  intros [->|[Ha Ha']]; [by left|]. rewrite is_zero_spec in Ha, Ha'.
  destruct (Prim2SF a) as [sa| | |] eqn:Ea; try done.
  destruct (Prim2SF a') as [sa'| | |] eqn:Ea'; try done.
  destruct (Prim2SF b) as [sb|sb| |sb mb eb] eqn:Eb.
  - left. apply Prim2SF_inj. by rewrite !div_spec, Ea, Ea', Eb.
  - right. by rewrite !is_zero_spec, !div_spec, Ea, Ea', Eb.
  - left. apply Prim2SF_inj. by rewrite !div_spec, Ea, Ea', Eb.
  - right. by rewrite !is_zero_spec, !div_spec, Ea, Ea', Eb.
Qed.

End FloatZeroArith.

(** The closure of the zeros under the arithmetic of the step. *)
Create HintDb zeros discriminated.
#[global] Hint Resolve add_zero_zero sub_zero_zero mul_zero_l mul_zero_r
  div_zero_l sub_diag is_zero_finite : zeros.

(** ** Signs (binary64) *)

Section RoundingSign.
Local Open Scope float_scope.

(** Rounding keeps the sign. *)
Lemma binary_round_aux_sign (prec emax : Z) (sx : bool) (mx ex : Z)
    (lx : location) :
  match binary_round_aux prec emax sx mx ex lx with
  | S754_zero s | S754_infinity s | S754_finite s _ _ => s = sx
  | S754_nan => True
  end.
Proof.
  unfold binary_round_aux.
  destruct (shr_fexp prec emax mx ex lx) as [mrs1 e1].
  destruct (shr_fexp prec emax _ e1 loc_Exact) as [mrs2 e2].
  destruct (shr_m mrs2); [done| |done].
  by destruct (e2 <=? emax - prec)%Z.
Qed.

(** A product of two numbers of the same sign is not below zero, and a
    product of two numbers of opposite signs is not above. *)
Lemma SFmul_sign (prec emax : Z) (a b : spec_float) :
  match a, b with
  | S754_nan, _ | _, S754_nan => True
  | (S754_zero sa | S754_infinity sa | S754_finite sa _ _),
    (S754_zero sb | S754_infinity sb | S754_finite sb _ _) =>
      if xorb sa sb
      then SFltb (S754_zero false) (SFmul prec emax a b) = false
      else SFltb (SFmul prec emax a b) (S754_zero false) = false
  end.
Proof.
  destruct a as [sa|sa| |sa ma ea], b as [sb|sb| |sb mb eb]; try done;
    try (by destruct sa, sb).
  unfold SFmul.
  pose proof (binary_round_aux_sign prec emax (xorb sa sb)
                (Z.pos (ma * mb)) (ea + eb) loc_Exact) as Hsign.
  destruct (binary_round_aux prec emax (xorb sa sb) (Z.pos (ma * mb))
              (ea + eb) loc_Exact) as [s|s| |s m e];
    try subst s; by destruct (xorb sa sb).
Qed.

End RoundingSign.

Section FloatSigns.
Local Open Scope Z_scope.

Lemma digits2_pos_bounds (m : positive) :
  2 ^ (Z.pos (digits2_pos m) - 1) <= Z.pos m < 2 ^ Z.pos (digits2_pos m).
Proof.
  induction m as [m IH|m IH|]; simpl digits2_pos; [| |simpl; lia].
  - rewrite Pos2Z.inj_succ.
    replace (Z.succ (Z.pos (digits2_pos m)) - 1)
      with (Z.succ (Z.pos (digits2_pos m) - 1)) by lia.
    rewrite !Z.pow_succ_r by lia. lia.
  - rewrite Pos2Z.inj_succ.
    replace (Z.succ (Z.pos (digits2_pos m)) - 1)
      with (Z.succ (Z.pos (digits2_pos m) - 1)) by lia.
    rewrite !Z.pow_succ_r by lia. lia.
Qed.

(** What a valid binary64 mantissa and exponent satisfy. *)
Lemma bounded_inv (m : positive) (e : Z) :
  SpecFloat.bounded prec emax m e = true →
  -1074 <= e ∧ Z.pos m < 2 ^ 53 ∧ (-1074 < e → 2 ^ 52 <= Z.pos m).
Proof.
  unfold SpecFloat.bounded, canonical_mantissa, fexp, emin, prec, emax.
  intros [Hc _]%andb_true_iff. apply Z.eqb_eq in Hc.
  pose proof (digits2_pos_bounds m) as [Hlow Hhigh].
  assert (Z.pos (digits2_pos m) <= 53) as Hd by lia.
  split_and!; [lia| |].
  - eapply Z.lt_le_trans; [exact Hhigh|].
    apply Z.pow_le_mono_r; lia.
  - intros He. assert (Z.pos (digits2_pos m) = 53) as Hd' by lia.
    rewrite Hd' in Hlow. exact Hlow.
Qed.

Lemma shl_align_same (m : positive) (e : Z) : shl_align m e e = (m, e).
Proof. unfold shl_align. by rewrite Z.sub_diag. Qed.

Lemma shl_align_below (m : positive) (e e' : Z) :
  e' < e → Z.pos (shl_align m e e').1 = Z.pos m * 2 ^ (e - e').
Proof.
  intros He. unfold shl_align.
  destruct (e' - e) as [|d|d] eqn:Hd; [lia|lia|]. cbn [fst].
  change (Pos.iter xO m d) with (shift_pos d m).
  rewrite shift_pos_correct.
  replace (e - e') with (Z.pos d) by lia.
  change (Z.pow_pos 2 d) with (2 ^ Z.pos d). lia.
Qed.

(** The comparison of two valid positive numbers is the comparison of
    their mantissas once aligned on the smaller exponent. *)
Lemma aligned_lt (m1 m2 : positive) (e1 e2 : Z) :
  SpecFloat.bounded prec emax m1 e1 = true → SpecFloat.bounded prec emax m2 e2 = true →
  SFcompare (S754_finite false m1 e1) (S754_finite false m2 e2) = Some Lt →
  Z.pos (shl_align m1 e1 (Z.min e1 e2)).1
  < Z.pos (shl_align m2 e2 (Z.min e1 e2)).1.
Proof.
  intros (Hmin1 & Hhigh1 & _)%bounded_inv (_ & _ & Hlow2)%bounded_inv.
  simpl. destruct (e1 ?= e2) eqn:He; [| |discriminate].
  - apply Z.compare_eq in He. subst e2. rewrite Z.min_id, !shl_align_same.
    intros [= Hm]. simpl. by apply Pos.compare_lt_iff in Hm.
  - change (e1 < e2) in He. intros _.
    rewrite (Z.min_l e1 e2) by lia.
    rewrite shl_align_same, (shl_align_below m2 e2 e1) by lia. simpl.
    assert (2 <= 2 ^ (e2 - e1)) as Hpow.
    { change 2 with (2 ^ 1) at 1. apply Z.pow_le_mono_r; lia. }
    specialize (Hlow2 ltac:(lia)). nia.
Qed.


(** Normalizing an integer that is not negative gives a number that is
    not below zero, and the same for not positive and not above. *)
Lemma binary_normalize_sign (m e : Z) :
  (0 <= m → SFltb (binary_normalize prec emax m e false) (S754_zero false)
            = false) ∧
  (m <= 0 → SFltb (S754_zero false) (binary_normalize prec emax m e false)
            = false).
Proof.
  destruct m as [|p|p]; simpl; [done| |].
  - split; [intros _|lia]. unfold binary_round.
    destruct (shl_align p e _) as [mz ez].
    pose proof (binary_round_aux_sign prec emax false (Z.pos mz) ez loc_Exact)
      as Hsign.
    by destruct (binary_round_aux prec emax false (Z.pos mz) ez loc_Exact)
      as [s|s| |s m' e']; try subst s.
  - split; [lia|intros _]. unfold binary_round.
    destruct (shl_align p e _) as [mz ez].
    pose proof (binary_round_aux_sign prec emax true (Z.pos mz) ez loc_Exact)
      as Hsign.
    by destruct (binary_round_aux prec emax true (Z.pos mz) ez loc_Exact)
      as [s|s| |s m' e']; try subst s.
Qed.

Lemma SFcompare_negative (m1 m2 : positive) (e1 e2 : Z) :
  SFcompare (S754_finite true m1 e1) (S754_finite true m2 e2) = Some Lt →
  SFcompare (S754_finite false m2 e2) (S754_finite false m1 e1) = Some Lt.
Proof.
  simpl. rewrite (Z.compare_antisym e1 e2).
  destruct (e1 ?= e2); simpl; [|done..].
  change (Pos.compare_cont Eq m1 m2) with (m1 ?= m2)%positive.
  change (Pos.compare_cont Eq m2 m1) with (m2 ?= m1)%positive.
  rewrite (Pos.compare_antisym m1 m2).
  by destruct (m1 ?= m2)%positive.
Qed.

(** The difference of two valid numbers has the sign of their
    comparison: [x - y] is not below zero, and [y - x] not above, when
    [y < x]. *)
Lemma SFsub_sign (x y : spec_float) :
  valid_binary x = true → valid_binary y = true →
  SFltb y x = true →
  SFltb (SFsub prec emax x y) (S754_zero false) = false ∧
  SFltb (S754_zero false) (SFsub prec emax y x) = false.
Proof.
  destruct x as [sx|sx| |sx mx ex], y as [sy|sy| |sy my ey];
    try done; try (by destruct sx); try (by destruct sy);
    try (by destruct sx, sy).
  unfold SFltb, valid_binary. intros Hx Hy Hlt. simpl in Hx, Hy.
  destruct (SFcompare (S754_finite sy my ey) (S754_finite sx mx ex))
    as [[]|] eqn:Hc; try discriminate. clear Hlt.
  unfold SFsub. fold (SFltb (binary_normalize prec emax
    (cond_Zopp sx (Z.pos (shl_align mx ex (Z.min ex ey)).1)
     - cond_Zopp sy (Z.pos (shl_align my ey (Z.min ex ey)).1))
    (Z.min ex ey) false) (S754_zero false)).
  destruct sx, sy; simpl cond_Zopp.
  - apply SFcompare_negative in Hc.
    pose proof (aligned_lt mx my ex ey Hx Hy Hc) as Hal.
    split.
    + apply binary_normalize_sign. lia.
    + rewrite (Z.min_comm ey ex). apply binary_normalize_sign. lia.
  - discriminate.
  - split.
    + apply binary_normalize_sign. lia.
    + apply binary_normalize_sign. lia.
  - pose proof (aligned_lt my mx ey ex Hy Hx Hc) as Hal.
    split.
    + rewrite (Z.min_comm ex ey). apply binary_normalize_sign. lia.
    + apply binary_normalize_sign. lia.
Qed.

End FloatSigns.

Section FloatDirection.
Local Open Scope float_scope.

Lemma sub_sign (a b : float) :
  (b <? a) = true → (a - b <? 0) = false ∧ (0 <? b - a) = false.
Proof.
  rewrite !FloatAxioms.ltb_spec, !sub_spec.
  replace (Prim2SF 0) with (S754_zero false) by reflexivity.
  apply SFsub_sign; apply Prim2SF_valid.
Qed.

(** The sign of a product, on numbers that may be zero or NaN. *)
Lemma mul_sign (a b : float) :
  ((a <? 0) = false → (b <? 0) = false → (a * b <? 0) = false) ∧
  ((0 <? a) = false → (0 <? b) = false → (a * b <? 0) = false) ∧
  ((a <? 0) = false → (0 <? b) = false → (0 <? a * b) = false) ∧
  ((0 <? a) = false → (b <? 0) = false → (0 <? a * b) = false).
Proof.
  rewrite !FloatAxioms.ltb_spec, mul_spec.
  replace (Prim2SF 0) with (S754_zero false) by reflexivity.
  pose proof (SFmul_sign prec emax (Prim2SF a) (Prim2SF b)) as Hsign.
  unfold SF64mul.
  destruct (Prim2SF a) as [sa|sa| |sa ma ea];
    destruct (Prim2SF b) as [sb|sb| |sb mb eb];
    try done; destruct sa, sb; simpl xorb in Hsign; try done.
Qed.

(** A quotient has the sign bits of its operands combined, as a product
    has. *)
Lemma SFdiv_sign (a b : spec_float) :
  match a, b with
  | S754_nan, _ | _, S754_nan => True
  | (S754_zero sa | S754_infinity sa | S754_finite sa _ _),
    (S754_zero sb | S754_infinity sb | S754_finite sb _ _) =>
      if xorb sa sb
      then SFltb (S754_zero false) (SFdiv prec emax a b) = false
      else SFltb (SFdiv prec emax a b) (S754_zero false) = false
  end.
Proof.
  destruct a as [sa|sa| |sa ma ea], b as [sb|sb| |sb mb eb]; try done;
    try (by destruct sa, sb).
  unfold SFdiv.
  destruct (SFdiv_core_binary prec emax (Z.pos ma) ea (Z.pos mb) eb)
    as [[mz ez] lz].
  pose proof (binary_round_aux_sign prec emax (xorb sa sb) mz ez lz)
    as Hsign.
  destruct (binary_round_aux prec emax (xorb sa sb) mz ez lz) as [s|s| |s m e];
    try subst s; by destruct (xorb sa sb).
Qed.

(** Dividing by a number whose sign bit is clear keeps the sign. *)
Lemma div_sign (a b : float) :
  sign_clear (Prim2SF b) →
  ((a <? 0) = false → (a / b <? 0) = false) ∧
  ((0 <? a) = false → (0 <? a / b) = false).
Proof.
  rewrite !FloatAxioms.ltb_spec, div_spec.
  replace (Prim2SF 0) with (S754_zero false) by reflexivity.
  pose proof (SFdiv_sign (Prim2SF a) (Prim2SF b)) as Hsign.
  unfold SF64div.
  destruct (Prim2SF a) as [sa|sa| |sa ma ea];
    destruct (Prim2SF b) as [sb|sb| |sb mb eb];
    try done; simpl; intros ->; destruct sa; simpl xorb in Hsign; try done.
Qed.

Lemma square_sign_clear (a : float) : sign_clear (Prim2SF (a * a)).
Proof.
  rewrite mul_spec. unfold SF64mul.
  destruct (Prim2SF a) as [sa|sa| |sa ma ea]; simpl; try done;
    try (by destruct sa).
  pose proof (binary_round_aux_sign prec emax (xorb sa sa)
                (Z.pos (ma * ma)) (ea + ea) loc_Exact) as Hsign.
  destruct (binary_round_aux prec emax (xorb sa sa) (Z.pos (ma * ma))
              (ea + ea) loc_Exact) as [s|s| |s m e];
    try subst s; by destruct sa.
Qed.

Lemma add_sign_clear (a b : float) :
  sign_clear (Prim2SF a) → sign_clear (Prim2SF b) →
  sign_clear (Prim2SF (a + b)).
Proof.
  rewrite add_spec. unfold SF64add.
  destruct (Prim2SF a) as [sa|sa| |sa ma ea];
    destruct (Prim2SF b) as [sb|sb| |sb mb eb];
    simpl; try done; try (by intros -> ->).
  intros -> ->. simpl. unfold binary_round.
  destruct (shl_align _ _ _) as [mz ez].
  pose proof (binary_round_aux_sign prec emax false (Z.pos mz) ez loc_Exact)
    as Hsign.
  by destruct (binary_round_aux prec emax false (Z.pos mz) ez loc_Exact).
Qed.

Lemma sqrt_sign_clear (a : float) :
  sign_clear (Prim2SF a) → sign_clear (Prim2SF (PrimFloat.sqrt a)).
Proof.
  rewrite sqrt_spec. unfold SF64sqrt.
  destruct (Prim2SF a) as [sa|sa| |sa ma ea]; simpl; try done;
    try (by intros ->).
  intros ->.
  destruct (SFsqrt_core_binary prec emax (Z.pos ma) ea) as [[mz ez] lz].
  pose proof (binary_round_aux_sign prec emax false mz ez lz) as Hsign.
  by destruct (binary_round_aux prec emax false mz ez lz).
Qed.

(** The sign bit of a length is clear. *)
Lemma len_sign_clear (v : Vec3 float) : sign_clear (Prim2SF (Vec.len v)).
Proof.
  unfold Vec.len. simpl.
  apply sqrt_sign_clear, add_sign_clear; [apply add_sign_clear|];
    apply square_sign_clear.
Qed.

(** On binary64 numbers, with a positive stiffness, the force of a
    stretched spring has no component of the sign opposite to that
    component of the displacement, and the force of a compressed spring
    no component of the same sign. *)
Lemma spring_force_direction (stiffness rest : float) (pos0 pos1 : Vec3 float)
    (axis : Axis) :
  let d := Vec.sub pos1 pos0 in
  let L := Vec.len d in
  let u := Vec.div d L in
  let f := stiffness * (L - rest) in
  let c := Vec.get axis (Vec.mul u f) in
  (0 <? stiffness) = true →
  ((rest <? L) = true →
     ((Vec.get axis d <? 0) = false → (c <? 0) = false) ∧
     ((0 <? Vec.get axis d) = false → (0 <? c) = false)) ∧
  ((L <? rest) = true →
     ((Vec.get axis d <? 0) = false → (0 <? c) = false) ∧
     ((0 <? Vec.get axis d) = false → (c <? 0) = false)).
Proof.
  intros d L u f c Hk. unfold c, u. rewrite get_mul, get_div.
  assert ((stiffness <? 0) = false) as Hk'.
  { revert Hk. rewrite !FloatAxioms.ltb_spec.
    replace (Prim2SF 0) with (S754_zero false) by reflexivity.
    by destruct (Prim2SF stiffness) as [[]|[]| |[] m e]. }
  pose proof (div_sign (Vec.get axis d) L (len_sign_clear d)) as [Hu1 Hu2].
  destruct (mul_sign stiffness (L - rest)) as (Hf1 & _ & Hf3 & _).
  destruct (mul_sign (Vec.get axis d / L) f) as (Hc1 & Hc2 & Hc3 & Hc4).
  change (Vec.get axis d / L * f)%js with (Vec.get axis d / L * f).
  split; intros Hrest.
  - destruct (sub_sign L rest Hrest) as [Hsub _].
    specialize (Hf1 Hk' Hsub). fold f in Hf1. split; auto.
  - destruct (sub_sign rest L Hrest) as [_ Hsub].
    specialize (Hf3 Hk' Hsub). fold f in Hf3. split; auto.
Qed.

End FloatDirection.

(** * The claims *)

(** ** Clamp, integration order, particle count (any arithmetic) *)

Section Generic.
Context {F : Type} `{Number F}.
Implicit Types (positions velocities forces : list (Vec3 F)).
Implicit Types (springs : list (Spring F)) (spring : Spring F).

(** C4: a call with any [dt > 0.05] logs the advisory warning and leaves
    exactly the positions and velocities that the call with [dt = 0.05]
    leaves on the same state (and throws exactly when that call throws). *)
Theorem SimTimeStep_clamps_dt (dt : F) positions velocities springs
    (stiffness damping particleMass : F) (gravity : Vec3 F) (restitution : F) :
  (dt > lit_0_05)%js = true →
  SimTimeStep dt positions velocities springs stiffness damping particleMass
    gravity restitution
  = (["Time step too large, consider reducing it."%string],
     (SimTimeStep lit_0_05 positions velocities springs stiffness damping
        particleMass gravity restitution).2).
Proof.
  intros Hdt. unfold SimTimeStep, clamp_dt. rewrite Hdt.
  destruct (lit_0_05 > lit_0_05)%js; reflexivity.
Qed.

(** C2: for every particle [i], with [f] the spring force accumulated on
    it, the step adds [gravity * particleMass] to [f] and subtracts
    [velocities[i] * damping], divides the force by [particleMass], adds
    [acceleration * dt] to the velocity, and then adds the updated
    velocity times [dt] to the position; the collision pass starts from
    that state.  [dt] is the clamped step. *)
Theorem SimTimeStep_semi_implicit_euler (dt : F) positions velocities springs
    (stiffness damping particleMass : F) (gravity : Vec3 F) (restitution : F) :
  valid_springs (length positions) springs →
  length positions = length velocities →
  ∃ sforces positions1 velocities1,
    spring_forces stiffness positions springs = Some sforces ∧
    integrate (clamp_dt dt).2 positions velocities springs stiffness damping
      particleMass gravity = Some (positions1, velocities1) ∧
    SimTimeStep dt positions velocities springs stiffness damping
      particleMass gravity restitution
    = ((clamp_dt dt).1, collide restitution (positions1, velocities1)) ∧
    ∀ i f p v,
      sforces !! i = Some f → positions !! i = Some p →
      velocities !! i = Some v →
      let force :=
        Vec.dec (Vec.inc f (Vec.mul gravity particleMass)) (Vec.mul v damping) in
      let acceleration := Vec.div force particleMass in
      let v' := Vec.inc v (Vec.mul acceleration (clamp_dt dt).2) in
      let p' := Vec.inc p (Vec.mul v' (clamp_dt dt).2) in
      velocities1 !! i = Some v' ∧ positions1 !! i = Some p'.
Proof.
  intros Hvalid Hlen.
  destruct (integrate_spec (clamp_dt dt).2 positions velocities springs
    stiffness damping particleMass gravity Hvalid) as
    (sforces & ps1 & vs1 & Hsf & Hint & _ & _ & Hst & _); [lia|].
  exists sforces, ps1, vs1. split_and!; [done|done| |].
  - by rewrite SimTimeStep_unfold, Hint.
  - intros i f p v Hf Hp Hv. destruct (Hst i f p v Hf Hp Hv) as [Hp1 Hv1].
    split; [exact Hv1|exact Hp1].
Qed.

(** C7: on valid input (as many velocities as positions, valid spring
    indices) the call completes and leaves [N] positions and [N]
    velocities. *)
Theorem SimTimeStep_preserves_lengths (N : nat) (dt : F) positions velocities
    springs (stiffness damping particleMass : F) (gravity : Vec3 F)
    (restitution : F) :
  length positions = N → length velocities = N →
  valid_springs N springs →
  ∃ positions' velocities',
    (SimTimeStep dt positions velocities springs stiffness damping
       particleMass gravity restitution).2 = Some (positions', velocities') ∧
    length positions' = N ∧ length velocities' = N.
Proof.
  intros Hp Hv Hvalid. subst N.
  destruct (SimTimeStep_spec dt positions velocities springs stiffness damping
    particleMass gravity restitution Hvalid) as
    (sforces & ps' & vs' & _ & Hrun & Hpl & Hvl & _); [lia|].
  exists ps', vs'. rewrite Hrun. simpl. split_and!; [done|done|lia].
Qed.

End Generic.

Section GenericWitnesses.
Local Open Scope float_scope.

(** The spec's instance of C4: [dt = 1.0] against [dt = 0.05], on a
    falling particle. *)
Lemma SimTimeStep_clamps_dt_witness :
  (0.05 <? 1) = true ∧
  SimTimeStep 1 [mkVec3 0 0 0] [mkVec3 0 0 0] [] 1 0 1 (mkVec3 0 (-10) 0) 0.5
  = (["Time step too large, consider reducing it."%string],
     (SimTimeStep 0.05 [mkVec3 0 0 0] [mkVec3 0 0 0] [] 1 0 1
        (mkVec3 0 (-10) 0) 0.5).2).
Proof.
  split; [reflexivity|].
  exact (SimTimeStep_clamps_dt (F := float) 1 _ _ _ _ _ _ _ _ eq_refl).
Defined.

Lemma valid_one_spring : valid_springs 2 one_spring.
Proof. repeat constructor. Qed.

Lemma SimTimeStep_semi_implicit_euler_witness :
  (valid_springs (length two_positions) one_spring ∧
   length two_positions = length two_velocities) ∧
  ∃ sforces positions1 velocities1,
    spring_forces 2 two_positions one_spring = Some sforces ∧
    integrate (clamp_dt 0.01).2 two_positions two_velocities one_spring
      2 0.5 2 (mkVec3 0 (-10) 0) = Some (positions1, velocities1) ∧
    SimTimeStep 0.01 two_positions two_velocities one_spring
      2 0.5 2 (mkVec3 0 (-10) 0) 0.5
    = ((clamp_dt 0.01).1, collide 0.5 (positions1, velocities1)) ∧
    ∀ i f p v,
      sforces !! i = Some f → two_positions !! i = Some p →
      two_velocities !! i = Some v →
      let force :=
        Vec.dec (Vec.inc f (Vec.mul (mkVec3 0 (-10) 0) 2)) (Vec.mul v 0.5) in
      let acceleration := Vec.div force 2 in
      let v' := Vec.inc v (Vec.mul acceleration (clamp_dt 0.01).2) in
      let p' := Vec.inc p (Vec.mul v' (clamp_dt 0.01).2) in
      velocities1 !! i = Some v' ∧ positions1 !! i = Some p'.
Proof.
  split; [split; [exact valid_one_spring|reflexivity]|].
  exact (SimTimeStep_semi_implicit_euler (F := float) 0.01 two_positions
           two_velocities one_spring 2 0.5 2 (mkVec3 0 (-10) 0) 0.5
           valid_one_spring eq_refl).
Defined.

Lemma SimTimeStep_preserves_lengths_witness :
  (length two_positions = 2%nat ∧ length two_velocities = 2%nat ∧
   valid_springs 2 one_spring) ∧
  ∃ positions' velocities',
    (SimTimeStep 0.01 two_positions two_velocities one_spring
       2 0.5 2 (mkVec3 0 (-10) 0) 0.5).2 = Some (positions', velocities') ∧
    length positions' = 2%nat ∧ length velocities' = 2%nat.
Proof.
  split; [split_and!; [reflexivity|reflexivity|exact valid_one_spring]|].
  exact (SimTimeStep_preserves_lengths (F := float) 2 0.01 two_positions
           two_velocities one_spring 2 0.5 2 (mkVec3 0 (-10) 0) 0.5
           eq_refl eq_refl valid_one_spring).
Defined.

End GenericWitnesses.

(** ** Collisions (binary64) *)

Section Collision.
Local Open Scope float_scope.
Implicit Types (positions velocities : list (Vec3 float)).
Implicit Types (springs : list (Spring float)).

(** Lines 267-277 on one number pair, case by case. *)
Lemma collide_component_cases (restitution c w : float) :
  let cw := collide_component restitution c w in
  ((c <? -1) = true →
     cw.1 = -1 ∧ ((w <? 0) = true → cw.2 = w * - restitution) ∧
     ((w <? 0) = false → cw.2 = w)) ∧
  ((1 <? c) = true →
     cw.1 = 1 ∧ ((0 <? w) = true → cw.2 = w * - restitution) ∧
     ((0 <? w) = false → cw.2 = w)) ∧
  ((c <? -1) = false → (1 <? c) = false → cw = (c, w)).
Proof.
  unfold collide_component, minBound, maxBound. simpl.
  change (- (1))%float with (-1)%float.
  split_and!.
  - intros ->. simpl. split_and!; [done|by intros ->|by intros ->].
  - intros Hc. rewrite (above_1_not_below c Hc), Hc. simpl.
    split_and!; [done|by intros ->|by intros ->].
  - by intros -> ->.
Qed.

(** C3: after the integration phase, on every particle and on each axis
    by itself: a position component below [-1] becomes [-1], and the
    velocity component, if negative, is multiplied by [-restitution]; a
    position component above [1] becomes [1], and the velocity component,
    if positive, is multiplied by [-restitution]; a velocity component that
    does not point outward, and every component of an axis within the
    bounds, stays as it is. *)
Theorem SimTimeStep_collision_response (dt : float) positions velocities
    springs (stiffness damping particleMass : float) (gravity : Vec3 float)
    (restitution : float) positions1 velocities1 :
  integrate (clamp_dt dt).2 positions velocities springs stiffness damping
    particleMass gravity = Some (positions1, velocities1) →
  ∃ positions' velocities',
    SimTimeStep dt positions velocities springs stiffness damping
      particleMass gravity restitution
    = ((clamp_dt dt).1, Some (positions', velocities')) ∧
    ∀ i p v, positions1 !! i = Some p → velocities1 !! i = Some v →
      ∃ p' v', positions' !! i = Some p' ∧ velocities' !! i = Some v' ∧
        ∀ axis,
          let c := Vec.get axis p in
          let w := Vec.get axis v in
          let c' := Vec.get axis p' in
          let w' := Vec.get axis v' in
          ((c <? -1) = true →
             c' = -1 ∧ ((w <? 0) = true → w' = w * - restitution) ∧
             ((w <? 0) = false → w' = w)) ∧
          ((1 <? c) = true →
             c' = 1 ∧ ((0 <? w) = true → w' = w * - restitution) ∧
             ((0 <? w) = false → w' = w)) ∧
          ((c <? -1) = false → (1 <? c) = false → c' = c ∧ w' = w).
Proof.
  intros Hint.
  destruct (integrate_Some_inv _ _ _ _ _ _ _ _ _ Hint) as [Hvalid Hlen].
  destruct (integrate_spec (clamp_dt dt).2 positions velocities springs
    stiffness damping particleMass gravity Hvalid Hlen) as
    (sforces & ps1 & vs1 & _ & Hint' & Hpl & Hvl & _).
  rewrite Hint in Hint'. injection Hint' as <- <-.
  destruct (collide_spec restitution positions1 velocities1)
    as (ps' & vs' & Hcol & _ & _ & Hst & _); [lia|].
  exists ps', vs'. split.
  - rewrite SimTimeStep_unfold, Hint. simpl. by rewrite Hcol.
  - intros i p v Hp Hv. destruct (Hst i p v Hp Hv) as [Hp' Hv'].
    eexists _, _. split; [exact Hp'|]. split; [exact Hv'|].
    intros axis. cbv zeta.
    pose proof (collide_particle_get restitution p v axis) as Hget.
    pose proof (collide_component_cases restitution (Vec.get axis p)
                  (Vec.get axis v)) as Hcases.
    cbv zeta in Hget, Hcases. rewrite <- Hget in Hcases. simpl in Hcases.
    destruct Hcases as (Hlow & Hhigh & Hin). split_and!; [done|done|].
    intros H1 H2. specialize (Hin H1 H2). by injection Hin as -> ->.
Qed.

(** C9: on valid input the call completes and leaves one position and
    one velocity per particle; the collision pass puts each coordinate
    that the integration left below [-1] at [-1] and each one it left
    above [1] at [1], and keeps the others; so a coordinate that the
    integration left a number (not NaN) ends in [[-1, 1]], whatever the
    positions before the step, and every coordinate of every position the
    call leaves that is not NaN lies in [[-1, 1]]. *)
Theorem SimTimeStep_box_containment (dt : float) positions velocities
    springs (stiffness damping particleMass : float) (gravity : Vec3 float)
    (restitution : float) :
  valid_springs (length positions) springs →
  length positions = length velocities →
  ∃ positions1 velocities1 positions' velocities',
    integrate (clamp_dt dt).2 positions velocities springs stiffness damping
      particleMass gravity = Some (positions1, velocities1) ∧
    SimTimeStep dt positions velocities springs stiffness damping
      particleMass gravity restitution
    = ((clamp_dt dt).1, Some (positions', velocities')) ∧
    length positions' = length positions ∧
    length velocities' = length velocities ∧
    (∀ i, i < length positions →
       ∃ p1 p', positions1 !! i = Some p1 ∧ positions' !! i = Some p' ∧
         ∀ axis,
           let c := Vec.get axis p1 in
           let c' := Vec.get axis p' in
           ((c <? -1) = true → c' = -1) ∧
           ((1 <? c) = true → c' = 1) ∧
           ((c <? -1) = false → (1 <? c) = false → c' = c) ∧
           (is_nan c = false → (-1 <=? c') = true ∧ (c' <=? 1) = true)) ∧
    ∀ i p axis, positions' !! i = Some p →
      is_nan (Vec.get axis p) = false →
      (-1 <=? Vec.get axis p) = true ∧ (Vec.get axis p <=? 1) = true.
Proof.
  intros Hvalid Hlen.
  destruct (integrate_spec (clamp_dt dt).2 positions velocities springs
    stiffness damping particleMass gravity Hvalid) as
    (sforces & ps1 & vs1 & _ & Hint & Hpl & Hvl & _); [lia|].
  destruct (collide_spec restitution ps1 vs1)
    as (ps' & vs' & Hcol & Hpl' & Hvl' & Hst & _); [lia|].
  assert (∀ i p1 v1 axis, ps1 !! i = Some p1 → vs1 !! i = Some v1 →
    ∃ p', ps' !! i = Some p' ∧
      Vec.get axis p'
      = (collide_component restitution (Vec.get axis p1)
           (Vec.get axis v1)).1) as Hcomp.
  { intros i p1 v1 axis Hp1 Hv1. destruct (Hst i p1 v1 Hp1 Hv1) as [Hp' _].
    eexists. split; [exact Hp'|].
    pose proof (collide_particle_get restitution p1 v1 axis) as Hget.
    cbv zeta in Hget. by rewrite <- Hget. }
  exists ps1, vs1, ps', vs'. split_and!; [done| |lia|lia| |].
  - rewrite SimTimeStep_unfold, Hint. simpl. by rewrite Hcol.
  - intros i Hi.
    destruct (lookup_lt_is_Some_2 ps1 i) as [p1 Hp1]; [lia|].
    destruct (lookup_lt_is_Some_2 vs1 i) as [v1 Hv1]; [lia|].
    destruct (Hst i p1 v1 Hp1 Hv1) as [Hp' _]. cbv zeta in Hp'.
    eexists p1, _. split; [done|]. split; [exact Hp'|].
    intros axis. cbv zeta.
    destruct (Hcomp i p1 v1 axis Hp1 Hv1) as (p' & Hp'' & Hget).
    rewrite Hp' in Hp''. injection Hp'' as Hp''. rewrite Hp''.
    rewrite Hget.
    pose proof (collide_component_cases restitution (Vec.get axis p1)
                  (Vec.get axis v1)) as (Hlow & Hhigh & Hin).
    split_and!.
    + intros Hc. by destruct (Hlow Hc) as [-> _].
    + intros Hc. by destruct (Hhigh Hc) as [-> _].
    + intros H1 H2. by rewrite (Hin H1 H2).
    + intros Hnan.
      destruct (Vec.get axis p1 <? -1) eqn:H1.
      { destruct (Hlow eq_refl) as [-> _]. done. }
      destruct (1 <? Vec.get axis p1) eqn:H2.
      { destruct (Hhigh eq_refl) as [-> _]. done. }
      rewrite (Hin eq_refl eq_refl). simpl.
      split; by apply ltb_false_leb.
  - intros i p' axis Hp' Hnan.
    assert (i < length ps1) as Hi
      by (rewrite <- Hpl'; by eapply lookup_lt_Some).
    destruct (lookup_lt_is_Some_2 ps1 i) as [p1 Hp1]; [lia|].
    destruct (lookup_lt_is_Some_2 vs1 i) as [v1 Hv1]; [lia|].
    destruct (Hcomp i p1 v1 axis Hp1 Hv1) as (p'' & Hp'' & Hget).
    rewrite Hp' in Hp''. injection Hp'' as <-.
    rewrite Hget in Hnan |- *.
    pose proof (collide_component_cases restitution (Vec.get axis p1)
                  (Vec.get axis v1)) as (Hlow & Hhigh & Hin).
    destruct (Vec.get axis p1 <? -1) eqn:H1.
    { destruct (Hlow eq_refl) as [-> _]. done. }
    destruct (1 <? Vec.get axis p1) eqn:H2.
    { destruct (Hhigh eq_refl) as [-> _]. done. }
    rewrite (Hin eq_refl eq_refl) in Hnan |- *. simpl in *.
    split; by apply ltb_false_leb.
Qed.

End Collision.

Section CollisionWitnesses.
Local Open Scope float_scope.

(** A particle that the integration leaves below the floor, moving down. *)
Lemma SimTimeStep_collision_response_witness :
  integrate (clamp_dt 0).2 [mkVec3 0.5 (-2) 0] [mkVec3 0 (-1) 0] [] 1 0 1
    (mkVec3 0 0 0)
  = Some ([mkVec3 0.5 (-2) 0], [mkVec3 0 (-1) 0]) ∧
  ∃ positions' velocities',
    SimTimeStep 0 [mkVec3 0.5 (-2) 0] [mkVec3 0 (-1) 0] [] 1 0 1
      (mkVec3 0 0 0) 0.5
    = ((clamp_dt 0).1, Some (positions', velocities')) ∧
    ∀ i p v, [mkVec3 0.5 (-2) 0] !! i = Some p →
      [mkVec3 0 (-1) 0] !! i = Some v →
      ∃ p' v', positions' !! i = Some p' ∧ velocities' !! i = Some v' ∧
        ∀ axis,
          let c := Vec.get axis p in
          let w := Vec.get axis v in
          let c' := Vec.get axis p' in
          let w' := Vec.get axis v' in
          ((c <? -1) = true →
             c' = -1 ∧ ((w <? 0) = true → w' = w * - 0.5) ∧
             ((w <? 0) = false → w' = w)) ∧
          ((1 <? c) = true →
             c' = 1 ∧ ((0 <? w) = true → w' = w * - 0.5) ∧
             ((0 <? w) = false → w' = w)) ∧
          ((c <? -1) = false → (1 <? c) = false → c' = c ∧ w' = w).
Proof.
  split; [reflexivity|].
  exact (SimTimeStep_collision_response 0 [mkVec3 0.5 (-2) 0]
           [mkVec3 0 (-1) 0] [] 1 0 1 (mkVec3 0 0 0) 0.5
           [mkVec3 0.5 (-2) 0] [mkVec3 0 (-1) 0] eq_refl).
Defined.

Lemma valid_outside : valid_springs (length outside_positions) one_spring.
Proof. repeat constructor. Qed.

(** A particle that starts at [(2, -3, 0)], outside the box on two
    axes. *)
Lemma SimTimeStep_box_containment_witness :
  (valid_springs (length outside_positions) one_spring ∧
   length outside_positions = length outside_velocities) ∧
  ∃ positions1 velocities1 positions' velocities',
    integrate (clamp_dt 0.01).2 outside_positions outside_velocities
      one_spring 2 0.5 2 (mkVec3 0 (-10) 0)
      = Some (positions1, velocities1) ∧
    SimTimeStep 0.01 outside_positions outside_velocities one_spring
      2 0.5 2 (mkVec3 0 (-10) 0) 0.5
    = ((clamp_dt 0.01).1, Some (positions', velocities')) ∧
    length positions' = length outside_positions ∧
    length velocities' = length outside_velocities ∧
    (∀ i, i < length outside_positions →
       ∃ p1 p', positions1 !! i = Some p1 ∧ positions' !! i = Some p' ∧
         ∀ axis,
           let c := Vec.get axis p1 in
           let c' := Vec.get axis p' in
           ((c <? -1) = true → c' = -1) ∧
           ((1 <? c) = true → c' = 1) ∧
           ((c <? -1) = false → (1 <? c) = false → c' = c) ∧
           (is_nan c = false → (-1 <=? c') = true ∧ (c' <=? 1) = true)) ∧
    ∀ i p axis, positions' !! i = Some p →
      is_nan (Vec.get axis p) = false →
      (-1 <=? Vec.get axis p) = true ∧ (Vec.get axis p <=? 1) = true.
Proof.
  split; [split; [exact valid_outside|reflexivity]|].
  exact (SimTimeStep_box_containment 0.01 outside_positions
           outside_velocities one_spring 2 0.5 2 (mkVec3 0 (-10) 0) 0.5
           valid_outside eq_refl).
Defined.

End CollisionWitnesses.

(** ** Hooke's law and Newton's third law (exact arithmetic) *)

Section Exact.
Local Open Scope R_scope.
Implicit Types (positions velocities forces : list (Vec3 R)).
Implicit Types (springs : list (Spring R)) (spring : Spring R).

Lemma vec3_eq (a b : Vec3 R) :
  x a = x b → y a = y b → z a = z b → a = b.
Proof. destruct a, b; simpl; congruence. Qed.

Lemma vsum_insert forces (i : nat) (a b : Vec3 R) :
  forces !! i = Some a →
  vsum (<[i := b]> forces) = Vec.inc (vsum forces) (Vec.sub b a).
Proof.
  revert i. induction forces as [|f forces IH]; intros [|i] Hi;
    try discriminate; simpl in *.
  - injection Hi as ->. apply vec3_eq; simpl; lra.
  - rewrite (IH i Hi). apply vec3_eq; simpl; lra.
Qed.

Lemma vsum_init_forces positions :
  vsum (init_forces positions) = mkVec3 0 0 0.
Proof.
  unfold vsum, init_forces.
  induction positions as [|p positions IH]; [done|].
  rewrite fmap_cons. cbn [foldr]. rewrite IH. apply vec3_eq; simpl; lra.
Qed.

(** One spring leaves the total of the accumulators as it was. *)
Lemma spring_step_vsum (stiffness : R) positions forces spring forces' :
  spring_step stiffness positions forces spring = Some forces' →
  vsum forces' = vsum forces.
Proof.
  intros (pos0 & pos1 & forces1 & _ & _ & H1 & H2)%spring_step_Some.
  apply update_Some in H1 as (a1 & Ha1 & ->).
  apply update_Some in H2 as (a2 & Ha2 & ->).
  rewrite (vsum_insert _ _ _ _ Ha2), (vsum_insert _ _ _ _ Ha1).
  apply vec3_eq; simpl; lra.
Qed.

Lemma spring_forces_vsum (stiffness : R) positions springs sforces :
  spring_forces stiffness positions springs = Some sforces →
  vsum sforces = mkVec3 0 0 0.
Proof.
  intros Hrun.
  apply (forEach_Some_inv (λ forces, vsum forces = mkVec3 0 0 0)
           _ _ _ _ Hrun).
  - apply vsum_init_forces.
  - intros spring t t' _ Ht Hstep.
    by rewrite (spring_step_vsum _ _ _ _ _ Hstep).
Qed.

End Exact.

Section ExactClaims.
Local Open Scope R_scope.
Implicit Types (positions velocities forces : list (Vec3 R)).
Implicit Types (springs : list (Spring R)) (spring : Spring R).

(** C1, amended: the spring loop starts from one zero vector per particle
    and takes the springs in order; a spring [(p0, p1, rest)], with
    displacement [d = positions[p1] - positions[p0]], length [L = |d|],
    direction [u = d / L] and force magnitude [f = stiffness * (L - rest)],
    adds [u * f] to the accumulator of [p0], then subtracts it from that
    of [p1], and leaves the other accumulators; the accumulators after
    the last spring are the spring forces the rest of the step works
    from (in any arithmetic).  On binary64 numbers, for a positive
    stiffness, no component of the vector added to [p0] has the sign
    opposite to that component of [d] when the spring is stretched (it
    does not push), and none has the same sign when it is compressed (it
    does not pull).  In exact arithmetic, for a positive stiffness and
    length, the vector added to [p0] is a positive multiple of [d] when
    the spring is stretched ([p0] is pulled towards [p1], and [p1]
    towards [p0]) and a negative multiple when it is compressed. *)
Theorem SimTimeStep_hooke :
  (∀ (F : Type) (N : Number F) (dt : F) (positions velocities : list (Vec3 F))
     (springs : list (Spring F)) (stiffness damping particleMass : F)
     (gravity : Vec3 F) (restitution : F),
     valid_springs (length positions) springs →
     length positions ≤ length velocities →
     ∃ (accumulators : list (list (Vec3 F)))
       (sforces positions' velocities' : list (Vec3 F)),
       length accumulators = S (length springs) ∧
       accumulators !! 0%nat
       = Some (replicate (length positions) (mkVec3 lit_0 lit_0 lit_0)) ∧
       (∀ (k : nat) (spring : Spring F), springs !! k = Some spring →
          ∃ (pos0 pos1 : Vec3 F) (forces forces' : list (Vec3 F)),
            positions !! p0 spring = Some pos0 ∧
            positions !! p1 spring = Some pos1 ∧
            accumulators !! k = Some forces ∧
            accumulators !! S k = Some forces' ∧
            length forces = length positions ∧
            length forces' = length positions ∧
            let d := Vec.sub pos1 pos0 in
            let L := Vec.len d in
            let u := Vec.div d L in
            let f := (stiffness * (L - rest spring))%js in
            ∀ (j : nat) (a : Vec3 F), forces !! j = Some a →
              forces' !! j
              = Some (let a := if decide (j = p0 spring)
                               then Vec.inc a (Vec.mul u f) else a in
                      if decide (j = p1 spring)
                      then Vec.dec a (Vec.mul u f) else a)) ∧
       accumulators !! length springs = Some sforces ∧
       spring_forces stiffness positions springs = Some sforces ∧
       SimTimeStep dt positions velocities springs stiffness damping
         particleMass gravity restitution
       = ((clamp_dt dt).1, Some (positions', velocities')) ∧
       ∀ (i : nat) (f p v : Vec3 F),
         sforces !! i = Some f → positions !! i = Some p →
         velocities !! i = Some v →
         let pv := collide_particle restitution
                     (euler particleMass (clamp_dt dt).2
                        (net_force damping particleMass gravity f v) p v) in
         positions' !! i = Some pv.1 ∧ velocities' !! i = Some pv.2) ∧
  (∀ (stiffness rest : float) (pos0 pos1 : Vec3 float) (axis : Axis),
     let d := Vec.sub pos1 pos0 in
     let L := Vec.len d in
     let u := Vec.div d L in
     let f := (stiffness * (L - rest))%float in
     let c := Vec.get axis (Vec.mul u f) in
     (0 <? stiffness)%float = true →
     ((rest <? L)%float = true →
        ((Vec.get axis d <? 0)%float = false → (c <? 0)%float = false) ∧
        ((0 <? Vec.get axis d)%float = false → (0 <? c)%float = false)) ∧
     ((L <? rest)%float = true →
        ((Vec.get axis d <? 0)%float = false → (0 <? c)%float = false) ∧
        ((0 <? Vec.get axis d)%float = false → (c <? 0)%float = false))) ∧
  (∀ (stiffness rest : R) (pos0 pos1 : Vec3 R),
     let d := Vec.sub pos1 pos0 in
     let L := Vec.len d in
     let u := Vec.div d L in
     let f := stiffness * (L - rest) in
     0 < stiffness → 0 < L →
     (rest < L → ∃ c, 0 < c ∧ Vec.mul u f = Vec.mul d c) ∧
     (L < rest → ∃ c, c < 0 ∧ Vec.mul u f = Vec.mul d c)).
Proof.
  split_and!.
  - intros F N dt positions velocities springs stiffness damping particleMass
      gravity restitution Hvalid Hlen.
    destruct (spring_forces_trace stiffness positions springs Hvalid)
      as (accumulators & sforces & Hal & Hzero & Hsprings & Hlast & Hsf).
    destruct (SimTimeStep_spec dt positions velocities springs stiffness
      damping particleMass gravity restitution Hvalid Hlen)
      as (sforces' & ps' & vs' & Hsf' & Hrun & _ & _ & Hst & _).
    rewrite Hsf in Hsf'. injection Hsf' as <-.
    exists accumulators, sforces, ps', vs'.
    split_and!; [done|done| |done|done|done|done].
    intros k spring Hk.
    destruct (Hsprings k spring Hk) as (pos0 & pos1 & forces & forces'
      & Hp0 & Hp1 & Hk0 & Hk1 & _ & _ & Hl & Hl' & Hall).
    exists pos0, pos1, forces, forces'.
    split_and!; [done|done|done|done|done|done|].
    exact Hall.
  - exact spring_force_direction.
  - intros stiffness rest pos0 pos1 d L u f Hk HL.
    assert (Vec.mul u f = Vec.mul d (f / L)) as Hmul.
    { apply vec3_eq; simpl; fold d; fold L; field; lra. }
    split; intros Hrest; exists (f / L); (split; [|exact Hmul]).
    + apply Rdiv_lt_0_compat; [|done]. unfold f. nra.
    + apply Rmult_neg_pos; [|by apply Rinv_0_lt_compat]. unfold f. nra.
Qed.

Lemma collide_particle_inside (restitution : R) (p v : Vec3 R) :
  (∀ axis, -1 <= Vec.get axis p <= 1) →
  collide_particle restitution (p, v) = (p, v).
Proof.
  intros Hbox.
  pose proof (Hbox Ax) as Hx. pose proof (Hbox Ay) as Hy.
  pose proof (Hbox Az) as Hz. destruct p as [px py pz]. simpl in *.
  unfold collide_particle, collide_axis, minBound, maxBound. simpl.
  repeat (destruct (Rlt_dec _ _); try lra; simpl). done.
Qed.

Lemma pointwise_zip_with {A B C : Type} (h : A → B → C) (l : list A)
    (k : list B) (r : list C) :
  length l = length k → length r = length k →
  (∀ i a b, l !! i = Some a → k !! i = Some b → r !! i = Some (h a b)) →
  r = zip_with h l k.
Proof.
  intros Hl Hr Hpt. apply list_eq. intros i. rewrite lookup_zip_with.
  destruct (l !! i) as [a|] eqn:Ha; simpl.
  - destruct (lookup_lt_is_Some_2 k i) as [b Hb];
      [rewrite <- Hl; by eapply lookup_lt_Some|].
    rewrite Hb. simpl. by apply Hpt.
  - apply lookup_ge_None. apply lookup_ge_None in Ha. lia.
Qed.

(** The velocity changes of an integration without damping add up to the
    total force over the mass, plus gravity, times [dt], once per
    particle. *)
Lemma vsum_velocity_changes (particleMass dt : R) (gravity : Vec3 R)
    forces velocities :
  particleMass ≠ 0 → length forces = length velocities →
  vsum (zip_with Vec.sub
          (zip_with (λ f v,
             Vec.inc v (Vec.mul (Vec.div (net_force 0 particleMass gravity f v)
                                   particleMass) dt)) forces velocities)
          velocities)
  = Vec.inc (Vec.mul (Vec.div (vsum forces) particleMass) dt)
      (Vec.mul (Vec.mul gravity dt) (INR (length forces))).
Proof.
  intros Hm. revert velocities.
  induction forces as [|f forces IH]; intros [|v velocities] Hlen;
    try discriminate.
  - apply vec3_eq; simpl; field; done.
  - injection Hlen as Hlen. cbn [zip_with]. rewrite !vsum_cons.
    rewrite (IH velocities Hlen). rewrite length_cons, S_INR.
    apply vec3_eq; simpl; field; done.
Qed.

(** C10, amended: in the spring loop, each spring between two different
    particles adds to the accumulator of [p0] the vector it subtracts
    from that of [p1] (in any arithmetic).  In exact arithmetic, on valid
    input, the accumulated spring forces add up to the zero vector; and
    in a step without damping, with a mass that is not zero, in which the
    integration leaves no position component outside [[-1, 1]], the
    collision pass changes nothing and the velocity changes add up to
    [N * (gravity * dt)], [dt] being the clamped step. *)
Theorem spring_forces_cancel :
  (∀ (F : Type) (N : Number F) (stiffness : F)
     (positions : list (Vec3 F)) (springs : list (Spring F))
     (k : nat) (spring : Spring F),
     valid_springs (length positions) springs →
     springs !! k = Some spring →
     p0 spring ≠ p1 spring →
     ∃ (pos0 pos1 a0 a1 : Vec3 F) (forces forces' : list (Vec3 F)),
       positions !! p0 spring = Some pos0 ∧
       positions !! p1 spring = Some pos1 ∧
       spring_forces stiffness positions (take k springs) = Some forces ∧
       spring_forces stiffness positions (take (S k) springs)
       = Some forces' ∧
       forces !! p0 spring = Some a0 ∧ forces !! p1 spring = Some a1 ∧
       let sforce := spring_force stiffness pos0 pos1 (rest spring) in
       forces' !! p0 spring = Some (Vec.inc a0 sforce) ∧
       forces' !! p1 spring = Some (Vec.dec a1 sforce)) ∧
  (∀ (stiffness : R) positions springs,
     valid_springs (length positions) springs →
     ∃ sforces,
       spring_forces stiffness positions springs = Some sforces ∧
       length sforces = length positions ∧
       vsum sforces = mkVec3 0 0 0) ∧
  (∀ (dt stiffness particleMass restitution : R) (gravity : Vec3 R)
     positions velocities springs positions1 velocities1,
     valid_springs (length positions) springs →
     length positions = length velocities →
     particleMass ≠ 0 →
     integrate (clamp_dt dt).2 positions velocities springs stiffness 0
       particleMass gravity = Some (positions1, velocities1) →
     (∀ i p axis, positions1 !! i = Some p → -1 <= Vec.get axis p <= 1) →
     SimTimeStep dt positions velocities springs stiffness 0 particleMass
       gravity restitution
     = ((clamp_dt dt).1, Some (positions1, velocities1)) ∧
     length velocities1 = length velocities ∧
     vsum (zip_with Vec.sub velocities1 velocities)
     = Vec.mul (Vec.mul gravity (clamp_dt dt).2) (INR (length positions))).
Proof.
  split_and!.
  { intros F N stiffness positions springs k spring Hvalid Hk Hne.
    exact (spring_forces_step stiffness positions springs k spring Hvalid Hk
             Hne). }
  { intros stiffness positions springs Hvalid.
    destruct (spring_forces_is_Some stiffness positions springs Hvalid)
      as (sforces & Hsf & Hsl).
    exists sforces. split_and!; [done|done|].
    by eapply spring_forces_vsum. }
  intros dt stiffness particleMass restitution gravity positions velocities
    springs positions1 velocities1 Hvalid Hlen Hm Hint1 Hbox.
  destruct (integrate_spec (clamp_dt dt).2 positions velocities springs
    stiffness 0 particleMass gravity Hvalid) as
    (sforces & ps1 & vs1 & Hsf & Hint & Hpl & Hvl & Hst & _); [lia|].
  rewrite Hint1 in Hint. injection Hint as <- <-.
  destruct (collide_spec restitution positions1 velocities1)
    as (ps' & vs' & Hcol & Hpl' & Hvl' & Hst' & Hrest'); [lia|].
  assert (∀ i p v, positions1 !! i = Some p → velocities1 !! i = Some v →
            ps' !! i = Some p ∧ vs' !! i = Some v) as Hsame.
  { intros i p v Hp Hv. destruct (Hst' i p v Hp Hv) as [Hp' Hv'].
    cbv zeta in Hp', Hv'.
    assert (∀ axis, -1 <= Vec.get axis p <= 1) as Hin
      by (intros axis; by eapply Hbox).
    by rewrite (collide_particle_inside restitution p v Hin) in Hp', Hv'. }
  assert (ps' = positions1) as ->.
  { apply list_eq. intros i.
    destruct (positions1 !! i) as [p|] eqn:Hp.
    - destruct (lookup_lt_is_Some_2 velocities1 i) as [v Hv];
        [apply lookup_lt_Some in Hp; lia|].
      by destruct (Hsame i p v Hp Hv).
    - apply lookup_ge_None. apply lookup_ge_None in Hp. lia. }
  assert (vs' = velocities1) as ->.
  { apply list_eq. intros i.
    destruct (velocities1 !! i) as [v|] eqn:Hv.
    - destruct (lookup_lt_is_Some_2 positions1 i) as [p Hp];
        [apply lookup_lt_Some in Hv; lia|].
      by destruct (Hsame i p v Hp Hv).
    - apply lookup_ge_None. apply lookup_ge_None in Hv. lia. }
  split_and!; [|done|].
  { rewrite SimTimeStep_unfold, Hint1. simpl. by rewrite Hcol. }
  pose proof (spring_forces_Some_inv _ _ _ _ Hsf) as [_ Hsl].
  assert (velocities1 = zip_with (λ f v,
            Vec.inc v (Vec.mul (Vec.div (net_force 0 particleMass gravity f v)
                                  particleMass) (clamp_dt dt).2))
            sforces velocities) as ->.
  { apply pointwise_zip_with; [lia|lia|].
    intros i f v Hf Hv.
    destruct (lookup_lt_is_Some_2 positions i) as [p Hp];
      [rewrite Hlen; by eapply lookup_lt_Some|].
    by destruct (Hst i f p v Hf Hp Hv) as [_ Hv1]. }
  rewrite vsum_velocity_changes by (done || lia).
  rewrite (spring_forces_vsum _ _ _ _ Hsf), Hsl.
  apply vec3_eq; simpl; field; done.
Qed.

End ExactClaims.

Lemma valid_unit_spring : valid_springs 2 [unit_spring].
Proof. repeat constructor. Qed.

Lemma stretched_length :
  Vec.len (Vec.sub (mkVec3 2 0 0) (mkVec3 0 0 0))%R = 2%R.
Proof.
  unfold Vec.len. simpl.
  replace ((2 - 0) * (2 - 0) + (0 - 0) * (0 - 0) + (0 - 0) * (0 - 0))%R
    with (2 * 2)%R by ring.
  apply sqrt_square. lra.
Qed.

Lemma valid_stretched_spring :
  valid_springs (length two_positions) [stretched_spring].
Proof. repeat constructor. Qed.

(** A stretched spring: of rest length [0.25] and length [0.5] in a step
    on binary64 numbers, where the [x] component of its force on the
    first particle is [0.5]; of rest length [1] and length [2] on real
    numbers. *)
Lemma SimTimeStep_hooke_witness :
  ((valid_springs (length two_positions) [stretched_spring] ∧
    length two_positions ≤ length two_velocities) ∧
   ∃ (accumulators : list (list (Vec3 float)))
     (sforces positions' velocities' : list (Vec3 float)),
     length accumulators = S (length [stretched_spring]) ∧
     accumulators !! 0%nat
     = Some (replicate (length two_positions) (mkVec3 0 0 0)%float) ∧
     (∀ (k : nat) (spring : Spring float),
        [stretched_spring] !! k = Some spring →
        ∃ (pos0 pos1 : Vec3 float) (forces forces' : list (Vec3 float)),
          two_positions !! p0 spring = Some pos0 ∧
          two_positions !! p1 spring = Some pos1 ∧
          accumulators !! k = Some forces ∧
          accumulators !! S k = Some forces' ∧
          length forces = length two_positions ∧
          length forces' = length two_positions ∧
          let d := Vec.sub pos1 pos0 in
          let L := Vec.len d in
          let u := Vec.div d L in
          let f := (2 * (L - rest spring))%float in
          ∀ (j : nat) (a : Vec3 float), forces !! j = Some a →
            forces' !! j
            = Some (let a := if decide (j = p0 spring)
                             then Vec.inc a (Vec.mul u f) else a in
                    if decide (j = p1 spring)
                    then Vec.dec a (Vec.mul u f) else a)) ∧
     accumulators !! length [stretched_spring] = Some sforces ∧
     spring_forces 2%float two_positions [stretched_spring] = Some sforces ∧
     SimTimeStep 0.01%float two_positions two_velocities [stretched_spring]
       2%float 0.5%float 2%float (mkVec3 0 (-10) 0)%float 0.5%float
     = ((clamp_dt 0.01%float).1, Some (positions', velocities')) ∧
     ∀ (i : nat) (f p v : Vec3 float),
       sforces !! i = Some f → two_positions !! i = Some p →
       two_velocities !! i = Some v →
       let pv := collide_particle 0.5%float
                   (euler 2%float (clamp_dt 0.01%float).2
                      (net_force 0.5%float 2%float (mkVec3 0 (-10) 0)%float
                         f v) p v) in
       positions' !! i = Some pv.1 ∧ velocities' !! i = Some pv.2) ∧
  (let d := Vec.sub (mkVec3 0.5 0 0)%float (mkVec3 0 0 0)%float in
   let L := Vec.len d in
   let u := Vec.div d L in
   let f := (2 * (L - 0.25))%float in
   let c := Vec.get Ax (Vec.mul u f) in
   ((0 <? 2)%float = true ∧ (0.25 <? L)%float = true ∧
    (Vec.get Ax d <? 0)%float = false) ∧
   (c <? 0)%float = false ∧ c = 0.5%float) ∧
  ((0 < 1)%R ∧ (0 < Vec.len (Vec.sub (mkVec3 2 0 0) (mkVec3 0 0 0)))%R ∧
   (1 < Vec.len (Vec.sub (mkVec3 2 0 0) (mkVec3 0 0 0)))%R) ∧
  let d := Vec.sub (mkVec3 2 0 0)%R (mkVec3 0 0 0)%R in
  let L := Vec.len d in
  let u := Vec.div d L in
  let f := (1 * (L - 1))%R in
  ∃ c, (0 < c)%R ∧ Vec.mul u f = Vec.mul d c.
Proof.
  refine (conj (conj _ _) (conj _ (conj _ _))).
  - split; [exact valid_stretched_spring|simpl; lia].
  - exact (proj1 SimTimeStep_hooke float float_number 0.01%float
             two_positions two_velocities [stretched_spring] 2%float
             0.5%float 2%float (mkVec3 0 (-10) 0)%float 0.5%float
             valid_stretched_spring ltac:(simpl; lia)).
  - cbv zeta. split; [split_and!; reflexivity|]. split; [|reflexivity].
    exact (proj1 (proj1 (proj1 (proj2 SimTimeStep_hooke) 2%float 0.25%float
                           (mkVec3 0 0 0)%float (mkVec3 0.5 0 0)%float Ax
                           eq_refl) eq_refl) eq_refl).
  - rewrite stretched_length. split_and!; lra.
  - refine (proj1 (proj2 (proj2 SimTimeStep_hooke) 1%R 1%R (mkVec3 0 0 0)%R
                     (mkVec3 2 0 0)%R _ _) _);
      try rewrite stretched_length; lra.
Defined.

(** C1 as stated fails on binary64 numbers, by underflow: a stretched
    spring of length [0.5] and rest length [0.25] with the positive
    stiffness [5e-324] has a force of magnitude zero, and two particles at
    rest that it joins stay where they are. *)
Lemma SimTimeStep_hooke_counterexample :
  let stiffness := 5e-324%float in
  let zero := (mkVec3 0 0 0)%float in
  let d := Vec.sub (mkVec3 0.5 0 0)%float zero in
  (0 <? stiffness)%float = true ∧
  (rest stretched_spring <? Vec.len d)%float = true ∧
  (stiffness * (Vec.len d - rest stretched_spring))%float = 0%float ∧
  spring_forces stiffness two_positions [stretched_spring]
  = Some [zero; zero] ∧
  SimTimeStep 0.01%float two_positions [zero; zero] [stretched_spring]
    stiffness 0%float 1%float zero 0.5%float
  = ([], Some (two_positions, [zero; zero])).
Proof. cbv zeta. split_and!; vm_compute; reflexivity. Qed.

Section ThirdLawWitness.
Local Open Scope R_scope.

Lemma clamp_dt_small (dt : R) : dt <= 5 / 100 → clamp_dt dt = ([], dt).
Proof.
  intros Hdt. unfold clamp_dt. simpl. destruct (Rlt_dec _ _); [lra|done].
Qed.

Lemma valid_half_spring :
  valid_springs (length inside_positions) [half_spring].
Proof. repeat constructor. Qed.

Lemma inside_integrate :
  integrate (clamp_dt (1 / 100)).2 inside_positions inside_velocities
    [half_spring] 1 0 1 (mkVec3 0 (-10) 0)
  = Some (inside_positions1, inside_velocities1).
Proof.
  rewrite clamp_dt_small by lra. cbn.
  assert (sqrt ((1 - 0) * (1 - 0) + (0 - 0) * (0 - 0) + (0 - 0) * (0 - 0))
          = 1) as Hlen.
  { replace ((1 - 0) * (1 - 0) + (0 - 0) * (0 - 0) + (0 - 0) * (0 - 0))
      with 1 by ring. apply sqrt_1. }
  unfold inside_positions1, inside_velocities1.
  repeat match goal with
         | |- Some _ = Some _ => f_equal
         | |- (_, _) = (_, _) => f_equal
         | |- _ :: _ = _ :: _ => f_equal
         end;
    apply vec3_eq; unfold Vec.unit, Vec.len; simpl; rewrite Hlen; lra.
Qed.

Lemma inside_box (i : nat) (p : Vec3 R) (axis : Axis) :
  inside_positions1 !! i = Some p → -1 <= Vec.get axis p <= 1.
Proof.
  destruct i as [|[|i]]; simpl; intros [= <-] || discriminate;
    destruct axis; simpl; lra.
Qed.

(** A stretched spring in a step on binary64 numbers for the
    accumulators; the two particles [inside_positions], which the
    integration leaves within the box, for the two sums. *)
Lemma spring_forces_cancel_witness :
  ((valid_springs (length two_positions) [stretched_spring] ∧
    [stretched_spring] !! 0%nat = Some stretched_spring ∧
    p0 stretched_spring ≠ p1 stretched_spring) ∧
   ∃ (pos0 pos1 a0 a1 : Vec3 float) (forces forces' : list (Vec3 float)),
     two_positions !! p0 stretched_spring = Some pos0 ∧
     two_positions !! p1 stretched_spring = Some pos1 ∧
     spring_forces 2%float two_positions (take 0 [stretched_spring])
     = Some forces ∧
     spring_forces 2%float two_positions (take 1 [stretched_spring])
     = Some forces' ∧
     forces !! p0 stretched_spring = Some a0 ∧
     forces !! p1 stretched_spring = Some a1 ∧
     let sforce := spring_force 2%float pos0 pos1 (rest stretched_spring) in
     forces' !! p0 stretched_spring = Some (Vec.inc a0 sforce) ∧
     forces' !! p1 stretched_spring = Some (Vec.dec a1 sforce)) ∧
  (valid_springs (length inside_positions) [half_spring] ∧
   ∃ sforces,
     spring_forces 1 inside_positions [half_spring] = Some sforces ∧
     length sforces = length inside_positions ∧
     vsum sforces = mkVec3 0 0 0) ∧
  (valid_springs (length inside_positions) [half_spring] ∧
   length inside_positions = length inside_velocities ∧
   1 ≠ 0 ∧
   integrate (clamp_dt (1 / 100)).2 inside_positions inside_velocities
     [half_spring] 1 0 1 (mkVec3 0 (-10) 0)
   = Some (inside_positions1, inside_velocities1) ∧
   (∀ i p axis, inside_positions1 !! i = Some p →
                -1 <= Vec.get axis p <= 1)) ∧
  SimTimeStep (1 / 100) inside_positions inside_velocities [half_spring]
    1 0 1 (mkVec3 0 (-10) 0) (1 / 2)
  = ((clamp_dt (1 / 100)).1, Some (inside_positions1, inside_velocities1)) ∧
  length inside_velocities1 = length inside_velocities ∧
  vsum (zip_with Vec.sub inside_velocities1 inside_velocities)
  = Vec.mul (Vec.mul (mkVec3 0 (-10) 0) (clamp_dt (1 / 100)).2)
      (INR (length inside_positions)).
Proof.
  refine (conj (conj _ _) (conj (conj _ _) (conj _ _))).
  - split_and!; [exact valid_stretched_spring|reflexivity|discriminate].
  - exact (proj1 spring_forces_cancel float float_number 2%float
             two_positions [stretched_spring] 0%nat stretched_spring
             valid_stretched_spring eq_refl (λ H : 0%nat = 1%nat, O_S 0 H)).
  - exact valid_half_spring.
  - exact (proj1 (proj2 spring_forces_cancel) 1 inside_positions
             [half_spring] valid_half_spring).
  - split_and!; [exact valid_half_spring|reflexivity|exact R1_neq_R0
                |exact inside_integrate|exact inside_box].
  - exact (proj2 (proj2 spring_forces_cancel) (1 / 100) 1 1 (1 / 2)
             (mkVec3 0 (-10) 0) inside_positions inside_velocities
             [half_spring] inside_positions1 inside_velocities1
             valid_half_spring eq_refl R1_neq_R0 inside_integrate inside_box).
Defined.

End ThirdLawWitness.

(** C10 as stated fails on binary64 numbers, by rounding: one particle
    falling without springs or damping, which the collision pass leaves
    alone; its velocity changes by [-0.30000000000000004 - (-0.1)], which
    is not [1 * (-10 * 0.02)]. *)
Lemma spring_forces_cancel_counterexample :
  let velocities := [mkVec3 0 (-0.1) 0]%float in
  let velocities' := [mkVec3 0 (-0.30000000000000004) 0]%float in
  let positions' := [mkVec3 0 (-0.006000000000000001) 0]%float in
  let gravity := (mkVec3 0 (-10) 0)%float in
  integrate (clamp_dt 0.02%float).2 [mkVec3 0 0 0]%float velocities [] 1%float
    0%float 1%float gravity = Some (positions', velocities') ∧
  SimTimeStep 0.02%float [mkVec3 0 0 0]%float velocities [] 1%float 0%float
    1%float gravity 0.5%float = ([], Some (positions', velocities')) ∧
  vsum (zip_with Vec.sub velocities' velocities)
  = (mkVec3 0 (-0.20000000000000004) 0)%float ∧
  Vec.mul (Vec.mul gravity (clamp_dt 0.02%float).2) 1%float
  = (mkVec3 0 (-0.2) 0)%float ∧
  (mkVec3 0 (-0.20000000000000004) 0)%float ≠ (mkVec3 0 (-0.2) 0)%float.
Proof.
  cbv zeta. split_and!; [vm_compute; reflexivity..|].
  intros Heq. apply (f_equal y) in Heq. simpl in Heq.
  apply (f_equal (λ c, (c =? -0.2)%float)) in Heq. vm_compute in Heq.
  discriminate.
Qed.

(** ** A step that moves nothing (binary64) *)

Section AtRest.
Local Open Scope float_scope.
Implicit Types (positions velocities forces : list (Vec3 float)).
Implicit Types (springs : list (Spring float)).

Lemma all_components_get (test : float → bool) (v : Vec3 float) :
  all_components test v = true ↔ ∀ axis, test (Vec.get axis v) = true.
Proof.
  unfold all_components. rewrite !andb_true_iff. split.
  - intros [[Hx Hy] Hz] []; done.
  - intros Hall. split_and!; [apply (Hall Ax)|apply (Hall Ay)|apply (Hall Az)].
Qed.

Lemma forallb_lookup {A : Type} (test : A → bool) (l : list A) (i : nat)
    (a : A) :
  forallb test l = true → l !! i = Some a → test a = true.
Proof.
  intros Hall Hi. apply (proj1 (forallb_forall test l) Hall).
  apply list_elem_of_In. by eapply list_elem_of_lookup_2.
Qed.

(** One component of one particle: when the two increments of the Euler
    update are zeros and the position is within the bounds, the position
    and the velocity keep their values and the collision pass does
    nothing. *)
Lemma component_stays (restitution c w a dt : float) :
  is_zero (a * dt) = true →
  is_zero ((w + a * dt) * dt) = true →
  within_bounds c = true →
  let w1 := w + a * dt in
  let c1 := c + w1 * dt in
  collide_component restitution c1 w1 = (c1, w1) ∧ same c1 c ∧ same w1 w.
Proof.
  intros Ha Hw Hc w1 c1.
  assert (same c1 c) as Hc1 by (by apply add_zero_r).
  assert (same w1 w) as Hw1 by (by apply add_zero_r).
  split_and!; [|done|done].
  unfold within_bounds in Hc. apply andb_true_iff in Hc as [Hlo Hhi].
  apply negb_true_iff in Hlo, Hhi.
  unfold collide_component, minBound, maxBound. simpl.
  change (- (1)) with (-1).
  by rewrite (same_ltb_l c1 c (-1) Hc1), Hlo, (same_ltb_r c1 c 1 Hc1), Hhi.
Qed.

(** One particle. *)
Lemma particle_stays (restitution particleMass dt : float)
    (force p v : Vec3 float) :
  (∀ axis, is_zero (Vec.get axis (Vec.div force particleMass) * dt) = true) →
  (∀ axis, is_zero ((Vec.get axis v
                     + Vec.get axis (Vec.div force particleMass) * dt) * dt)
           = true) →
  all_components within_bounds p = true →
  let pv := collide_particle restitution (euler particleMass dt force p v) in
  same_vec pv.1 p ∧ same_vec pv.2 v.
Proof.
  intros Ha Hw Hp. rewrite all_components_get in Hp. unfold euler.
  set (acceleration := Vec.div force particleMass) in *.
  set (v1 := Vec.inc v (Vec.mul acceleration dt)).
  set (p1 := Vec.inc p (Vec.mul v1 dt)).
  assert (∀ axis,
    collide_component restitution (Vec.get axis p1) (Vec.get axis v1)
      = (Vec.get axis p1, Vec.get axis v1) ∧
    same (Vec.get axis p1) (Vec.get axis p) ∧
    same (Vec.get axis v1) (Vec.get axis v)) as Hstay.
  { intros axis. unfold p1, v1. rewrite !get_inc, !get_mul, !get_inc, !get_mul.
    apply component_stays; [apply Ha|apply Hw|apply Hp]. }
  cbv zeta. rewrite collide_particle_fixed by (intros axis; apply Hstay).
  split; intros axis; apply Hstay.
Qed.

(** C6, amended: on a state whose position components are all within
    [[-1, 1]], whose velocities are finite and whose forces give finite
    accelerations, a call with [dt = 0] that does not throw leaves every
    position and every velocity component the same number (the sign of a
    zero apart), and logs nothing. *)
Theorem SimTimeStep_zero_dt positions velocities springs
    (stiffness damping particleMass : float) (gravity : Vec3 float)
    (restitution : float) forces :
  accumulate_forces positions velocities springs stiffness damping
    particleMass gravity = Some forces →
  length positions = length velocities →
  forallb (λ f, all_components is_finite (Vec.div f particleMass)) forces
    = true →
  forallb (all_components is_finite) velocities = true →
  forallb (all_components within_bounds) positions = true →
  ∃ positions' velocities',
    SimTimeStep 0 positions velocities springs stiffness damping particleMass
      gravity restitution = ([], Some (positions', velocities')) ∧
    Forall2 same_vec positions' positions ∧
    Forall2 same_vec velocities' velocities.
Proof.
  intros Hacc Hlen Hforces Hvel Hpos.
  destruct (accumulate_forces_Some_inv _ _ _ _ _ _ _ _ Hacc) as [Hvalid _].
  destruct (accumulate_forces_spec positions velocities springs stiffness
    damping particleMass gravity Hvalid) as
    (sforces & forces0 & Hsf & Hacc' & Hsl & Hfl & Hnet); [lia|].
  rewrite Hacc in Hacc'. injection Hacc' as <-.
  destruct (SimTimeStep_spec 0 positions velocities springs stiffness damping
    particleMass gravity restitution Hvalid) as
    (sforces' & ps' & vs' & Hsf' & Hrun & Hpl & Hvl & Hst & _); [lia|].
  rewrite Hsf in Hsf'. injection Hsf' as <-.
  exists ps', vs'. split; [exact Hrun|].
  assert (∀ i p v, positions !! i = Some p → velocities !! i = Some v →
    ∃ p' v', ps' !! i = Some p' ∧ vs' !! i = Some v' ∧
             same_vec p' p ∧ same_vec v' v) as Hsame.
  { intros i p v Hp Hv.
    destruct (lookup_lt_is_Some_2 sforces i) as [f Hf];
      [rewrite Hsl; by eapply lookup_lt_Some|].
    destruct (Hst i f p v Hf Hp Hv) as [Hp' Hv'].
    eexists _, _. split; [exact Hp'|]. split; [exact Hv'|].
    pose proof (forallb_lookup _ _ _ _ Hforces (Hnet i f v Hf Hv)) as Hfin.
    rewrite all_components_get in Hfin.
    pose proof (forallb_lookup _ _ _ _ Hvel Hv) as Hvfin.
    rewrite all_components_get in Hvfin.
    apply (particle_stays restitution particleMass 0).
    - intros axis. by apply mul_zero_r.
    - intros axis. apply mul_zero_r; [|done].
      rewrite (same_is_finite _ (Vec.get axis v)); [apply Hvfin|].
      apply add_zero_r. by apply mul_zero_r.
    - by eapply forallb_lookup. }
  split; apply Forall2_same_length_lookup_2; try lia.
  - intros i p' p Hp' Hp.
    destruct (lookup_lt_is_Some_2 velocities i) as [v Hv];
      [rewrite <- Hlen; by eapply lookup_lt_Some|].
    destruct (Hsame i p v Hp Hv) as (p'' & v'' & Hp'' & _ & Hs & _).
    rewrite Hp' in Hp''. by injection Hp'' as <-.
  - intros i v' v Hv' Hv.
    destruct (lookup_lt_is_Some_2 positions i) as [p Hp];
      [rewrite Hlen; by eapply lookup_lt_Some|].
    destruct (Hsame i p v Hp Hv) as (p'' & v'' & _ & Hv'' & _ & Hs).
    rewrite Hv' in Hv''. by injection Hv'' as <-.
Qed.

End AtRest.

(** C6 as stated fails on a particle outside the box: with [dt = 0] the
    collision pass still moves it to the wall and reverses its velocity. *)
Lemma SimTimeStep_zero_dt_counterexample :
  SimTimeStep 0%float [mkVec3 2 0 0]%float [mkVec3 1 0 0]%float [] 1%float
    0%float 1%float (mkVec3 0 0 0)%float 0.5%float
  = ([], Some ([mkVec3 1 0 0]%float, [mkVec3 (-0.5) 0 0]%float)) ∧
  ([mkVec3 1 0 0]%float, [mkVec3 (-0.5) 0 0]%float)
  ≠ ([mkVec3 2 0 0]%float, [mkVec3 1 0 0]%float).
Proof. split; [vm_compute; reflexivity|discriminate]. Qed.

Lemma SimTimeStep_zero_dt_witness :
  (accumulate_forces two_positions two_velocities one_spring 2%float
     0.5%float 2%float (mkVec3 0 (-10) 0)%float
   = Some [mkVec3 0 (-20) 0; mkVec3 0 (-20.125) 0]%float ∧
   length two_positions = length two_velocities ∧
   forallb (λ f, all_components is_finite (Vec.div f 2%float))
     [mkVec3 0 (-20) 0; mkVec3 0 (-20.125) 0]%float = true ∧
   forallb (all_components is_finite) two_velocities = true ∧
   forallb (all_components within_bounds) two_positions = true) ∧
  ∃ positions' velocities',
    SimTimeStep 0%float two_positions two_velocities one_spring 2%float
      0.5%float 2%float (mkVec3 0 (-10) 0)%float 0.5%float
    = ([], Some (positions', velocities')) ∧
    Forall2 same_vec positions' two_positions ∧
    Forall2 same_vec velocities' two_velocities.
Proof.
  split; [split_and!; reflexivity|].
  exact (SimTimeStep_zero_dt two_positions two_velocities one_spring 2%float
           0.5%float 2%float (mkVec3 0 (-10) 0)%float 0.5%float
           [mkVec3 0 (-20) 0; mkVec3 0 (-20.125) 0]%float
           eq_refl eq_refl eq_refl eq_refl eq_refl).
Defined.

(** ** Two particles joined by a spring at its rest length (binary64) *)

Section SpringAtRest.
Local Open Scope float_scope.

Lemma same_vec_trans (a b c : Vec3 float) :
  same_vec a b → same_vec b c → same_vec a c.
Proof. intros Hab Hbc axis. eapply same_trans; [apply Hab|apply Hbc]. Qed.

Lemma sub_same_vec (a a' b b' : Vec3 float) :
  same_vec a a' → same_vec b b' → same_vec (Vec.sub a b) (Vec.sub a' b').
Proof.
  intros Ha Hb axis. rewrite !get_sub. apply sub_same; [apply Ha|apply Hb].
Qed.

Lemma len_same_vec (d d' : Vec3 float) :
  same_vec d d' → Vec.len d = Vec.len d'.
Proof.
  intros Hd. unfold Vec.len.
  pose proof (mul_self_same _ _ (Hd Ax)) as Hx.
  pose proof (mul_self_same _ _ (Hd Ay)) as Hy.
  pose proof (mul_self_same _ _ (Hd Az)) as Hz.
  simpl in *. by rewrite Hx, Hy, Hz.
Qed.

Lemma unit_same_vec (d d' : Vec3 float) :
  same_vec d d' → same_vec (Vec.unit d) (Vec.unit d').
Proof.
  intros Hd axis. unfold Vec.unit. rewrite (len_same_vec d d' Hd), !get_div.
  apply div_same_l, Hd.
Qed.

(** The force of a spring at its rest length has zero components. *)
Lemma spring_force_at_rest (stiffness r : float) (a b a' b' : Vec3 float) :
  is_finite stiffness = true → is_finite r = true →
  Vec.len (Vec.sub b a) = r →
  all_components is_finite (Vec.unit (Vec.sub b a)) = true →
  same_vec a' a → same_vec b' b →
  all_components is_zero (spring_force stiffness a' b' r) = true.
Proof.
  intros Hk Hr Hlen Hunit Ha Hb. rewrite all_components_get in Hunit.
  apply all_components_get. intros axis. unfold spring_force.
  pose proof (sub_same_vec b' b a' a Hb Ha) as Hd.
  rewrite get_mul, (len_same_vec _ _ Hd), Hlen. apply mul_zero_r.
  - rewrite (same_is_finite _ _ (unit_same_vec _ _ Hd axis)). apply Hunit.
  - auto with zeros.
Qed.

(** A particle with zero velocity, under a force with zero components,
    without gravity or damping, within the bounds: it stays. *)
Lemma particle_at_rest (restitution particleMass dt : float)
    (f p v : Vec3 float) :
  is_finite particleMass = true → is_zero particleMass = false →
  is_finite dt = true →
  all_components is_zero f = true → all_components is_zero v = true →
  all_components within_bounds p = true →
  let pv := collide_particle restitution
              (euler particleMass dt
                 (net_force 0 particleMass (mkVec3 0 0 0) f v) p v) in
  same_vec pv.1 p ∧ all_components is_zero pv.2 = true.
Proof.
  intros Hm Hm0 Hdt Hf Hv Hp.
  rewrite all_components_get in Hf, Hv.
  assert (is_nan particleMass = false) as Hnan.
  { unfold is_finite in Hm. apply negb_true_iff, orb_false_iff in Hm. tauto. }
  assert (∀ axis, is_zero (Vec.get axis (mkVec3 0 0 0)) = true) as Hg
    by (by intros []).
  assert (∀ axis,
    is_zero (Vec.get axis
               (Vec.div (net_force 0 particleMass (mkVec3 0 0 0) f v)
                  particleMass) * dt) = true) as Hacc.
  { intros axis. unfold net_force.
    rewrite get_div, get_dec, get_inc, !get_mul. auto 10 with zeros. }
  assert (∀ axis,
    is_zero (Vec.get axis v
             + Vec.get axis
                 (Vec.div (net_force 0 particleMass (mkVec3 0 0 0) f v)
                    particleMass) * dt) = true) as Hvel
    by auto with zeros.
  destruct (particle_stays restitution particleMass dt
    (net_force 0 particleMass (mkVec3 0 0 0) f v) p v) as [Hp' Hv'];
    [done|auto with zeros|done|].
  split; [exact Hp'|]. apply all_components_get. intros axis.
  rewrite (same_is_zero _ _ (Hv' axis)). apply Hv.
Qed.

(** One step from a state that is the rest state, the signs of zeros
    apart. *)
Lemma spring_at_rest_step (dt stiffness r particleMass restitution : float)
    (a b a' b' va vb : Vec3 float) :
  is_finite (clamp_dt dt).2 = true →
  is_finite stiffness = true → is_finite r = true →
  is_finite particleMass = true → is_zero particleMass = false →
  Vec.len (Vec.sub b a) = r →
  all_components is_finite (Vec.unit (Vec.sub b a)) = true →
  all_components within_bounds a = true →
  all_components within_bounds b = true →
  same_vec a' a → same_vec b' b →
  all_components is_zero va = true → all_components is_zero vb = true →
  ∃ a'' b'' va' vb',
    (SimTimeStep dt [a'; b'] [va; vb] [mkSpring 0 1 r] stiffness 0
       particleMass (mkVec3 0 0 0) restitution).2
    = Some ([a''; b''], [va'; vb']) ∧
    same_vec a'' a ∧ same_vec b'' b ∧
    all_components is_zero va' = true ∧ all_components is_zero vb' = true.
Proof.
  intros Hdt Hk Hr Hm Hm0 Hlen Hunit Ha Hb Ha' Hb' Hva Hvb.
  pose proof (spring_force_at_rest stiffness r a b a' b' Hk Hr Hlen Hunit
                Ha' Hb') as Hsf.
  set (sf := spring_force stiffness a' b' r) in *.
  rewrite all_components_get in Hsf.
  assert (all_components within_bounds a' = true) as Hba'.
  { apply all_components_get. intros axis. rewrite all_components_get in Ha.
    unfold within_bounds.
    rewrite (same_ltb_l _ _ _ (Ha' axis)), (same_ltb_r _ _ _ (Ha' axis)).
    apply Ha. }
  assert (all_components within_bounds b' = true) as Hbb'.
  { apply all_components_get. intros axis. rewrite all_components_get in Hb.
    unfold within_bounds.
    rewrite (same_ltb_l _ _ _ (Hb' axis)), (same_ltb_r _ _ _ (Hb' axis)).
    apply Hb. }
  destruct (SimTimeStep_spec dt [a'; b'] [va; vb] [mkSpring 0 1 r] stiffness
    0 particleMass (mkVec3 0 0 0) restitution) as
    (sforces & ps' & vs' & Hsforces & Hrun & Hpl & Hvl & Hst & _);
    [repeat constructor|done|].
  assert (sforces = [Vec.inc (mkVec3 0 0 0) sf; Vec.dec (mkVec3 0 0 0) sf])
    as -> by (injection Hsforces as <-; reflexivity).
  destruct (Hst 0%nat _ a' va eq_refl eq_refl eq_refl) as [Hp0 Hv0].
  destruct (Hst 1%nat _ b' vb eq_refl eq_refl eq_refl) as [Hp1 Hv1].
  destruct (particle_at_rest restitution particleMass (clamp_dt dt).2
    (Vec.inc (mkVec3 0 0 0) sf) a' va) as [Hsa Hza]; [done..| |done|done|].
  { apply all_components_get. intros axis. rewrite get_inc.
    apply add_zero_zero; [by destruct axis|auto]. }
  destruct (particle_at_rest restitution particleMass (clamp_dt dt).2
    (Vec.dec (mkVec3 0 0 0) sf) b' vb) as [Hsb Hzb]; [done..| |done|done|].
  { apply all_components_get. intros axis. rewrite get_dec.
    apply sub_zero_zero; [by destruct axis|auto]. }
  cbv zeta in *.
  destruct ps' as [|pa [|pb [|? ?]]]; try discriminate.
  destruct vs' as [|wa [|wb [|? ?]]]; try discriminate.
  injection Hp0 as ->. injection Hp1 as ->.
  injection Hv0 as ->. injection Hv1 as ->.
  eexists _, _, _, _. rewrite Hrun. split; [reflexivity|].
  split_and!; [|  |done|done].
  - by eapply same_vec_trans.
  - by eapply same_vec_trans.
Qed.

(** C5, amended: two particles within the box, with zero velocity, joined
    by one spring whose rest length is exactly their distance, without
    gravity or damping: after any number of calls every position and
    velocity component is the same number as at the start (the sign of a
    zero apart), provided the numbers are finite (stiffness, rest length,
    mass, clamped step, unit direction of the spring) and the mass is not
    zero. *)
Theorem spring_at_rest_stays (n : nat)
    (dt stiffness r particleMass restitution : float) (a b : Vec3 float) :
  is_finite (clamp_dt dt).2 = true →
  is_finite stiffness = true → is_finite r = true →
  is_finite particleMass = true → is_zero particleMass = false →
  Vec.len (Vec.sub b a) = r →
  all_components is_finite (Vec.unit (Vec.sub b a)) = true →
  all_components within_bounds a = true →
  all_components within_bounds b = true →
  ∃ positions velocities,
    iterate n dt [a; b] [mkVec3 0 0 0; mkVec3 0 0 0] [mkSpring 0 1 r]
      stiffness 0 particleMass (mkVec3 0 0 0) restitution
    = Some (positions, velocities) ∧
    Forall2 same_vec positions [a; b] ∧
    Forall2 same_vec velocities [mkVec3 0 0 0; mkVec3 0 0 0].
Proof.
  intros Hdt Hk Hr Hm Hm0 Hlen Hunit Ha Hb.
  assert (∀ a' b' va vb,
    same_vec a' a → same_vec b' b →
    all_components is_zero va = true → all_components is_zero vb = true →
    ∃ a'' b'' va' vb',
      iterate n dt [a'; b'] [va; vb] [mkSpring 0 1 r] stiffness 0
        particleMass (mkVec3 0 0 0) restitution
      = Some ([a''; b''], [va'; vb']) ∧
      same_vec a'' a ∧ same_vec b'' b ∧
      all_components is_zero va' = true ∧ all_components is_zero vb' = true)
    as Hiter.
  { induction n as [|n IH]; intros a' b' va vb Ha' Hb' Hva Hvb.
    - exists a', b', va, vb. done.
    - destruct (spring_at_rest_step dt stiffness r particleMass restitution
        a b a' b' va vb) as (a1 & b1 & va1 & vb1 & Hstep & Ha1 & Hb1 & Hva1
        & Hvb1); [done..|].
      cbn [iterate]. rewrite Hstep. simpl. by apply IH. }
  destruct (Hiter a b (mkVec3 0 0 0) (mkVec3 0 0 0))
    as (a' & b' & va & vb & Hrun & Ha' & Hb' & Hva & Hvb);
    [by left|by left|done|done|].
  exists [a'; b'], [va; vb]. split; [done|].
  rewrite all_components_get in Hva, Hvb.
  split.
  - constructor; [done|]. constructor; [done|]. constructor.
  - constructor; [|constructor; [|constructor]]; intros axis.
    + apply same_zero; [apply Hva|by destruct axis].
    + apply same_zero; [apply Hvb|by destruct axis].
Qed.

End SpringAtRest.

(** C5 as stated fails on particles outside the box: at distance [1],
    the rest length, and at rest, yet the first call moves both to the
    wall [x = 1]. *)
Lemma spring_at_rest_counterexample :
  Vec.len (Vec.sub (mkVec3 3 0 0) (mkVec3 2 0 0))%float = 1%float ∧
  iterate 1 0.01%float [mkVec3 2 0 0; mkVec3 3 0 0]%float
    [mkVec3 0 0 0; mkVec3 0 0 0]%float [mkSpring 0 1 1%float] 1%float
    0%float 1%float (mkVec3 0 0 0)%float 1%float
  = Some ([mkVec3 1 0 0; mkVec3 1 0 0]%float,
          [mkVec3 0 0 0; mkVec3 0 0 0]%float) ∧
  [mkVec3 1 0 0; mkVec3 1 0 0]%float ≠ [mkVec3 2 0 0; mkVec3 3 0 0]%float.
Proof. split_and!; [vm_compute; reflexivity..|discriminate]. Qed.

Lemma spring_at_rest_stays_witness :
  (is_finite (clamp_dt 0.01%float).2 = true ∧
   is_finite 2%float = true ∧ is_finite 0.5%float = true ∧
   is_finite 2%float = true ∧ is_zero 2%float = false ∧
   Vec.len (Vec.sub (mkVec3 0.5 0 0) (mkVec3 0 0 0))%float = 0.5%float ∧
   all_components is_finite
     (Vec.unit (Vec.sub (mkVec3 0.5 0 0) (mkVec3 0 0 0)))%float = true ∧
   all_components within_bounds (mkVec3 0 0 0)%float = true ∧
   all_components within_bounds (mkVec3 0.5 0 0)%float = true) ∧
  ∃ positions velocities,
    iterate 3 0.01%float [mkVec3 0 0 0; mkVec3 0.5 0 0]%float
      [mkVec3 0 0 0; mkVec3 0 0 0]%float [mkSpring 0 1 0.5%float] 2%float
      0%float 2%float (mkVec3 0 0 0)%float 1%float
    = Some (positions, velocities) ∧
    Forall2 same_vec positions [mkVec3 0 0 0; mkVec3 0.5 0 0]%float ∧
    Forall2 same_vec velocities [mkVec3 0 0 0; mkVec3 0 0 0]%float.
Proof.
  split; [split_and!; reflexivity|].
  exact (spring_at_rest_stays 3 0.01%float 2%float 0.5%float 2%float 1%float
           (mkVec3 0 0 0)%float (mkVec3 0.5 0 0)%float
           eq_refl eq_refl eq_refl eq_refl eq_refl eq_refl eq_refl eq_refl
           eq_refl).
Defined.

(** ** The zero-length spring (binary64) *)

Section ZeroLength.
Local Open Scope float_scope.

Lemma sqrt_zero (a : float) : is_zero a = true → is_zero (PrimFloat.sqrt a) = true.
Proof.
  rewrite !is_zero_spec, sqrt_spec. unfold SF64sqrt.
  by destruct (Prim2SF a).
Qed.

Lemma div_zero_zero (a b : float) :
  is_zero a = true → is_zero b = true → a / b = nan.
Proof.
  rewrite !is_zero_spec. intros Ha Hb. apply Prim2SF_inj.
  rewrite div_spec. unfold SF64div.
  by destruct (Prim2SF a), (Prim2SF b).
Qed.

(** Between two particles at the same finite position the displacement
    has length zero, and its normalization divides zero by zero. *)
Lemma unit_of_zero_displacement (pos : Vec3 float) :
  all_components is_finite pos = true →
  is_zero (Vec.len (Vec.sub pos pos)) = true ∧
  Vec.unit (Vec.sub pos pos) = mkVec3 nan nan nan.
Proof.
  intros Hpos. rewrite all_components_get in Hpos.
  assert (∀ axis, is_zero (Vec.get axis (Vec.sub pos pos)) = true) as Hd.
  { intros axis. rewrite get_sub. apply sub_diag, Hpos. }
  assert (is_zero (Vec.len (Vec.sub pos pos)) = true) as Hlen.
  { unfold Vec.len. apply sqrt_zero.
    pose proof (Hd Ax) as Hx. pose proof (Hd Ay) as Hy.
    pose proof (Hd Az) as Hz. cbn [Vec.get] in Hx, Hy, Hz.
    repeat apply add_zero_zero;
      apply mul_zero_l; auto using is_zero_finite. }
  split; [done|]. apply vec3_ext. intros axis.
  unfold Vec.unit. rewrite get_div.
  etrans; [exact (div_zero_zero _ _ (Hd axis) Hlen)|by destruct axis].
Qed.

(** C8: nothing guards the normalization of a zero-length displacement.
    Between two particles at the same finite position the displacement
    has length zero and [unit] divides zero by zero: the direction is
    [(NaN, NaN, NaN)].  And [SimTimeStep] reaches that division: on two
    particles at the same position joined by a spring the spring force on
    both is NaN, and the call completes leaving NaN in every position and
    velocity component. *)
Theorem zero_length_spring_unguarded :
  (∀ pos : Vec3 float,
     all_components is_finite pos = true →
     is_zero (Vec.len (Vec.sub pos pos)) = true ∧
     Vec.unit (Vec.sub pos pos) = mkVec3 nan nan nan) ∧
  (let pos := mkVec3 0.5 0.25 0 in
   let spring := mkSpring 0 1 0.25 in
   let nan3 := mkVec3 nan nan nan in
   [pos; pos] !! p0 spring = Some pos ∧ [pos; pos] !! p1 spring = Some pos ∧
   spring_forces 1 [pos; pos] [spring] = Some [nan3; nan3] ∧
   SimTimeStep 0.01 [pos; pos] [mkVec3 0 0 0; mkVec3 0 0 0] [spring]
     1 0 1 (mkVec3 0 0 0) 1
   = ([], Some ([nan3; nan3], [nan3; nan3]))).
Proof.
  split; [exact unit_of_zero_displacement|].
  cbv zeta. split_and!; vm_compute; reflexivity.
Qed.

End ZeroLength.

Lemma zero_length_spring_unguarded_witness :
  all_components is_finite (mkVec3 0.5 0.25 0)%float = true ∧
  is_zero (Vec.len (Vec.sub (mkVec3 0.5 0.25 0) (mkVec3 0.5 0.25 0))%float)
  = true ∧
  Vec.unit (Vec.sub (mkVec3 0.5 0.25 0) (mkVec3 0.5 0.25 0))%float
  = mkVec3 nan nan nan.
Proof.
  split; [reflexivity|].
  exact (proj1 zero_length_spring_unguarded (mkVec3 0.5 0.25 0)%float eq_refl).
Defined.

(** * Further properties of the time step *)

(** ** When the call completes, and what it leaves alone (any arithmetic) *)

Section Completion.
Context {F : Type} `{Number F}.
Implicit Types (positions velocities forces : list (Vec3 F)).
Implicit Types (springs : list (Spring F)) (spring : Spring F).

(** X1: the call completes (throws no [TypeError]) exactly when every
    spring index is below [positions.length] and [velocities] holds at
    least as many vectors as [positions]. *)
Theorem SimTimeStep_completes_iff (dt : F) positions velocities springs
    (stiffness damping particleMass : F) (gravity : Vec3 F) (restitution : F) :
  is_Some (SimTimeStep dt positions velocities springs stiffness damping
             particleMass gravity restitution).2
  ↔ valid_springs (length positions) springs ∧
    length positions ≤ length velocities.
Proof.
  split.
  - rewrite SimTimeStep_unfold. cbn [snd]. intros [st Hst].
    destruct (integrate (clamp_dt dt).2 positions velocities springs
      stiffness damping particleMass gravity) as [st1|] eqn:Hint;
      [|discriminate].
    by eapply integrate_Some_inv.
  - intros [Hvalid Hlen].
    destruct (SimTimeStep_spec dt positions velocities springs stiffness
      damping particleMass gravity restitution Hvalid Hlen)
      as (sforces & ps' & vs' & _ & -> & _).
    by eexists.
Qed.

(** X2: the loops run over [positions.length]: when [velocities] is the
    longer array, the call completes and its entries from
    [positions.length] on are left as they are. *)
Theorem SimTimeStep_spare_velocities (dt : F) positions velocities springs
    (stiffness damping particleMass : F) (gravity : Vec3 F) (restitution : F) :
  valid_springs (length positions) springs →
  length positions ≤ length velocities →
  ∃ positions' velocities',
    (SimTimeStep dt positions velocities springs stiffness damping
       particleMass gravity restitution).2 = Some (positions', velocities') ∧
    length positions' = length positions ∧
    drop (length positions) velocities' = drop (length positions) velocities.
Proof.
  intros Hvalid Hlen.
  destruct (SimTimeStep_spec dt positions velocities springs stiffness damping
    particleMass gravity restitution Hvalid Hlen)
    as (sforces & ps' & vs' & _ & -> & Hpl & Hvl & _ & Hrest).
  exists ps', vs'. split_and!; [done|done|].
  apply list_eq. intros i. rewrite !lookup_drop. apply Hrest. lia.
Qed.

(** X3: without particles, the call completes exactly when there is no
    spring, and then leaves both arrays as they are, whatever
    [velocities] holds. *)
Theorem SimTimeStep_no_particles (dt : F) velocities springs
    (stiffness damping particleMass : F) (gravity : Vec3 F) (restitution : F) :
  SimTimeStep dt [] velocities springs stiffness damping particleMass gravity
    restitution
  = ((clamp_dt dt).1,
     match springs with [] => Some ([], velocities) | _ :: _ => None end).
Proof.
  rewrite SimTimeStep_unfold. by destruct springs.
Qed.

(** A spring that does not touch particle [i] leaves its accumulator. *)
Lemma spring_step_elsewhere (stiffness : F) positions forces spring forces'
    (i : nat) :
  spring_step stiffness positions forces spring = Some forces' →
  p0 spring ≠ i → p1 spring ≠ i → forces' !! i = forces !! i.
Proof.
  intros (pos0 & pos1 & forces1 & _ & _ & H1 & H2)%spring_step_Some Hi0 Hi1.
  rewrite (update_lookup _ i _ _ _ H2), decide_False by done.
  by rewrite (update_lookup _ i _ _ _ H1), decide_False by done.
Qed.

(** A particle that no spring names has a zero spring force. *)
Lemma spring_forces_unattached (stiffness : F) positions springs sforces
    (i : nat) (p : Vec3 F) :
  spring_forces stiffness positions springs = Some sforces →
  positions !! i = Some p →
  Forall (λ spring, p0 spring ≠ i ∧ p1 spring ≠ i) springs →
  sforces !! i = Some (mkVec3 lit_0 lit_0 lit_0).
Proof.
  intros Hsf Hp Hfree.
  apply (forEach_Some_inv
    (λ forces, forces !! i = Some (mkVec3 lit_0 lit_0 lit_0))
    _ _ _ _ Hsf).
  - unfold init_forces. by rewrite list_lookup_fmap, Hp.
  - intros spring t t' Hin Ht Hstep.
    destruct (proj1 (Forall_forall _ _) Hfree spring Hin) as [H0 H1].
    by rewrite (spring_step_elsewhere _ _ _ _ _ _ Hstep H0 H1).
Qed.

(** X4: a particle that no spring names has a zero spring force, and the
    call moves it by gravity, damping and the walls alone: where it ends
    depends on its own position and velocity only, not on the other
    particles or on the stiffness. *)
Theorem unattached_particle_moves_alone (dt : F) positions velocities springs
    (stiffness damping particleMass : F) (gravity : Vec3 F) (restitution : F)
    (i : nat) (p v : Vec3 F) :
  valid_springs (length positions) springs →
  length positions ≤ length velocities →
  positions !! i = Some p → velocities !! i = Some v →
  Forall (λ spring, p0 spring ≠ i ∧ p1 spring ≠ i) springs →
  ∃ sforces positions' velocities',
    spring_forces stiffness positions springs = Some sforces ∧
    sforces !! i = Some (mkVec3 lit_0 lit_0 lit_0) ∧
    (SimTimeStep dt positions velocities springs stiffness damping
       particleMass gravity restitution).2 = Some (positions', velocities') ∧
    let pv := collide_particle restitution
                (euler particleMass (clamp_dt dt).2
                   (net_force damping particleMass gravity
                      (mkVec3 lit_0 lit_0 lit_0) v) p v) in
    positions' !! i = Some pv.1 ∧ velocities' !! i = Some pv.2.
Proof.
  intros Hvalid Hlen Hp Hv Hfree.
  destruct (SimTimeStep_spec dt positions velocities springs stiffness damping
    particleMass gravity restitution Hvalid Hlen)
    as (sforces & ps' & vs' & Hsf & -> & _ & _ & Hst & _).
  pose proof (spring_forces_unattached _ _ _ _ _ _ Hsf Hp Hfree) as Hzero.
  exists sforces, ps', vs'. split_and!; [done|done|done|].
  exact (Hst i _ p v Hzero Hp Hv).
Qed.

(** An invariant of the step is an invariant of any number of steps. *)
Lemma iterate_inv (Inv : list (Vec3 F) → list (Vec3 F) → Prop) (dt : F)
    springs (stiffness damping particleMass : F) (gravity : Vec3 F)
    (restitution : F) :
  (∀ ps vs, Inv ps vs →
     ∃ ps' vs',
       (SimTimeStep dt ps vs springs stiffness damping particleMass gravity
          restitution).2 = Some (ps', vs') ∧ Inv ps' vs') →
  ∀ (n : nat) ps vs, Inv ps vs →
    ∃ ps' vs',
      iterate n dt ps vs springs stiffness damping particleMass gravity
        restitution = Some (ps', vs') ∧ Inv ps' vs'.
Proof.
  intros Hstep n. induction n as [|n IH]; intros ps vs Hinv.
  - by exists ps, vs.
  - destruct (Hstep ps vs Hinv) as (ps1 & vs1 & Hrun & Hinv1).
    cbn [iterate]. rewrite Hrun. simpl. by apply IH.
Qed.

End Completion.

(** ** NaN (binary64) *)

Section FloatNaN.
Local Open Scope float_scope.

Lemma add_nan_l (a b : float) : is_nan a = true → is_nan (a + b) = true.
Proof.
  rewrite !is_nan_spec, add_spec.
  by destruct (Prim2SF a), (Prim2SF b).
Qed.

Lemma add_nan_r (a b : float) : is_nan b = true → is_nan (a + b) = true.
Proof.
  rewrite !is_nan_spec, add_spec.
  by destruct (Prim2SF a), (Prim2SF b).
Qed.

Lemma sub_nan_l (a b : float) : is_nan a = true → is_nan (a - b) = true.
Proof.
  rewrite !is_nan_spec, sub_spec.
  by destruct (Prim2SF a), (Prim2SF b).
Qed.

Lemma sub_nan_r (a b : float) : is_nan b = true → is_nan (a - b) = true.
Proof.
  rewrite !is_nan_spec, sub_spec.
  by destruct (Prim2SF a), (Prim2SF b).
Qed.

Lemma mul_nan_l (a b : float) : is_nan a = true → is_nan (a * b) = true.
Proof.
  rewrite !is_nan_spec, mul_spec.
  by destruct (Prim2SF a), (Prim2SF b).
Qed.

Lemma mul_nan_r (a b : float) : is_nan b = true → is_nan (a * b) = true.
Proof.
  rewrite !is_nan_spec, mul_spec.
  by destruct (Prim2SF a), (Prim2SF b).
Qed.

Lemma div_nan_l (a b : float) : is_nan a = true → is_nan (a / b) = true.
Proof.
  rewrite !is_nan_spec, div_spec.
  by destruct (Prim2SF a), (Prim2SF b).
Qed.

Lemma div_nan_r (a b : float) : is_nan b = true → is_nan (a / b) = true.
Proof.
  rewrite !is_nan_spec, div_spec.
  by destruct (Prim2SF a), (Prim2SF b).
Qed.

Lemma sqrt_nan (a : float) : is_nan a = true → is_nan (PrimFloat.sqrt a) = true.
Proof. rewrite !is_nan_spec, sqrt_spec. by destruct (Prim2SF a). Qed.

(** Every comparison with NaN fails. *)
Lemma ltb_nan_l (a b : float) : is_nan a = true → (a <? b) = false.
Proof.
  rewrite is_nan_spec, FloatAxioms.ltb_spec. unfold SFltb.
  by destruct (Prim2SF a), (Prim2SF b).
Qed.

Lemma ltb_nan_r (a b : float) : is_nan b = true → (a <? b) = false.
Proof.
  rewrite is_nan_spec, FloatAxioms.ltb_spec. unfold SFltb.
  by destruct (Prim2SF a), (Prim2SF b).
Qed.

End FloatNaN.


(** ** Zeros and NaN together *)

Section ZeroOrNaN.
Local Open Scope float_scope.

Lemma zero_or_nan_sub_self (a : float) : zero_or_nan (a - a) = true.
Proof.
  unfold zero_or_nan. rewrite is_zero_spec, is_nan_spec, sub_spec.
  unfold SF64sub, SFsub.
  destruct (Prim2SF a) as [s|s| |s m e]; [by destruct s..|done|].
  by rewrite Z.sub_diag.
Qed.

Lemma zero_or_nan_mul (a b : float) :
  zero_or_nan a = true → zero_or_nan b = true → zero_or_nan (a * b) = true.
Proof.
  unfold zero_or_nan. rewrite !is_zero_spec, !is_nan_spec, mul_spec.
  by destruct (Prim2SF a), (Prim2SF b).
Qed.

(** Any number times a zero. *)
Lemma zero_or_nan_mul_zero (a b : float) :
  is_zero b = true → zero_or_nan (a * b) = true.
Proof.
  unfold zero_or_nan. rewrite !is_zero_spec, !is_nan_spec, mul_spec.
  by destruct (Prim2SF a), (Prim2SF b).
Qed.

Lemma zero_or_nan_add (a b : float) :
  zero_or_nan a = true → zero_or_nan b = true → zero_or_nan (a + b) = true.
Proof.
  unfold zero_or_nan. rewrite !is_zero_spec, !is_nan_spec, add_spec.
  destruct (Prim2SF a) as [[]| | |], (Prim2SF b) as [[]| | |]; done.
Qed.

Lemma zero_or_nan_sub (a b : float) :
  zero_or_nan a = true → zero_or_nan b = true → zero_or_nan (a - b) = true.
Proof.
  unfold zero_or_nan. rewrite !is_zero_spec, !is_nan_spec, sub_spec.
  destruct (Prim2SF a) as [[]| | |], (Prim2SF b) as [[]| | |]; done.
Qed.

Lemma zero_or_nan_sqrt (a : float) :
  zero_or_nan a = true → zero_or_nan (PrimFloat.sqrt a) = true.
Proof.
  unfold zero_or_nan. rewrite !is_zero_spec, !is_nan_spec, sqrt_spec.
  by destruct (Prim2SF a).
Qed.

(** [0 / 0], and every quotient with a NaN, is NaN. *)
Lemma zero_or_nan_div (a b : float) :
  zero_or_nan a = true → zero_or_nan b = true → is_nan (a / b) = true.
Proof.
  unfold zero_or_nan. rewrite !is_zero_spec, !is_nan_spec, div_spec.
  by destruct (Prim2SF a), (Prim2SF b).
Qed.

End ZeroOrNaN.

(** ** The Euler update and the collision pass, component by component *)

Section EulerComponents.
Context {F : Type} `{Number F}.

Lemma get_euler_velocity (axis : Axis) (particleMass dt : F)
    (force p v : Vec3 F) :
  Vec.get axis (euler particleMass dt force p v).2
  = (Vec.get axis v + Vec.get axis force / particleMass * dt)%js.
Proof. by destruct axis. Qed.

Lemma get_euler_position (axis : Axis) (particleMass dt : F)
    (force p v : Vec3 F) :
  Vec.get axis (euler particleMass dt force p v).1
  = (Vec.get axis p
     + (Vec.get axis v + Vec.get axis force / particleMass * dt) * dt)%js.
Proof. by destruct axis. Qed.

Lemma get_net_force (axis : Axis) (damping particleMass : F)
    (gravity f v : Vec3 F) :
  Vec.get axis (net_force damping particleMass gravity f v)
  = (Vec.get axis f + Vec.get axis gravity * particleMass
     - Vec.get axis v * damping)%js.
Proof. by destruct axis. Qed.

End EulerComponents.

Section FloatCollision.
Local Open Scope float_scope.
Implicit Types (positions velocities : list (Vec3 float)).

(** The collision pass does not see a NaN position. *)
Lemma collide_component_nan (restitution c w : float) :
  is_nan c = true → collide_component restitution c w = (c, w).
Proof.
  intros Hc. unfold collide_component, minBound, maxBound. simpl.
  by rewrite (ltb_nan_l c _ Hc), (ltb_nan_r _ c Hc).
Qed.

(** It leaves a NaN velocity as it is. *)
Lemma collide_component_nan_velocity (restitution c w : float) :
  is_nan w = true → (collide_component restitution c w).2 = w.
Proof.
  intros Hw. unfold collide_component, minBound, maxBound. simpl.
  rewrite (ltb_nan_l w _ Hw), (ltb_nan_r _ w Hw).
  by repeat case_match.
Qed.

(** A position it leaves is NaN or within the walls. *)
Lemma collide_component_within (restitution c w : float) :
  let c' := (collide_component restitution c w).1 in
  is_nan c' = false → (-1 <=? c') = true ∧ (c' <=? 1) = true.
Proof.
  unfold collide_component, minBound, maxBound. simpl.
  change (- (1)) with (-1).
  destruct (c <? -1) eqn:Hlow; simpl; [done|].
  destruct (1 <? c) eqn:Hhigh; simpl; [done|].
  intros Hnan. split; by apply ltb_false_leb.
Qed.

(** A second pass finds nothing to do. *)
Lemma collide_component_idempotent (restitution c w : float) :
  let cw := collide_component restitution c w in
  collide_component restitution cw.1 cw.2 = cw.
Proof.
  unfold collide_component, minBound, maxBound. simpl.
  change (- (1)) with (-1).
  destruct (c <? -1) eqn:Hlow; simpl; [done|].
  destruct (1 <? c) eqn:Hhigh; simpl; [done|].
  by rewrite Hlow, Hhigh.
Qed.

Lemma collide_particle_idempotent (restitution : float) (pv : Vec3 float * Vec3 float) :
  collide_particle restitution (collide_particle restitution pv)
  = collide_particle restitution pv.
Proof.
  destruct pv as [p v].
  destruct (collide_particle restitution (p, v)) as [p' v'] eqn:Hc.
  apply collide_particle_fixed. intros axis.
  pose proof (collide_particle_get restitution p v axis) as Hget.
  cbv zeta in Hget. rewrite Hc in Hget. cbn [fst snd] in Hget.
  pose proof (collide_component_idempotent restitution (Vec.get axis p)
                (Vec.get axis v)) as Hidem.
  cbv zeta in Hidem. rewrite <- Hget in Hidem. exact Hidem.
Qed.

(** X5: on binary64 numbers the collision pass is idempotent: run on
    the state it leaves, it changes no position and no velocity (a
    velocity it has reversed is not reversed back). *)
Theorem collide_idempotent (restitution : float) positions velocities :
  length positions ≤ length velocities →
  ∃ st, collide restitution (positions, velocities) = Some st ∧
        collide restitution st = Some st.
Proof.
  intros Hlen.
  destruct (collide_spec restitution positions velocities Hlen)
    as (ps' & vs' & Hrun & Hpl & Hvl & Hst & Hrest).
  exists (ps', vs'). split; [done|].
  destruct (collide_spec restitution ps' vs')
    as (ps'' & vs'' & Hrun' & Hpl' & Hvl' & Hst' & Hrest'); [lia|].
  rewrite Hrun'. f_equal. f_equal; apply list_eq; intros i.
  - destruct (decide (i < length positions)) as [Hi|Hi].
    + destruct (lookup_lt_is_Some_2 positions i) as [p Hp]; [lia|].
      destruct (lookup_lt_is_Some_2 velocities i) as [v Hv]; [lia|].
      destruct (Hst i p v Hp Hv) as [Hp' Hv']. cbv zeta in Hp', Hv'.
      destruct (Hst' i _ _ Hp' Hv') as [Hp'' _]. cbv zeta in Hp''.
      rewrite <- surjective_pairing, collide_particle_idempotent in Hp''.
      by rewrite Hp'', Hp'.
    + rewrite !lookup_ge_None_2 by lia. done.
  - destruct (decide (i < length positions)) as [Hi|Hi].
    + destruct (lookup_lt_is_Some_2 positions i) as [p Hp]; [lia|].
      destruct (lookup_lt_is_Some_2 velocities i) as [v Hv]; [lia|].
      destruct (Hst i p v Hp Hv) as [Hp' Hv']. cbv zeta in Hp', Hv'.
      destruct (Hst' i _ _ Hp' Hv') as [_ Hv'']. cbv zeta in Hv''.
      rewrite <- surjective_pairing, collide_particle_idempotent in Hv''.
      by rewrite Hv'', Hv'.
    + apply Hrest'. lia.
Qed.

End FloatCollision.

(** ** The sign of a reversed velocity (binary64) *)

Section ReversedVelocity.
Local Open Scope float_scope.
Implicit Types (positions velocities : list (Vec3 float)).

(** A negative velocity times [-restitution], for a restitution that is
    not negative, is not negative; a positive one is not positive. *)
Lemma reversed_not_negative (w restitution : float) :
  (w <? 0) = true → (0 <=? restitution) = true →
  (w * - restitution <? 0) = false.
Proof.
  rewrite !FloatAxioms.ltb_spec, FloatAxioms.leb_spec, mul_spec, opp_spec.
  replace (Prim2SF 0) with (S754_zero false) by reflexivity.
  pose proof (SFmul_sign prec emax (Prim2SF w) (SFopp (Prim2SF restitution)))
    as Hsign.
  unfold SF64mul.
  destruct (Prim2SF w) as [sw|sw| |sw mw ew];
    destruct (Prim2SF restitution) as [sr|sr| |sr mr er];
    try done; destruct sw; try done; destruct sr; try done.
Qed.

Lemma reversed_not_positive (w restitution : float) :
  (0 <? w) = true → (0 <=? restitution) = true →
  (0 <? w * - restitution) = false.
Proof.
  rewrite !FloatAxioms.ltb_spec, FloatAxioms.leb_spec, mul_spec, opp_spec.
  replace (Prim2SF 0) with (S754_zero false) by reflexivity.
  pose proof (SFmul_sign prec emax (Prim2SF w) (SFopp (Prim2SF restitution)))
    as Hsign.
  unfold SF64mul.
  destruct (Prim2SF w) as [sw|sw| |sw mw ew];
    destruct (Prim2SF restitution) as [sr|sr| |sr mr er];
    try done; destruct sw; try done; destruct sr; try done.
Qed.

Lemma collide_component_not_outward (restitution c w : float) :
  (0 <=? restitution) = true →
  let cw := collide_component restitution c w in
  ((c <? -1) = true → (cw.2 <? 0) = false) ∧
  ((1 <? c) = true → (0 <? cw.2) = false).
Proof.
  intros Hr. unfold collide_component, minBound, maxBound. simpl.
  change (- (1)) with (-1). split.
  - intros ->. simpl. destruct (w <? 0) eqn:Hw; [|done].
    by apply reversed_not_negative.
  - intros Hc. rewrite (above_1_not_below c Hc), Hc. simpl.
    destruct (0 <? w) eqn:Hw; [|done].
    by apply reversed_not_positive.
Qed.

(** X6: on binary64 numbers, with a restitution that is not negative
    (and not NaN), the collision pass leaves no velocity pointing out of
    the box on an axis where it has moved the particle to the wall: not
    negative at the wall [-1], not positive at the wall [1]. *)
Theorem collide_never_outward (restitution : float) positions velocities :
  (0 <=? restitution) = true →
  length positions ≤ length velocities →
  ∃ positions' velocities',
    collide restitution (positions, velocities)
      = Some (positions', velocities') ∧
    ∀ i p v axis, positions !! i = Some p → velocities !! i = Some v →
      ∃ v', velocities' !! i = Some v' ∧
        ((Vec.get axis p <? -1) = true → (Vec.get axis v' <? 0) = false) ∧
        ((1 <? Vec.get axis p) = true → (0 <? Vec.get axis v') = false).
Proof.
  intros Hr Hlen.
  destruct (collide_spec restitution positions velocities Hlen)
    as (ps' & vs' & Hrun & _ & _ & Hst & _).
  exists ps', vs'. split; [done|].
  intros i p v axis Hp Hv. destruct (Hst i p v Hp Hv) as [_ Hv'].
  eexists. split; [exact Hv'|].
  pose proof (collide_particle_get restitution p v axis) as Hget.
  pose proof (collide_component_not_outward restitution (Vec.get axis p)
                (Vec.get axis v) Hr) as Hcw.
  cbv zeta in Hget, Hcw. rewrite <- Hget in Hcw. exact Hcw.
Qed.

End ReversedVelocity.

(** ** The time step on binary64 numbers: the clamp, NaN, the box *)

Section FloatStep.
Local Open Scope float_scope.
Implicit Types (positions velocities forces : list (Vec3 float)).
Implicit Types (springs : list (Spring float)) (spring : Spring float).

Lemma clamp_dt_nan (dt : float) : is_nan dt = true → clamp_dt dt = ([], dt).
Proof.
  intros Hnan. unfold clamp_dt. simpl. by rewrite (ltb_nan_r _ dt Hnan).
Qed.

(** X7: the step the call uses is at most [0.05] unless [dt] is NaN; a
    warning is logged exactly when the step used is not [dt]; and a NaN
    [dt] is used as it is, without a warning ([NaN > 0.05] is false). *)
Theorem clamp_dt_bound (dt : float) :
  (is_nan dt = false → ((clamp_dt dt).2 <=? 0.05) = true) ∧
  ((clamp_dt dt).1 = [] ↔ (clamp_dt dt).2 = dt) ∧
  (is_nan dt = true → clamp_dt dt = ([], dt)).
Proof.
  split_and!; [| |exact (clamp_dt_nan dt)]; unfold clamp_dt; simpl.
  - intros Hnan. destruct (0.05 <? dt) eqn:Hlt; simpl; [done|].
    by apply ltb_false_leb.
  - destruct (0.05 <? dt) eqn:Hlt; simpl; [|done].
    split; [done|]. intros <-. discriminate.
Qed.

(** A particle under a NaN force, or stepped by a NaN [dt], is NaN in
    every component of its position and velocity after the collision
    pass. *)
Lemma nan_acceleration_nan_particle (restitution particleMass dt : float)
    (force p v : Vec3 float) :
  (∀ axis, is_nan (Vec.get axis force / particleMass * dt) = true) →
  let pv := collide_particle restitution (euler particleMass dt force p v) in
  all_components is_nan pv.1 = true ∧ all_components is_nan pv.2 = true.
Proof.
  intros Hnan. cbv zeta.
  assert (∀ axis,
    let pv := collide_particle restitution (euler particleMass dt force p v) in
    is_nan (Vec.get axis pv.1) = true ∧ is_nan (Vec.get axis pv.2) = true)
    as Hall.
  { intros axis. cbv zeta.
    pose proof (collide_particle_get restitution
                  (euler particleMass dt force p v).1
                  (euler particleMass dt force p v).2 axis) as Hget.
    cbv zeta in Hget. rewrite <- surjective_pairing in Hget.
    rewrite get_euler_position, get_euler_velocity in Hget.
    assert (is_nan (Vec.get axis v
                    + Vec.get axis force / particleMass * dt) = true) as Hv
      by (apply add_nan_r, Hnan).
    rewrite collide_component_nan in Hget
      by (apply add_nan_r, mul_nan_l, Hv).
    injection Hget as -> ->. split; [|exact Hv].
    apply add_nan_r, mul_nan_l, Hv. }
  split; apply all_components_get; intros axis; apply (Hall axis).
Qed.

(** X8: a NaN [dt] is not caught: on valid input the call completes
    without a warning and leaves NaN in every component of every position
    and velocity. *)
Theorem SimTimeStep_nan_dt (dt : float) positions velocities springs
    (stiffness damping particleMass : float) (gravity : Vec3 float)
    (restitution : float) :
  is_nan dt = true →
  valid_springs (length positions) springs →
  length positions = length velocities →
  ∃ positions' velocities',
    SimTimeStep dt positions velocities springs stiffness damping
      particleMass gravity restitution = ([], Some (positions', velocities')) ∧
    length positions' = length positions ∧
    length velocities' = length velocities ∧
    Forall (λ p, all_components is_nan p = true) positions' ∧
    Forall (λ v, all_components is_nan v = true) velocities'.
Proof.
  intros Hnan Hvalid Hlen.
  destruct (SimTimeStep_spec dt positions velocities springs stiffness damping
    particleMass gravity restitution Hvalid) as
    (sforces & ps' & vs' & Hsf & Hrun & Hpl & Hvl & Hst & _); [lia|].
  rewrite (clamp_dt_nan dt Hnan) in Hrun, Hst. cbn [fst snd] in Hrun, Hst.
  apply spring_forces_Some_inv in Hsf as [_ Hsl].
  exists ps', vs'. split_and!; [done|done|done| |].
  - apply Forall_lookup. intros i p' Hp'.
    assert (i < length positions) as Hi
      by (rewrite <- Hpl; by eapply lookup_lt_Some).
    destruct (lookup_lt_is_Some_2 sforces i) as [f Hf]; [lia|].
    destruct (lookup_lt_is_Some_2 positions i) as [p Hp]; [lia|].
    destruct (lookup_lt_is_Some_2 velocities i) as [v Hv]; [lia|].
    destruct (Hst i f p v Hf Hp Hv) as [Hp1 _]. cbv zeta in Hp1.
    rewrite Hp' in Hp1. injection Hp1 as ->.
    apply nan_acceleration_nan_particle. intros axis. by apply mul_nan_r.
  - apply Forall_lookup. intros i v' Hv'.
    assert (i < length positions) as Hi
      by (rewrite Hlen, <- Hvl; by eapply lookup_lt_Some).
    destruct (lookup_lt_is_Some_2 sforces i) as [f Hf]; [lia|].
    destruct (lookup_lt_is_Some_2 positions i) as [p Hp]; [lia|].
    destruct (lookup_lt_is_Some_2 velocities i) as [v Hv]; [lia|].
    destruct (Hst i f p v Hf Hp Hv) as [_ Hv1]. cbv zeta in Hv1.
    rewrite Hv' in Hv1. injection Hv1 as ->.
    apply nan_acceleration_nan_particle. intros axis. by apply mul_nan_r.
Qed.


(** One step keeps the NaN components, and a NaN velocity component makes
    the position component NaN. *)
Lemma SimTimeStep_keeps_nan (dt : float) positions velocities springs
    (stiffness damping particleMass : float) (gravity : Vec3 float)
    (restitution : float) :
  valid_springs (length positions) springs →
  length positions ≤ length velocities →
  ∃ positions' velocities',
    (SimTimeStep dt positions velocities springs stiffness damping
       particleMass gravity restitution).2 = Some (positions', velocities') ∧
    length positions' = length positions ∧
    length velocities' = length velocities ∧
    ∀ axis i,
      (nan_at axis i positions → nan_at axis i positions') ∧
      (nan_at axis i velocities → nan_at axis i velocities') ∧
      (nan_at axis i velocities → i < length positions →
       nan_at axis i positions').
Proof.
  intros Hvalid Hlen.
  destruct (SimTimeStep_spec dt positions velocities springs stiffness damping
    particleMass gravity restitution Hvalid Hlen) as
    (sforces & ps' & vs' & Hsf & -> & Hpl & Hvl & Hst & Hrest).
  apply spring_forces_Some_inv in Hsf as [_ Hsl].
  exists ps', vs'. split_and!; [done|done|done|].
  intros axis i.
  destruct (decide (i < length positions)) as [Hi|Hi].
  - destruct (lookup_lt_is_Some_2 sforces i) as [f Hf]; [lia|].
    destruct (lookup_lt_is_Some_2 positions i) as [p Hp]; [lia|].
    destruct (lookup_lt_is_Some_2 velocities i) as [v Hv]; [lia|].
    destruct (Hst i f p v Hf Hp Hv) as [Hp' Hv']. cbv zeta in Hp', Hv'.
    set (force := net_force damping particleMass gravity f v) in *.
    pose proof (collide_particle_get restitution
                  (euler particleMass (clamp_dt dt).2 force p v).1
                  (euler particleMass (clamp_dt dt).2 force p v).2 axis)
      as Hget.
    cbv zeta in Hget. rewrite <- surjective_pairing in Hget.
    rewrite get_euler_position, get_euler_velocity in Hget.
    split_and!.
    + intros (p0 & Hp0 & Hnan). rewrite Hp in Hp0. injection Hp0 as <-.
      eexists. split; [exact Hp'|].
      rewrite collide_component_nan in Hget by (by apply add_nan_l).
      injection Hget as -> _. by apply add_nan_l.
    + intros (v0 & Hv0 & Hnan). rewrite Hv in Hv0. injection Hv0 as <-.
      eexists. split; [exact Hv'|].
      apply (f_equal snd) in Hget. cbn [snd] in Hget. rewrite Hget.
      rewrite collide_component_nan_velocity; by apply add_nan_l.
    + intros (v0 & Hv0 & Hnan) _. rewrite Hv in Hv0. injection Hv0 as <-.
      eexists. split; [exact Hp'|].
      rewrite collide_component_nan in Hget
        by (by apply add_nan_r, mul_nan_l, add_nan_l).
      injection Hget as -> _. by apply add_nan_r, mul_nan_l, add_nan_l.
  - split_and!.
    + intros (p0 & Hp0 & _). apply lookup_lt_Some in Hp0. lia.
    + intros (v0 & Hv0 & Hnan). exists v0. split; [|done].
      rewrite Hrest by lia. done.
    + intros _ ?. lia.
Qed.

(** X9: NaN does not go away.  Over any number of calls on valid input,
    a position or velocity component that is NaN stays NaN, and from the
    first call on a NaN velocity component has made the position
    component NaN. *)
Theorem nan_persists (n : nat) (dt : float) positions velocities springs
    (stiffness damping particleMass : float) (gravity : Vec3 float)
    (restitution : float) :
  valid_springs (length positions) springs →
  length positions ≤ length velocities →
  ∃ positions' velocities',
    iterate n dt positions velocities springs stiffness damping particleMass
      gravity restitution = Some (positions', velocities') ∧
    ∀ axis i,
      (nan_at axis i positions → nan_at axis i positions') ∧
      (nan_at axis i velocities → nan_at axis i velocities') ∧
      (nan_at axis i velocities → i < length positions → 0 < n →
       nan_at axis i positions').
Proof.
  intros Hvalid Hlen.
  assert (∃ positions' velocities',
    iterate n dt positions velocities springs stiffness damping particleMass
      gravity restitution = Some (positions', velocities') ∧
    length positions' = length positions ∧
    length velocities' = length velocities ∧
    ∀ axis i,
      (nan_at axis i positions → nan_at axis i positions') ∧
      (nan_at axis i velocities → nan_at axis i velocities') ∧
      (nan_at axis i velocities → i < length positions → 0 < n →
       nan_at axis i positions')) as (ps' & vs' & Hrun & _ & _ & Hnan);
    [|by exists ps', vs'].
  revert positions velocities Hvalid Hlen.
  induction n as [|n IH]; intros positions velocities Hvalid Hlen.
  - exists positions, velocities. split_and!; [done|done|done|].
    intros axis i. split_and!; [done|done|lia].
  - destruct (SimTimeStep_keeps_nan dt positions velocities springs stiffness
      damping particleMass gravity restitution Hvalid Hlen)
      as (ps1 & vs1 & Hrun1 & Hpl1 & Hvl1 & Hnan1).
    destruct (IH ps1 vs1) as (ps' & vs' & Hrun & Hpl & Hvl & Hnan);
      [by rewrite Hpl1|lia|].
    exists ps', vs'. cbn [iterate]. rewrite Hrun1. simpl.
    split_and!; [done|lia|lia|].
    intros axis i. destruct (Hnan1 axis i) as (H1 & H2 & H3).
    destruct (Hnan axis i) as (H1' & H2' & _). split_and!; auto.
Qed.

End FloatStep.

(** ** Degenerate input (binary64) *)

Section Degenerate.
Local Open Scope float_scope.
Implicit Types (positions velocities forces : list (Vec3 float)).
Implicit Types (springs : list (Spring float)) (spring : Spring float).

(** The direction of a spring from a position to itself is NaN, finite
    position or not. *)
Lemma unit_self_nan (pos : Vec3 float) :
  all_components is_nan (Vec.unit (Vec.sub pos pos)) = true.
Proof.
  assert (∀ axis, zero_or_nan (Vec.get axis (Vec.sub pos pos)) = true) as Hd.
  { intros axis. rewrite get_sub. apply zero_or_nan_sub_self. }
  assert (zero_or_nan (Vec.len (Vec.sub pos pos)) = true) as Hlen.
  { unfold Vec.len. apply zero_or_nan_sqrt.
    pose proof (Hd Ax) as Hx. pose proof (Hd Ay) as Hy.
    pose proof (Hd Az) as Hz. cbn [Vec.get] in Hx, Hy, Hz.
    repeat apply zero_or_nan_add; by apply zero_or_nan_mul. }
  apply all_components_get. intros axis. unfold Vec.unit.
  rewrite get_div. by apply zero_or_nan_div.
Qed.

Lemma spring_force_self_nan (stiffness rest : float) (pos : Vec3 float) :
  all_components is_nan (spring_force stiffness pos pos rest) = true.
Proof.
  apply all_components_get. intros axis. unfold spring_force.
  rewrite get_mul. apply mul_nan_l.
  by apply (proj1 (all_components_get _ _) (unit_self_nan pos)).
Qed.

(** A NaN accumulator stays NaN under every spring. *)
Lemma spring_step_keeps_nan (stiffness : float) positions forces spring
    forces' (i : nat) (f : Vec3 float) :
  spring_step stiffness positions forces spring = Some forces' →
  forces !! i = Some f → all_components is_nan f = true →
  ∃ f', forces' !! i = Some f' ∧ all_components is_nan f' = true.
Proof.
  intros (pos0 & pos1 & forces1 & _ & _ & H1 & H2)%spring_step_Some Hf Hnan.
  rewrite (update_lookup _ i _ _ _ H2), (update_lookup _ i _ _ _ H1), Hf.
  rewrite all_components_get in Hnan.
  repeat case_decide; simpl; eexists; (split; [done|]);
    apply all_components_get; intros axis;
    rewrite ?get_dec, ?get_inc; auto using sub_nan_l, add_nan_l.
Qed.

(** A spring from particle [i] to itself makes its accumulator NaN. *)
Lemma spring_step_self_nan (stiffness : float) positions forces spring
    forces' :
  spring_step stiffness positions forces spring = Some forces' →
  p0 spring = p1 spring →
  ∃ f', forces' !! p0 spring = Some f' ∧ all_components is_nan f' = true.
Proof.
  intros (pos0 & pos1 & forces1 & Hp0 & Hp1 & H1 & H2)%spring_step_Some Heq.
  rewrite <- Heq in Hp1, H2. rewrite Hp0 in Hp1. injection Hp1 as <-.
  rewrite (update_lookup _ _ _ _ _ H2), (update_lookup _ _ _ _ _ H1).
  rewrite !decide_True by done.
  apply update_Some in H1 as (f & -> & _). simpl.
  eexists. split; [done|]. apply all_components_get. intros axis.
  rewrite get_dec. apply sub_nan_r.
  by apply (proj1 (all_components_get _ _)
              (spring_force_self_nan stiffness (rest spring) pos0)).
Qed.

Lemma forEach_spring_step_keeps_nan (stiffness : float) positions springs
    forces forces' (i : nat) (f : Vec3 float) :
  forEach (spring_step stiffness positions) springs forces = Some forces' →
  forces !! i = Some f → all_components is_nan f = true →
  ∃ f', forces' !! i = Some f' ∧ all_components is_nan f' = true.
Proof.
  intros Hrun Hf Hnan.
  apply (forEach_Some_inv
    (λ t, ∃ f', t !! i = Some f' ∧ all_components is_nan f' = true)
    _ _ _ _ Hrun); [eauto|].
  intros spring t t' _ (f1 & Hf1 & Hnan1) Hstep.
  by eapply spring_step_keeps_nan.
Qed.

Lemma spring_forces_self_nan (stiffness : float) positions springs sforces
    spring :
  spring_forces stiffness positions springs = Some sforces →
  spring ∈ springs → p0 spring = p1 spring →
  ∃ f, sforces !! p0 spring = Some f ∧ all_components is_nan f = true.
Proof.
  unfold spring_forces. generalize (init_forces positions) as forces.
  induction springs as [|s springs IH]; intros forces Hrun Hin Heq.
  - by apply elem_of_nil in Hin.
  - cbn [forEach] in Hrun.
    destruct (spring_step stiffness positions forces s) as [t|] eqn:Hstep;
      [|discriminate].
    simpl in Hrun. apply elem_of_cons in Hin as [->|Hin].
    + destruct (spring_step_self_nan _ _ _ _ _ Hstep Heq) as (f & Hf & Hnan).
      by eapply forEach_spring_step_keeps_nan.
    + by eapply IH.
Qed.

(** X10: a spring whose two ends are the same particle is not refused:
    whatever the state and the parameters, the call completes on valid
    input and leaves NaN in every component of that particle's position
    and velocity. *)
Theorem self_spring_gives_nan (dt : float) positions velocities springs
    (stiffness damping particleMass : float) (gravity : Vec3 float)
    (restitution : float) spring :
  valid_springs (length positions) springs →
  length positions ≤ length velocities →
  spring ∈ springs → p0 spring = p1 spring →
  ∃ positions' velocities' p' v',
    (SimTimeStep dt positions velocities springs stiffness damping
       particleMass gravity restitution).2 = Some (positions', velocities') ∧
    positions' !! p0 spring = Some p' ∧ velocities' !! p0 spring = Some v' ∧
    all_components is_nan p' = true ∧ all_components is_nan v' = true.
Proof.
  intros Hvalid Hlen Hin Heq.
  destruct (SimTimeStep_spec dt positions velocities springs stiffness damping
    particleMass gravity restitution Hvalid Hlen) as
    (sforces & ps' & vs' & Hsf & -> & Hpl & Hvl & Hst & _).
  destruct (spring_forces_self_nan _ _ _ _ _ Hsf Hin Heq) as (f & Hf & Hnan).
  destruct (proj1 (Forall_forall _ _) Hvalid spring Hin) as [Hi _].
  destruct (lookup_lt_is_Some_2 positions (p0 spring)) as [p Hp]; [lia|].
  destruct (lookup_lt_is_Some_2 velocities (p0 spring)) as [v Hv]; [lia|].
  destruct (Hst _ f p v Hf Hp Hv) as [Hp' Hv']. cbv zeta in Hp', Hv'.
  eexists ps', vs', _, _. split_and!; [done|exact Hp'|exact Hv'| |];
    apply nan_acceleration_nan_particle; intros axis;
    rewrite get_net_force; apply mul_nan_l, div_nan_l, sub_nan_l, add_nan_l;
    by apply (proj1 (all_components_get _ _) Hnan).
Qed.

(** X11: a zero mass is not refused.  Without damping, a particle that no
    spring names gets the acceleration [0 / 0]: whatever its state, the
    gravity and [dt], the call leaves NaN in every component of its
    position and velocity. *)
Theorem zero_mass_gives_nan (dt : float) positions velocities springs
    (stiffness damping particleMass : float) (gravity : Vec3 float)
    (restitution : float) (i : nat) :
  valid_springs (length positions) springs →
  length positions ≤ length velocities →
  i < length positions →
  Forall (λ spring, p0 spring ≠ i ∧ p1 spring ≠ i) springs →
  is_zero particleMass = true → is_zero damping = true →
  ∃ positions' velocities' p' v',
    (SimTimeStep dt positions velocities springs stiffness damping
       particleMass gravity restitution).2 = Some (positions', velocities') ∧
    positions' !! i = Some p' ∧ velocities' !! i = Some v' ∧
    all_components is_nan p' = true ∧ all_components is_nan v' = true.
Proof.
  intros Hvalid Hlen Hi Hfree Hm Hd.
  destruct (SimTimeStep_spec dt positions velocities springs stiffness damping
    particleMass gravity restitution Hvalid Hlen) as
    (sforces & ps' & vs' & Hsf & -> & Hpl & Hvl & Hst & _).
  destruct (lookup_lt_is_Some_2 positions i) as [p Hp]; [lia|].
  destruct (lookup_lt_is_Some_2 velocities i) as [v Hv]; [lia|].
  pose proof (spring_forces_unattached _ _ _ _ _ _ Hsf Hp Hfree) as Hzero.
  destruct (Hst _ _ p v Hzero Hp Hv) as [Hp' Hv']. cbv zeta in Hp', Hv'.
  eexists ps', vs', _, _. split_and!; [done|exact Hp'|exact Hv'| |];
    apply nan_acceleration_nan_particle; intros axis;
    rewrite get_net_force; apply mul_nan_l, zero_or_nan_div;
    try (unfold zero_or_nan; by rewrite Hm);
    (apply zero_or_nan_sub; [apply zero_or_nan_add|]);
    [by destruct axis|by apply zero_or_nan_mul_zero
    |by apply zero_or_nan_mul_zero
    |by destruct axis|by apply zero_or_nan_mul_zero
    |by apply zero_or_nan_mul_zero].
Qed.

(** X12: validity is kept by the step, so on valid input any number of
    calls complete, with as many positions and velocities as at the
    start; and from the first call on, every position coordinate that is
    not NaN lies in [[-1, 1]]. *)
Theorem iterate_stays_in_box (n : nat) (dt : float) positions velocities
    springs (stiffness damping particleMass : float) (gravity : Vec3 float)
    (restitution : float) :
  valid_springs (length positions) springs →
  length positions ≤ length velocities →
  ∃ positions' velocities',
    iterate n dt positions velocities springs stiffness damping particleMass
      gravity restitution = Some (positions', velocities') ∧
    length positions' = length positions ∧
    length velocities' = length velocities ∧
    (0 < n → ∀ i p axis, positions' !! i = Some p →
       is_nan (Vec.get axis p) = false →
       (-1 <=? Vec.get axis p) = true ∧ (Vec.get axis p <=? 1) = true).
Proof.
  intros Hvalid Hlen.
  set (Inv := λ (ps vs : list (Vec3 float)),
    length ps = length positions ∧ length vs = length velocities ∧
    ∀ i p axis, ps !! i = Some p → is_nan (Vec.get axis p) = false →
      (-1 <=? Vec.get axis p) = true ∧ (Vec.get axis p <=? 1) = true).
  assert (∀ ps vs,
    length ps = length positions → length vs = length velocities →
    ∃ ps' vs',
      (SimTimeStep dt ps vs springs stiffness damping particleMass gravity
         restitution).2 = Some (ps', vs') ∧ Inv ps' vs') as Hstep.
  { intros ps vs Hpl Hvl.
    destruct (SimTimeStep_spec dt ps vs springs stiffness damping
      particleMass gravity restitution) as
      (sforces & ps' & vs' & Hsf & -> & Hpl' & Hvl' & Hst & _);
      [by rewrite Hpl|lia|].
    apply spring_forces_Some_inv in Hsf as [_ Hsl].
    exists ps', vs'. split; [done|]. split_and!; [lia|lia|].
    intros i p' axis Hp' Hnan.
    assert (i < length ps) as Hi by (rewrite <- Hpl'; by eapply lookup_lt_Some).
    destruct (lookup_lt_is_Some_2 sforces i) as [f Hf]; [lia|].
    destruct (lookup_lt_is_Some_2 ps i) as [p Hp]; [lia|].
    destruct (lookup_lt_is_Some_2 vs i) as [v Hv]; [lia|].
    destruct (Hst i f p v Hf Hp Hv) as [Hp1 _]. cbv zeta in Hp1.
    rewrite Hp' in Hp1. injection Hp1 as ->.
    destruct (euler particleMass (clamp_dt dt).2
                (net_force damping particleMass gravity f v) p v) as [p1 v1].
    pose proof (collide_particle_get restitution p1 v1 axis) as Hget.
    cbv zeta in Hget. apply (f_equal fst) in Hget. cbn [fst] in Hget.
    rewrite Hget in Hnan |- *. by apply collide_component_within. }
  destruct n as [|n].
  - exists positions, velocities. split_and!; [done|done|done|lia].
  - destruct (Hstep positions velocities eq_refl eq_refl)
      as (ps1 & vs1 & Hrun1 & Hinv1).
    destruct (iterate_inv Inv dt springs stiffness damping particleMass
      gravity restitution) with (n := n) (ps := ps1) (vs := vs1)
      as (ps' & vs' & Hrun & Hpl & Hvl & Hbox); [|done|].
    { intros ps vs (Hpl & Hvl & _). by apply Hstep. }
    exists ps', vs'. cbn [iterate]. rewrite Hrun1. simpl.
    split_and!; [done|done|done|]. intros _. exact Hbox.
Qed.

End Degenerate.

(** ** Infinities and NaN together (binary64) *)

Section NotFinite.
Local Open Scope float_scope.

Lemma not_finite_spec (a : float) :
  not_finite a = match Prim2SF a with
                 | S754_infinity _ | S754_nan => true
                 | _ => false
                 end.
Proof.
  unfold not_finite. rewrite is_finite_spec. by destruct (Prim2SF a).
Qed.

Lemma not_finite_add_l (a b : float) :
  not_finite a = true → not_finite (a + b) = true.
Proof.
  rewrite !not_finite_spec, add_spec.
  destruct (Prim2SF a) as [sa|sa| |sa ma ea], (Prim2SF b) as [sb|sb| |sb mb eb];
    try done; by destruct sa, sb.
Qed.

Lemma not_finite_add_r (a b : float) :
  not_finite b = true → not_finite (a + b) = true.
Proof.
  rewrite !not_finite_spec, add_spec.
  destruct (Prim2SF a) as [sa|sa| |sa ma ea], (Prim2SF b) as [sb|sb| |sb mb eb];
    try done; by destruct sa, sb.
Qed.

Lemma not_finite_sub_l (a b : float) :
  not_finite a = true → not_finite (a - b) = true.
Proof.
  rewrite !not_finite_spec, sub_spec.
  destruct (Prim2SF a) as [sa|sa| |sa ma ea], (Prim2SF b) as [sb|sb| |sb mb eb];
    try done; by destruct sa, sb.
Qed.

Lemma not_finite_sub_r (a b : float) :
  not_finite b = true → not_finite (a - b) = true.
Proof.
  rewrite !not_finite_spec, sub_spec.
  destruct (Prim2SF a) as [sa|sa| |sa ma ea], (Prim2SF b) as [sb|sb| |sb mb eb];
    try done; by destruct sa, sb.
Qed.

Lemma not_finite_mul_l (a b : float) :
  not_finite a = true → not_finite (a * b) = true.
Proof.
  rewrite !not_finite_spec, mul_spec.
  by destruct (Prim2SF a), (Prim2SF b).
Qed.

Lemma not_finite_div_l (a b : float) :
  not_finite a = true → not_finite (a / b) = true.
Proof.
  rewrite !not_finite_spec, div_spec.
  by destruct (Prim2SF a), (Prim2SF b).
Qed.

(** Any number over a zero. *)
Lemma not_finite_div_zero (a b : float) :
  is_zero b = true → not_finite (a / b) = true.
Proof.
  rewrite is_zero_spec, not_finite_spec, div_spec.
  by destruct (Prim2SF a), (Prim2SF b).
Qed.

(** A number that is not finite is below [-1], above [1], or NaN. *)
Lemma not_finite_cases (a : float) :
  not_finite a = true →
  (a <? -1) = true ∨ (1 <? a) = true ∨ is_nan a = true.
Proof.
  rewrite not_finite_spec, is_nan_spec, !FloatAxioms.ltb_spec.
  replace (Prim2SF 1) with (S754_finite false 4503599627370496 (-52))
    by reflexivity.
  replace (Prim2SF (-1)) with (S754_finite true 4503599627370496 (-52))
    by reflexivity.
  destruct (Prim2SF a) as [s|[]| |s m e]; try done; auto.
Qed.

End NotFinite.

(** ** A spring of length zero (binary64) *)

Section ZeroLengthSpring.
Local Open Scope float_scope.
Implicit Types (positions velocities forces : list (Vec3 float)).
Implicit Types (springs : list (Spring float)) (spring : Spring float).

(** The force of a spring of length zero has no finite component. *)
Lemma spring_force_zero_length (stiffness rest : float) (pos0 pos1 : Vec3 float) :
  is_zero (Vec.len (Vec.sub pos1 pos0)) = true →
  all_components not_finite (spring_force stiffness pos0 pos1 rest) = true.
Proof.
  intros Hlen. apply all_components_get. intros axis. unfold spring_force.
  rewrite get_mul. apply not_finite_mul_l. unfold Vec.unit.
  rewrite get_div. by apply not_finite_div_zero.
Qed.

(** An accumulator without a finite component stays so under every
    spring. *)
Lemma spring_step_keeps_not_finite (stiffness : float) positions forces
    spring forces' (i : nat) (f : Vec3 float) :
  spring_step stiffness positions forces spring = Some forces' →
  forces !! i = Some f → all_components not_finite f = true →
  ∃ f', forces' !! i = Some f' ∧ all_components not_finite f' = true.
Proof.
  intros (pos0 & pos1 & forces1 & _ & _ & H1 & H2)%spring_step_Some Hf Hnf.
  rewrite (update_lookup _ i _ _ _ H2), (update_lookup _ i _ _ _ H1), Hf.
  rewrite all_components_get in Hnf.
  repeat case_decide; simpl; eexists; (split; [done|]);
    apply all_components_get; intros axis;
    rewrite ?get_dec, ?get_inc;
    auto using not_finite_sub_l, not_finite_add_l.
Qed.

(** The spring of length zero leaves no finite component in the
    accumulators of its two ends. *)
Lemma spring_step_zero_length (stiffness : float) positions forces spring
    forces' (pos0 pos1 : Vec3 float) (i : nat) :
  spring_step stiffness positions forces spring = Some forces' →
  positions !! p0 spring = Some pos0 → positions !! p1 spring = Some pos1 →
  is_zero (Vec.len (Vec.sub pos1 pos0)) = true →
  i = p0 spring ∨ i = p1 spring →
  ∃ f', forces' !! i = Some f' ∧ all_components not_finite f' = true.
Proof.
  intros (q0 & q1 & forces1 & Hq0 & Hq1 & H1 & H2)%spring_step_Some
    Hp0 Hp1 Hlen Hi.
  rewrite Hp0 in Hq0. rewrite Hp1 in Hq1.
  injection Hq0 as <-. injection Hq1 as <-.
  pose proof (spring_force_zero_length stiffness (rest spring) pos0 pos1 Hlen)
    as Hsf.
  rewrite all_components_get in Hsf.
  rewrite (update_lookup _ i _ _ _ H2), (update_lookup _ i _ _ _ H1).
  assert (is_Some (forces !! i)) as [f Hf].
  { apply lookup_lt_is_Some.
    destruct Hi as [-> | ->].
    - apply update_Some in H1 as (a & Ha & _). by eapply lookup_lt_Some.
    - apply update_Some in H2 as (a & Ha & _).
      apply update_length in H1. rewrite <- H1. by eapply lookup_lt_Some. }
  rewrite Hf.
  repeat case_decide; simpl;
    try (exfalso; destruct Hi; congruence);
    eexists; (split; [done|]);
    apply all_components_get; intros axis;
    rewrite ?get_dec, ?get_inc;
    auto using not_finite_sub_r, not_finite_add_r.
Qed.

Lemma spring_forces_zero_length (stiffness : float) positions springs
    sforces spring (pos0 pos1 : Vec3 float) (i : nat) :
  spring_forces stiffness positions springs = Some sforces →
  spring ∈ springs →
  positions !! p0 spring = Some pos0 → positions !! p1 spring = Some pos1 →
  is_zero (Vec.len (Vec.sub pos1 pos0)) = true →
  i = p0 spring ∨ i = p1 spring →
  ∃ f, sforces !! i = Some f ∧ all_components not_finite f = true.
Proof.
  unfold spring_forces. generalize (init_forces positions) as forces.
  induction springs as [|s springs IH];
    intros forces Hrun Hin Hp0 Hp1 Hlen Hi.
  - by apply elem_of_nil in Hin.
  - cbn [forEach] in Hrun.
    destruct (spring_step stiffness positions forces s) as [t|] eqn:Hstep;
      [|discriminate].
    simpl in Hrun. apply elem_of_cons in Hin as [->|Hin].
    + destruct (spring_step_zero_length _ _ _ _ _ _ _ i Hstep Hp0 Hp1 Hlen Hi)
        as (f & Hf & Hnf).
      apply (forEach_Some_inv
        (λ t, ∃ f', t !! i = Some f' ∧ all_components not_finite f' = true)
        _ _ _ _ Hrun); [eauto|].
      intros spring' u u' _ (f1 & Hf1 & Hnf1) Hstep'.
      by eapply spring_step_keeps_not_finite.
    + by eapply IH.
Qed.

(** A particle under a force without a finite component. *)
Lemma not_finite_force_particle (restitution particleMass dt damping : float)
    (gravity f p v : Vec3 float) :
  all_components not_finite f = true →
  let pv := collide_particle restitution
              (euler particleMass dt
                 (net_force damping particleMass gravity f v) p v) in
  ∀ axis,
    not_finite (Vec.get axis pv.2) = true ∧
    (Vec.get axis pv.1 = -1 ∨ Vec.get axis pv.1 = 1 ∨
     is_nan (Vec.get axis pv.1) = true).
Proof.
  intros Hf. rewrite all_components_get in Hf. cbv zeta. intros axis.
  set (e := euler particleMass dt
              (net_force damping particleMass gravity f v) p v).
  pose proof (collide_particle_get restitution e.1 e.2 axis) as Hget.
  cbv zeta in Hget. rewrite <- surjective_pairing in Hget.
  assert (not_finite (Vec.get axis e.2) = true) as Hv.
  { unfold e. rewrite get_euler_velocity, get_net_force.
    apply not_finite_add_r, not_finite_mul_l, not_finite_div_l,
      not_finite_sub_l, not_finite_add_l, Hf. }
  assert (not_finite (Vec.get axis e.1) = true) as Hp.
  { unfold e. rewrite get_euler_position. unfold e in Hv.
    rewrite get_euler_velocity in Hv.
    by apply not_finite_add_r, not_finite_mul_l. }
  revert Hget. generalize (Vec.get axis e.1) (Vec.get axis e.2) Hv Hp.
  intros c w Hw Hc Hget.
  apply (f_equal fst) in Hget as Hget1. apply (f_equal snd) in Hget as Hget2.
  cbn [fst snd] in Hget1, Hget2. rewrite Hget1, Hget2. clear Hget Hget1 Hget2.
  unfold collide_component, minBound, maxBound. simpl.
  change (- (1)) with (-1).
  destruct (not_finite_cases c Hc) as [Hlow | [Hhigh | Hnan]].
  - rewrite Hlow. simpl. split; [|by left].
    destruct (w <? 0); [by apply not_finite_mul_l|done].
  - rewrite (above_1_not_below c Hhigh), Hhigh. simpl. split; [|by right; left].
    destruct (0 <? w); [by apply not_finite_mul_l|done].
  - rewrite (ltb_nan_l c _ Hnan), (ltb_nan_r _ c Hnan). simpl.
    split; [done|by right; right].
Qed.

(** X13: a spring whose current length is zero on binary64 numbers (its
    ends coincide, or are so close that the squares underflow) makes the
    direction infinite or NaN, and nothing stops it: on valid input the
    call completes, and for each of the two ends no velocity component is
    finite afterwards, and every position component is NaN or has been
    put on a wall ([-1] or [1]), whatever the particles were doing and
    whatever the parameters. *)
Theorem zero_length_spring_destroys (dt : float) positions velocities springs
    (stiffness damping particleMass : float) (gravity : Vec3 float)
    (restitution : float) spring (pos0 pos1 : Vec3 float) (i : nat) :
  valid_springs (length positions) springs →
  length positions ≤ length velocities →
  spring ∈ springs →
  positions !! p0 spring = Some pos0 → positions !! p1 spring = Some pos1 →
  is_zero (Vec.len (Vec.sub pos1 pos0)) = true →
  i = p0 spring ∨ i = p1 spring →
  ∃ positions' velocities' p' v',
    (SimTimeStep dt positions velocities springs stiffness damping
       particleMass gravity restitution).2 = Some (positions', velocities') ∧
    positions' !! i = Some p' ∧ velocities' !! i = Some v' ∧
    ∀ axis,
      not_finite (Vec.get axis v') = true ∧
      (Vec.get axis p' = -1 ∨ Vec.get axis p' = 1 ∨
       is_nan (Vec.get axis p') = true).
Proof.
  intros Hvalid Hlen Hin Hp0 Hp1 Hzero Hi.
  destruct (SimTimeStep_spec dt positions velocities springs stiffness damping
    particleMass gravity restitution Hvalid Hlen) as
    (sforces & ps' & vs' & Hsf & -> & Hpl & Hvl & Hst & _).
  destruct (spring_forces_zero_length _ _ _ _ _ _ _ i Hsf Hin Hp0 Hp1 Hzero Hi)
    as (f & Hf & Hnf).
  assert (i < length positions) as Hilt.
  { destruct Hi as [-> | ->]; by eapply lookup_lt_Some. }
  destruct (lookup_lt_is_Some_2 positions i) as [p Hp]; [lia|].
  destruct (lookup_lt_is_Some_2 velocities i) as [v Hv]; [lia|].
  destruct (Hst _ f p v Hf Hp Hv) as [Hp' Hv']. cbv zeta in Hp', Hv'.
  eexists ps', vs', _, _. split_and!; [done|exact Hp'|exact Hv'|].
  by apply not_finite_force_particle.
Qed.

End ZeroLengthSpring.

Section StepWitnesses.
Local Open Scope float_scope.

Lemma valid_three : valid_springs (length three_positions) one_spring.
Proof. repeat constructor. Qed.

Lemma SimTimeStep_spare_velocities_witness :
  (valid_springs (length two_positions) one_spring ∧
   length two_positions ≤ length three_velocities) ∧
  ∃ positions' velocities',
    (SimTimeStep 0.01 two_positions three_velocities one_spring 2 0.5 2
       (mkVec3 0 (-10) 0) 0.5).2 = Some (positions', velocities') ∧
    length positions' = length two_positions ∧
    drop (length two_positions) velocities'
    = drop (length two_positions) three_velocities.
Proof.
  split; [split; [exact valid_one_spring|simpl; lia]|].
  exact (SimTimeStep_spare_velocities (F := float) 0.01 two_positions
           three_velocities one_spring 2 0.5 2 (mkVec3 0 (-10) 0) 0.5
           valid_one_spring ltac:(simpl; lia)).
Defined.

Lemma unattached_particle_moves_alone_witness :
  (valid_springs (length three_positions) one_spring ∧
   length three_positions ≤ length three_velocities ∧
   three_positions !! 2%nat = Some (mkVec3 0 0.5 0) ∧
   three_velocities !! 2%nat = Some (mkVec3 0.125 0 0) ∧
   Forall (λ spring, p0 spring ≠ 2%nat ∧ p1 spring ≠ 2%nat) one_spring) ∧
  ∃ sforces positions' velocities',
    spring_forces 2 three_positions one_spring = Some sforces ∧
    sforces !! 2%nat = Some (mkVec3 0 0 0) ∧
    (SimTimeStep 0.01 three_positions three_velocities one_spring 2 0.5 2
       (mkVec3 0 (-10) 0) 0.5).2 = Some (positions', velocities') ∧
    let pv := collide_particle 0.5
                (euler 2 (clamp_dt 0.01).2
                   (net_force 0.5 2 (mkVec3 0 (-10) 0) (mkVec3 0 0 0)
                      (mkVec3 0.125 0 0))
                   (mkVec3 0 0.5 0) (mkVec3 0.125 0 0)) in
    positions' !! 2%nat = Some pv.1 ∧ velocities' !! 2%nat = Some pv.2.
Proof.
  assert (Forall (λ spring : Spring float,
            p0 spring ≠ 2%nat ∧ p1 spring ≠ 2%nat) one_spring) as Hfree
    by (repeat constructor; simpl; lia).
  split; [split_and!; [exact valid_three|simpl; lia|reflexivity..|exact Hfree]|].
  exact (unattached_particle_moves_alone (F := float) 0.01 three_positions
           three_velocities one_spring 2 0.5 2 (mkVec3 0 (-10) 0) 0.5 2%nat
           (mkVec3 0 0.5 0) (mkVec3 0.125 0 0) valid_three
           ltac:(simpl; lia) eq_refl eq_refl Hfree).
Defined.

Lemma collide_idempotent_witness :
  (length [mkVec3 2 0 0] ≤ length [mkVec3 1 0 0]) ∧
  ∃ st, collide 0.5 ([mkVec3 2 0 0], [mkVec3 1 0 0]) = Some st ∧
        collide 0.5 st = Some st.
Proof.
  split; [simpl; lia|].
  exact (collide_idempotent 0.5 [mkVec3 2 0 0] [mkVec3 1 0 0]
           ltac:(simpl; lia)).
Defined.

Lemma collide_never_outward_witness :
  ((0 <=? 0.5) = true ∧ length [mkVec3 2 0 0] ≤ length [mkVec3 1 0 0]) ∧
  ∃ positions' velocities',
    collide 0.5 ([mkVec3 2 0 0], [mkVec3 1 0 0])
      = Some (positions', velocities') ∧
    ∀ i p v axis, [mkVec3 2 0 0] !! i = Some p →
      [mkVec3 1 0 0] !! i = Some v →
      ∃ v', velocities' !! i = Some v' ∧
        ((Vec.get axis p <? -1) = true → (Vec.get axis v' <? 0) = false) ∧
        ((1 <? Vec.get axis p) = true → (0 <? Vec.get axis v') = false).
Proof.
  split; [split; [reflexivity|simpl; lia]|].
  exact (collide_never_outward 0.5 [mkVec3 2 0 0] [mkVec3 1 0 0] eq_refl
           ltac:(simpl; lia)).
Defined.

Lemma SimTimeStep_nan_dt_witness :
  (is_nan nan = true ∧ valid_springs (length two_positions) one_spring ∧
   length two_positions = length two_velocities) ∧
  ∃ positions' velocities',
    SimTimeStep nan two_positions two_velocities one_spring 2 0.5 2
      (mkVec3 0 (-10) 0) 0.5 = ([], Some (positions', velocities')) ∧
    length positions' = length two_positions ∧
    length velocities' = length two_velocities ∧
    Forall (λ p, all_components is_nan p = true) positions' ∧
    Forall (λ v, all_components is_nan v = true) velocities'.
Proof.
  split; [split_and!; [reflexivity|exact valid_one_spring|reflexivity]|].
  exact (SimTimeStep_nan_dt nan two_positions two_velocities one_spring
           2 0.5 2 (mkVec3 0 (-10) 0) 0.5 eq_refl valid_one_spring eq_refl).
Defined.

Lemma valid_nan_state : valid_springs (length nan_positions) one_spring.
Proof. repeat constructor. Qed.

(** Three steps from a NaN [x] position of the first particle and a NaN
    [y] velocity of the second: both are still NaN, and the [y] position
    of the second particle is NaN too. *)
Lemma nan_persists_witness :
  (valid_springs (length nan_positions) one_spring ∧
   length nan_positions ≤ length nan_velocities ∧
   nan_at Ax 0 nan_positions ∧ nan_at Ay 1 nan_velocities ∧
   1 < length nan_positions ∧ 0 < 3) ∧
  ∃ positions' velocities',
    iterate 3 0.01 nan_positions nan_velocities one_spring 2 0.5 2
      (mkVec3 0 (-10) 0) 0.5 = Some (positions', velocities') ∧
    nan_at Ax 0 positions' ∧ nan_at Ay 1 velocities' ∧
    nan_at Ay 1 positions'.
Proof.
  assert (nan_at Ax 0 nan_positions) as Hp
    by (eexists; split; reflexivity).
  assert (nan_at Ay 1 nan_velocities) as Hv
    by (eexists; split; reflexivity).
  split; [split_and!; [exact valid_nan_state|simpl; lia|exact Hp|exact Hv
                      |simpl; lia|lia]|].
  destruct (nan_persists 3 0.01 nan_positions nan_velocities one_spring
              2 0.5 2 (mkVec3 0 (-10) 0) 0.5 valid_nan_state
              ltac:(simpl; lia)) as (positions' & velocities' & Hrun & Hnan).
  exists positions', velocities'.
  split; [exact Hrun|]. split_and!.
  - exact (proj1 (Hnan Ax 0%nat) Hp).
  - exact (proj1 (proj2 (Hnan Ay 1%nat)) Hv).
  - exact (proj2 (proj2 (Hnan Ay 1%nat)) Hv ltac:(simpl; lia) ltac:(lia)).
Defined.

Lemma self_spring_gives_nan_witness :
  (valid_springs (length two_positions) [self_spring] ∧
   length two_positions ≤ length two_velocities ∧
   self_spring ∈ [self_spring] ∧ p0 self_spring = p1 self_spring) ∧
  ∃ positions' velocities' p' v',
    (SimTimeStep 0.01 two_positions two_velocities [self_spring] 2 0.5 2
       (mkVec3 0 (-10) 0) 0.5).2 = Some (positions', velocities') ∧
    positions' !! p0 self_spring = Some p' ∧
    velocities' !! p0 self_spring = Some v' ∧
    all_components is_nan p' = true ∧ all_components is_nan v' = true.
Proof.
  assert (valid_springs (length two_positions) [self_spring]) as Hvalid
    by (repeat constructor).
  split; [split_and!; [exact Hvalid|simpl; lia|apply list_elem_of_here
                      |reflexivity]|].
  exact (self_spring_gives_nan 0.01 two_positions two_velocities
           [self_spring] 2 0.5 2 (mkVec3 0 (-10) 0) 0.5 self_spring Hvalid
           ltac:(simpl; lia) (list_elem_of_here _ _) eq_refl).
Defined.

Lemma zero_mass_gives_nan_witness :
  (valid_springs (length three_positions) one_spring ∧
   length three_positions ≤ length three_velocities ∧
   2 < length three_positions ∧
   Forall (λ spring, p0 spring ≠ 2%nat ∧ p1 spring ≠ 2%nat) one_spring ∧
   is_zero 0 = true ∧ is_zero 0 = true) ∧
  ∃ positions' velocities' p' v',
    (SimTimeStep 0.01 three_positions three_velocities one_spring 2 0 0
       (mkVec3 0 (-10) 0) 0.5).2 = Some (positions', velocities') ∧
    positions' !! 2%nat = Some p' ∧ velocities' !! 2%nat = Some v' ∧
    all_components is_nan p' = true ∧ all_components is_nan v' = true.
Proof.
  assert (Forall (λ spring : Spring float,
            p0 spring ≠ 2%nat ∧ p1 spring ≠ 2%nat) one_spring) as Hfree
    by (repeat constructor; simpl; lia).
  split; [split_and!; [exact valid_three|simpl; lia|simpl; lia|exact Hfree
                      |reflexivity|reflexivity]|].
  exact (zero_mass_gives_nan 0.01 three_positions three_velocities one_spring
           2 0 0 (mkVec3 0 (-10) 0) 0.5 2%nat valid_three ltac:(simpl; lia)
           ltac:(simpl; lia) Hfree eq_refl eq_refl).
Defined.

Lemma zero_length_spring_destroys_witness :
  (valid_springs (length [mkVec3 0.5 0.25 0; mkVec3 0.5 0.25 0]) one_spring ∧
   length [mkVec3 0.5 0.25 0; mkVec3 0.5 0.25 0] ≤ length two_velocities ∧
   mkSpring 0 1 0.5 ∈ one_spring ∧
   [mkVec3 0.5 0.25 0; mkVec3 0.5 0.25 0] !! p0 (mkSpring 0 1 0.5)
   = Some (mkVec3 0.5 0.25 0) ∧
   [mkVec3 0.5 0.25 0; mkVec3 0.5 0.25 0] !! p1 (mkSpring 0 1 0.5)
   = Some (mkVec3 0.5 0.25 0) ∧
   is_zero (Vec.len (Vec.sub (mkVec3 0.5 0.25 0) (mkVec3 0.5 0.25 0))) = true ∧
   (1%nat = p0 (mkSpring 0 1 0.5) ∨ 1%nat = p1 (mkSpring 0 1 0.5))) ∧
  ∃ positions' velocities' p' v',
    (SimTimeStep 0.01 [mkVec3 0.5 0.25 0; mkVec3 0.5 0.25 0] two_velocities
       one_spring 2 0.5 2 (mkVec3 0 (-10) 0) 0.5).2
    = Some (positions', velocities') ∧
    positions' !! 1%nat = Some p' ∧ velocities' !! 1%nat = Some v' ∧
    ∀ axis,
      not_finite (Vec.get axis v') = true ∧
      (Vec.get axis p' = -1 ∨ Vec.get axis p' = 1 ∨
       is_nan (Vec.get axis p') = true).
Proof.
  split; [split_and!; [exact valid_one_spring|simpl; lia
                      |apply list_elem_of_here|reflexivity..|by right]|].
  exact (zero_length_spring_destroys 0.01
           [mkVec3 0.5 0.25 0; mkVec3 0.5 0.25 0] two_velocities one_spring
           2 0.5 2 (mkVec3 0 (-10) 0) 0.5 (mkSpring 0 1 0.5)
           (mkVec3 0.5 0.25 0) (mkVec3 0.5 0.25 0) 1%nat valid_one_spring
           ltac:(simpl; lia) (list_elem_of_here _ _) eq_refl eq_refl eq_refl
           (or_intror eq_refl)).
Defined.

Lemma iterate_stays_in_box_witness :
  (valid_springs (length two_positions) one_spring ∧
   length two_positions ≤ length two_velocities) ∧
  ∃ positions' velocities',
    iterate 3 0.01 two_positions two_velocities one_spring 2 0.5 2
      (mkVec3 0 (-10) 0) 0.5 = Some (positions', velocities') ∧
    length positions' = length two_positions ∧
    length velocities' = length two_velocities ∧
    (0 < 3 → ∀ i p axis, positions' !! i = Some p →
       is_nan (Vec.get axis p) = false →
       (-1 <=? Vec.get axis p) = true ∧ (Vec.get axis p <=? 1) = true).
Proof.
  split; [split; [exact valid_one_spring|simpl; lia]|].
  exact (iterate_stays_in_box 3 0.01 two_positions two_velocities one_spring
           2 0.5 2 (mkVec3 0 (-10) 0) 0.5 valid_one_spring
           ltac:(simpl; lia)).
Defined.

End StepWitnesses.

(** ** The physics in exact arithmetic *)

Section ExactPhysics.
Local Open Scope R_scope.
Implicit Types (positions velocities forces : list (Vec3 R)).
Implicit Types (springs : list (Spring R)) (spring : Spring R).

Lemma collide_component_exact (restitution c w : R) :
  0 <= restitution <= 1 →
  let cw := collide_component restitution c w in
  -1 <= cw.1 <= 1 ∧ Rabs cw.2 <= Rabs w ∧
  (c < -1 → 0 <= cw.2) ∧ (1 < c → cw.2 <= 0).
Proof.
  intros Hr. unfold collide_component, minBound, maxBound. simpl.
  assert (∀ w, Rabs (w * - restitution) <= Rabs w) as Habs.
  { intros u. rewrite Rabs_mult, Rabs_Ropp, (Rabs_pos_eq restitution) by lra.
    pose proof (Rabs_pos u). nra. }
  repeat (destruct (Rlt_dec _ _); simpl);
    split_and!; try lra; try apply Habs; try nra.
Qed.

(** X14: in exact arithmetic, with a restitution in [[0, 1]], the
    collision pass puts every position component in [[-1, 1]], never
    increases the magnitude of a velocity component (it adds no kinetic
    energy), and leaves no particle it has moved to a wall with a velocity
    that points out of the box. *)
Theorem collide_dissipates (restitution : R) positions velocities :
  0 <= restitution <= 1 →
  length positions ≤ length velocities →
  ∃ positions' velocities',
    collide restitution (positions, velocities)
      = Some (positions', velocities') ∧
    ∀ i p v axis, positions !! i = Some p → velocities !! i = Some v →
      ∃ p' v', positions' !! i = Some p' ∧ velocities' !! i = Some v' ∧
        -1 <= Vec.get axis p' <= 1 ∧
        Rabs (Vec.get axis v') <= Rabs (Vec.get axis v) ∧
        (Vec.get axis p < -1 → 0 <= Vec.get axis v') ∧
        (1 < Vec.get axis p → Vec.get axis v' <= 0).
Proof.
  intros Hr Hlen.
  destruct (collide_spec restitution positions velocities Hlen)
    as (ps' & vs' & Hrun & _ & _ & Hst & _).
  exists ps', vs'. split; [done|].
  intros i p v axis Hp Hv. destruct (Hst i p v Hp Hv) as [Hp' Hv'].
  eexists _, _. split; [exact Hp'|]. split; [exact Hv'|].
  pose proof (collide_particle_get restitution p v axis) as Hget.
  pose proof (collide_component_exact restitution (Vec.get axis p)
                (Vec.get axis v) Hr) as Hcw.
  cbv zeta in Hget, Hcw. rewrite <- Hget in Hcw. exact Hcw.
Qed.

(** The square of the length is the sum of the squares. *)
Lemma len_sqr (d : Vec3 R) :
  Vec.len d * Vec.len d = x d * x d + y d * y d + z d * z d.
Proof.
  unfold Vec.len. simpl. apply sqrt_sqrt.
  pose proof (Rle_0_sqr (x d)). pose proof (Rle_0_sqr (y d)).
  pose proof (Rle_0_sqr (z d)). unfold Rsqr in *. lra.
Qed.

(** X15: Hooke's law in exact arithmetic.  For a spring of length
    [L > 0], the force has magnitude [|stiffness * (L - rest)|]: it
    vanishes at the rest length, and at twice the rest length its
    magnitude is [|stiffness * rest|]. *)
Theorem spring_force_magnitude (stiffness rest : R) (pos0 pos1 : Vec3 R) :
  let L := Vec.len (Vec.sub pos1 pos0) in
  0 < L →
  Vec.len (spring_force stiffness pos0 pos1 rest)
    = Rabs (stiffness * (L - rest)) ∧
  (L = rest → spring_force stiffness pos0 pos1 rest = mkVec3 0 0 0) ∧
  (L = 2 * rest →
   Vec.len (spring_force stiffness pos0 pos1 rest) = Rabs (stiffness * rest)).
Proof.
  intros L HL.
  assert (Vec.len (spring_force stiffness pos0 pos1 rest)
          = Rabs (stiffness * (L - rest))) as Hmag.
  { unfold spring_force, Vec.unit. fold L.
    set (d := Vec.sub pos1 pos0) in *. set (f := stiffness * (L - rest)).
    pose proof (len_sqr d) as Hsqr. fold L in Hsqr.
    change (Vec.len (Vec.mul (Vec.div d L) (stiffness * (L - rest))%js))
      with (sqrt (x d / L * f * (x d / L * f) + y d / L * f * (y d / L * f)
                  + z d / L * f * (z d / L * f))).
    replace (x d / L * f * (x d / L * f) + y d / L * f * (y d / L * f)
             + z d / L * f * (z d / L * f))
      with (f * f * ((x d * x d + y d * y d + z d * z d) / (L * L)))
      by (field; lra).
    rewrite <- Hsqr.
    replace (f * f * (L * L / (L * L))) with (Rsqr f)
      by (unfold Rsqr; field; lra).
    apply sqrt_Rsqr_abs. }
  split_and!; [exact Hmag| |].
  - intros Hrest. unfold spring_force. fold L. rewrite Hrest.
    apply vec3_eq; simpl; ring.
  - intros Hrest. rewrite Hmag. f_equal. rewrite Hrest. ring.
Qed.

Lemma forEach_ext {A S : Type} (body body' : S → A → option S) (l : list A)
    (s : S) :
  (∀ t a, a ∈ l → body t a = body' t a) →
  forEach body l s = forEach body' l s.
Proof.
  revert s. induction l as [|a l IH]; intros s Hext; [done|].
  cbn [forEach]. rewrite Hext by (by left).
  destruct (body' s a) as [t|]; [|done]. simpl. apply IH.
  intros t' a' Hin. apply Hext. by right.
Qed.

(** X16: in exact arithmetic the spring forces depend on the relative
    positions only: moving every particle by the same vector leaves each
    force as it was. *)
Theorem spring_forces_translation (stiffness : R) (t : Vec3 R)
    positions springs :
  spring_forces stiffness ((λ p, Vec.inc p t) <$> positions) springs
  = spring_forces stiffness positions springs.
Proof.
  unfold spring_forces.
  replace (init_forces ((λ p, Vec.inc p t) <$> positions))
    with (init_forces positions)
    by (unfold init_forces; by rewrite <- list_fmap_compose).
  apply forEach_ext. intros forces spring _. unfold spring_step.
  rewrite !list_lookup_fmap.
  destruct (positions !! p0 spring) as [pos0|]; [|done].
  destruct (positions !! p1 spring) as [pos1|]; [|done].
  assert (Vec.sub (Vec.inc pos1 t) (Vec.inc pos0 t) = Vec.sub pos1 pos0)
    as Hsub by (apply vec3_eq; simpl; lra).
  cbn -[Vec.sub Vec.inc]. by rewrite Hsub.
Qed.

(** X17: in exact arithmetic [gravity] is an acceleration: without
    damping, a particle that no spring names, of any mass but zero, gains
    the velocity [gravity * dt] in the integration, whatever its mass. *)
Theorem free_fall_ignores_mass (dt stiffness particleMass : R)
    (gravity : Vec3 R) positions velocities springs (i : nat) (p v : Vec3 R) :
  valid_springs (length positions) springs →
  length positions ≤ length velocities →
  positions !! i = Some p → velocities !! i = Some v →
  Forall (λ spring, p0 spring ≠ i ∧ p1 spring ≠ i) springs →
  particleMass ≠ 0 →
  ∃ positions1 velocities1,
    integrate dt positions velocities springs stiffness 0 particleMass
      gravity = Some (positions1, velocities1) ∧
    velocities1 !! i = Some (Vec.inc v (Vec.mul gravity dt)) ∧
    positions1 !! i
      = Some (Vec.inc p (Vec.mul (Vec.inc v (Vec.mul gravity dt)) dt)).
Proof.
  intros Hvalid Hlen Hp Hv Hfree Hm.
  destruct (integrate_spec dt positions velocities springs stiffness 0
    particleMass gravity Hvalid Hlen)
    as (sforces & ps1 & vs1 & Hsf & Hint & _ & _ & Hst & _).
  pose proof (spring_forces_unattached _ _ _ _ _ _ Hsf Hp Hfree) as Hzero.
  destruct (Hst i _ p v Hzero Hp Hv) as [Hp1 Hv1]. cbv zeta in Hp1, Hv1.
  exists ps1, vs1. split; [done|].
  rewrite Hp1, Hv1. split; f_equal; apply vec3_eq; simpl; field; done.
Qed.

End ExactPhysics.

(** ** The order of the springs (exact arithmetic) *)

Section SpringOrder.
Local Open Scope R_scope.
Implicit Types (positions velocities forces : list (Vec3 R)).
Implicit Types (springs : list (Spring R)) (spring : Spring R).

(** What one spring does to every accumulator. *)
Lemma spring_step_lookup_all (stiffness : R) positions forces spring forces'
    (j : nat) :
  spring_step stiffness positions forces spring = Some forces' →
  ∃ sforce,
    forces' !! j
    = (λ f, let f := if decide (p0 spring = j) then Vec.inc f sforce else f in
            if decide (p1 spring = j) then Vec.dec f sforce else f)
      <$> forces !! j ∧
    ∀ forces2 forces2',
      spring_step stiffness positions forces2 spring = Some forces2' →
      forces2' !! j
      = (λ f, let f := if decide (p0 spring = j) then Vec.inc f sforce else f in
              if decide (p1 spring = j) then Vec.dec f sforce else f)
        <$> forces2 !! j.
Proof.
  intros (pos0 & pos1 & forces1 & Hp0 & Hp1 & H1 & H2)%spring_step_Some.
  exists (spring_force stiffness pos0 pos1 (rest spring)).
  assert (∀ forces2 forces2',
    spring_step stiffness positions forces2 spring = Some forces2' →
    forces2' !! j
    = (λ f, let f := if decide (p0 spring = j)
                     then Vec.inc f (spring_force stiffness pos0 pos1
                                       (rest spring))
                     else f in
            if decide (p1 spring = j)
            then Vec.dec f (spring_force stiffness pos0 pos1 (rest spring))
            else f)
      <$> forces2 !! j) as Hall.
  { intros forces2 forces2'
      (q0 & q1 & forces3 & Hq0 & Hq1 & H3 & H4)%spring_step_Some.
    rewrite Hp0 in Hq0. rewrite Hp1 in Hq1.
    injection Hq0 as <-. injection Hq1 as <-.
    rewrite (update_lookup _ j _ _ _ H4), (update_lookup _ j _ _ _ H3).
    destruct (forces2 !! j); repeat case_decide; done. }
  split; [|exact Hall]. apply Hall. apply spring_step_Some. eauto 10.
Qed.

(** Two springs, in either order. *)
Lemma spring_step_comm (stiffness : R) positions forces (s1 s2 : Spring R) :
  length forces = length positions →
  (forces1 ← spring_step stiffness positions forces s1;
   spring_step stiffness positions forces1 s2)
  = (forces2 ← spring_step stiffness positions forces s2;
     spring_step stiffness positions forces2 s1).
Proof.
  intros Hlen.
  destruct (spring_step stiffness positions forces s1) as [f1|] eqn:H1;
    destruct (spring_step stiffness positions forces s2) as [f2|] eqn:H2;
    simpl.
  - pose proof (spring_step_valid _ _ _ _ _ H1) as [? ?].
    pose proof (spring_step_valid _ _ _ _ _ H2) as [? ?].
    destruct (spring_step_is_Some stiffness positions f1 s2)
      as [f12 H12]; [apply spring_step_length in H1; lia|done|done|].
    destruct (spring_step_is_Some stiffness positions f2 s1)
      as [f21 H21]; [apply spring_step_length in H2; lia|done|done|].
    rewrite H12, H21. f_equal. apply list_eq. intros j.
    destruct (spring_step_lookup_all _ _ _ _ _ j H1) as (sf1 & Hf1 & Hall1).
    destruct (spring_step_lookup_all _ _ _ _ _ j H2) as (sf2 & Hf2 & Hall2).
    rewrite (Hall2 _ _ H12), (Hall1 _ _ H21), Hf1, Hf2.
    destruct (forces !! j) as [f|]; [|done]. simpl. f_equal.
    repeat case_decide; apply vec3_eq; simpl; lra.
  - destruct (spring_step stiffness positions f1 s2) as [f12|] eqn:H12;
      [|done].
    apply spring_step_valid in H12 as [? ?].
    destruct (spring_step_is_Some stiffness positions forces s2)
      as [f2 Hf2]; [done..|]. congruence.
  - destruct (spring_step stiffness positions f2 s1) as [f21|] eqn:H21;
      [|done].
    apply spring_step_valid in H21 as [? ?].
    destruct (spring_step_is_Some stiffness positions forces s1)
      as [f1 Hf1]; [done..|]. congruence.
  - done.
Qed.

(** X18: in exact arithmetic the order of the array [springs] does not
    matter: any permutation of it gives every particle the same spring
    force (and throws when the array does). *)
Theorem spring_forces_order (stiffness : R) positions springs springs' :
  springs ≡ₚ springs' →
  spring_forces stiffness positions springs
  = spring_forces stiffness positions springs'.
Proof.
  intros Hperm. unfold spring_forces.
  pose proof (init_forces_length positions) as Hlen.
  revert Hlen. generalize (init_forces positions) as forces.
  induction Hperm as [|s l l' Hperm IH|s1 s2 l|l l' l'' _ IH1 _ IH2];
    intros forces Hlen.
  - done.
  - cbn [forEach].
    destruct (spring_step stiffness positions forces s) as [t|] eqn:Hstep;
      [|done].
    simpl. apply IH. apply spring_step_length in Hstep. lia.
  - pose proof (spring_step_comm stiffness positions forces s1 s2 Hlen)
      as Hcomm.
    cbn [forEach].
    destruct (spring_step stiffness positions forces s1) as [f1|];
      destruct (spring_step stiffness positions forces s2) as [f2|];
      simpl in *.
    + by rewrite Hcomm.
    + by rewrite Hcomm.
    + by rewrite <- Hcomm.
    + done.
  - by rewrite IH1, IH2.
Qed.

End SpringOrder.

(** ** Symmetries (exact arithmetic) *)

Section Symmetry.
Local Open Scope R_scope.
Implicit Types (positions velocities forces : list (Vec3 R)).
Implicit Types (springs : list (Spring R)) (spring : Spring R).

Lemma len_opposite (d : Vec3 R) : Vec.len (Vec.mul d (-1)) = Vec.len d.
Proof. unfold Vec.len. simpl. f_equal. ring. Qed.

(** The force on the other end of a spring is the opposite force. *)
Lemma spring_force_swap (stiffness rest : R) (pos0 pos1 : Vec3 R) :
  spring_force stiffness pos1 pos0 rest
  = Vec.mul (spring_force stiffness pos0 pos1 rest) (-1).
Proof.
  unfold spring_force, Vec.unit.
  replace (Vec.sub pos0 pos1) with (Vec.mul (Vec.sub pos1 pos0) (-1))
    by (apply vec3_eq; simpl; ring).
  rewrite len_opposite. apply vec3_eq; simpl; unfold Rdiv; ring.
Qed.

(** X19: in exact arithmetic a spring has no direction: with the two
    ends of any of the springs exchanged, every particle gets the same
    spring force. *)
Theorem spring_forces_ends (stiffness : R) positions springs
    (exchange : Spring R → bool) :
  spring_forces stiffness positions
    ((λ spring, if exchange spring
                then mkSpring (p1 spring) (p0 spring) (rest spring)
                else spring) <$> springs)
  = spring_forces stiffness positions springs.
Proof.
  unfold spring_forces.
  pose proof (init_forces_length positions) as Hlen.
  revert Hlen. generalize (init_forces positions) as forces.
  induction springs as [|s springs IH]; intros forces Hlen; [done|].
  rewrite fmap_cons. cbn [forEach].
  assert (spring_step stiffness positions forces
            (if exchange s then mkSpring (p1 s) (p0 s) (rest s) else s)
          = spring_step stiffness positions forces s) as ->.
  { destruct (exchange s); [|done].
    destruct (spring_step stiffness positions forces s) as [t|] eqn:Hs.
    - pose proof (spring_step_valid _ _ _ _ _ Hs) as [? ?].
      destruct (spring_step_is_Some stiffness positions forces
        (mkSpring (p1 s) (p0 s) (rest s))) as [t' Ht']; [done..|].
      rewrite Ht'. f_equal. apply list_eq. intros j.
      apply spring_step_Some in Hs
        as (pos0 & pos1 & f1 & Hp0 & Hp1 & H1 & H2).
      apply spring_step_Some in Ht'
        as (q0 & q1 & g1 & Hq0 & Hq1 & G1 & G2).
      cbn [p0 p1 rest] in *. rewrite Hp1 in Hq0. rewrite Hp0 in Hq1.
      injection Hq0 as <-. injection Hq1 as <-.
      rewrite (update_lookup _ j _ _ _ H2), (update_lookup _ j _ _ _ H1).
      rewrite (update_lookup _ j _ _ _ G2), (update_lookup _ j _ _ _ G1).
      rewrite (spring_force_swap stiffness (rest s) pos0 pos1).
      destruct (forces !! j) as [f|]; repeat case_decide; try done;
        simpl; f_equal; apply vec3_eq; simpl; lra.
    - destruct (spring_step stiffness positions forces
        (mkSpring (p1 s) (p0 s) (rest s))) as [t'|] eqn:Ht'; [|done].
      apply spring_step_valid in Ht' as [? ?]. cbn [p0 p1] in *.
      destruct (spring_step_is_Some stiffness positions forces s)
        as [t Ht]; [done..|]. congruence. }
  destruct (spring_step stiffness positions forces s) as [t|] eqn:Hs; [|done].
  simpl. apply IH. apply spring_step_length in Hs. lia.
Qed.

Lemma update_fmap {A : Type} (h m m' : A → A) (i : nat) (arr : list A) :
  (∀ a, m' (h a) = h (m a)) →
  update i m' (h <$> arr) = (fmap h : list A → list A) <$> update i m arr.
Proof.
  intros Hm. unfold update. rewrite list_lookup_fmap.
  destruct (arr !! i) as [a|]; simpl; [|done].
  by rewrite list_fmap_insert, Hm.
Qed.

Lemma forEach_fmap {A S : Type} (h : S → S) (body body' : S → A → option S)
    (l : list A) (s : S) :
  (∀ t a, body' (h t) a = h <$> body t a) →
  forEach body' l (h s) = h <$> forEach body l s.
Proof.
  intros Hbody. revert s. induction l as [|a l IH]; intros s; [done|].
  cbn [forEach]. rewrite Hbody.
  destruct (body s a) as [t|]; simpl; [apply IH|done].
Qed.

(** The spring forces of the mirrored positions are the mirrored
    forces. *)
Lemma spring_forces_mirror (stiffness : R) positions springs :
  spring_forces stiffness ((λ p, Vec.mul p (-1)) <$> positions) springs
  = (fmap (λ f, Vec.mul f (-1)) : list (Vec3 R) → list (Vec3 R))
    <$> spring_forces stiffness positions springs.
Proof.
  unfold spring_forces.
  replace (init_forces ((λ p, Vec.mul p (-1)) <$> positions))
    with ((λ f, Vec.mul f (-1)) <$> init_forces positions).
  2:{ unfold init_forces. rewrite <- !list_fmap_compose.
      apply list_fmap_ext. intros _ p _. apply vec3_eq; simpl; ring. }
  apply (forEach_fmap (fmap (λ f : Vec3 R, Vec.mul f (-1)))).
  intros forces spring. unfold spring_step. rewrite !list_lookup_fmap.
  destruct (positions !! p0 spring) as [pos0|]; [|done].
  destruct (positions !! p1 spring) as [pos1|]; [|done].
  cbn -[Vec.sub Vec.unit Vec.len Vec.mul Vec.inc Vec.dec update].
  assert (Vec.mul (Vec.unit (Vec.sub (Vec.mul pos1 (-1)) (Vec.mul pos0 (-1))))
            (stiffness * (Vec.len (Vec.sub (Vec.mul pos1 (-1))
                                     (Vec.mul pos0 (-1))) - rest spring))
          = Vec.mul (Vec.mul (Vec.unit (Vec.sub pos1 pos0))
                       (stiffness * (Vec.len (Vec.sub pos1 pos0)
                                     - rest spring))) (-1)) as ->.
  { unfold Vec.unit.
    replace (Vec.sub (Vec.mul pos1 (-1)) (Vec.mul pos0 (-1)))
      with (Vec.mul (Vec.sub pos1 pos0) (-1))
      by (apply vec3_eq; simpl; ring).
    rewrite len_opposite. apply vec3_eq; simpl; unfold Rdiv; ring. }
  set (sf := Vec.mul (Vec.unit (Vec.sub pos1 pos0))
               (stiffness * (Vec.len (Vec.sub pos1 pos0) - rest spring))).
  rewrite (update_fmap (λ f, Vec.mul f (-1)) (λ f, Vec.inc f sf))
    by (intros a; apply vec3_eq; simpl; ring).
  destruct (update (p0 spring) (λ f, Vec.inc f sf) forces) as [f1|];
    simpl; [|done].
  apply (update_fmap (λ f, Vec.mul f (-1)) (λ f, Vec.dec f sf)).
  intros a. apply vec3_eq; simpl; ring.
Qed.

Lemma collide_component_mirror (restitution c w : R) :
  collide_component restitution (c * -1) (w * -1)
  = ((collide_component restitution c w).1 * -1,
     (collide_component restitution c w).2 * -1).
Proof.
  unfold collide_component, minBound, maxBound. simpl.
  repeat (destruct (Rlt_dec _ _); simpl); try lra; f_equal; lra.
Qed.

(** One particle, mirrored. *)
Lemma particle_mirror (restitution particleMass dt damping : R)
    (gravity f p v : Vec3 R) :
  let pv := collide_particle restitution
              (euler particleMass dt
                 (net_force damping particleMass gravity f v) p v) in
  collide_particle restitution
    (euler particleMass dt
       (net_force damping particleMass (Vec.mul gravity (-1))
          (Vec.mul f (-1)) (Vec.mul v (-1)))
       (Vec.mul p (-1)) (Vec.mul v (-1)))
  = (Vec.mul pv.1 (-1), Vec.mul pv.2 (-1)).
Proof.
  cbv zeta.
  set (e := euler particleMass dt
              (net_force damping particleMass gravity f v) p v).
  assert (euler particleMass dt
            (net_force damping particleMass (Vec.mul gravity (-1))
               (Vec.mul f (-1)) (Vec.mul v (-1)))
            (Vec.mul p (-1)) (Vec.mul v (-1))
          = (Vec.mul e.1 (-1), Vec.mul e.2 (-1))) as ->.
  { unfold e, euler. cbn [fst snd].
    f_equal; apply vec3_eq; simpl; unfold Rdiv; ring. }
  destruct e as [p1 v1]. cbn [fst snd].
  destruct (collide_particle restitution (p1, v1)) as [p' v'] eqn:Hc.
  destruct (collide_particle restitution (Vec.mul p1 (-1), Vec.mul v1 (-1)))
    as [q' w'] eqn:Hm.
  cbn [fst snd].
  f_equal; apply vec3_ext; intros axis;
    pose proof (collide_particle_get restitution p1 v1 axis) as H1;
    pose proof (collide_particle_get restitution (Vec.mul p1 (-1))
                  (Vec.mul v1 (-1)) axis) as H2;
    cbv zeta in H1, H2; rewrite Hc in H1; rewrite Hm in H2;
    cbn [fst snd] in H1, H2;
    rewrite !get_mul in H2; rewrite collide_component_mirror, <- H1 in H2;
    cbn [fst snd] in H2; rewrite get_mul; injection H2 as Hq Hw;
    first [exact Hq | exact Hw].
Qed.

(** X20: in exact arithmetic the step is symmetric under the reflection
    through the centre of the box: on the opposite positions and
    velocities, with the opposite gravity, it leaves the opposite
    positions and velocities (the walls at [-1] and at [1] are treated
    alike). *)
Theorem SimTimeStep_mirror (dt stiffness damping particleMass restitution : R)
    (gravity : Vec3 R) positions velocities springs :
  valid_springs (length positions) springs →
  length positions ≤ length velocities →
  ∃ positions' velocities',
    (SimTimeStep dt positions velocities springs stiffness damping
       particleMass gravity restitution).2 = Some (positions', velocities') ∧
    (SimTimeStep dt ((λ p, Vec.mul p (-1)) <$> positions)
       ((λ v, Vec.mul v (-1)) <$> velocities) springs stiffness damping
       particleMass (Vec.mul gravity (-1)) restitution).2
    = Some ((λ p, Vec.mul p (-1)) <$> positions',
            (λ v, Vec.mul v (-1)) <$> velocities').
Proof.
  intros Hvalid Hlen.
  destruct (SimTimeStep_spec dt positions velocities springs stiffness damping
    particleMass gravity restitution Hvalid Hlen) as
    (sforces & ps' & vs' & Hsf & -> & Hpl & Hvl & Hst & Hrest).
  destruct (SimTimeStep_spec dt ((λ p, Vec.mul p (-1)) <$> positions)
    ((λ v, Vec.mul v (-1)) <$> velocities) springs stiffness damping
    particleMass (Vec.mul gravity (-1)) restitution) as
    (sforces2 & ps2 & vs2 & Hsf2 & -> & Hpl2 & Hvl2 & Hst2 & Hrest2);
    [by rewrite length_fmap|by rewrite !length_fmap|].
  rewrite !length_fmap in *.
  rewrite spring_forces_mirror, Hsf in Hsf2. injection Hsf2 as <-.
  apply spring_forces_Some_inv in Hsf as [_ Hsl].
  exists ps', vs'. split; [done|]. cbn [snd]. f_equal.
  f_equal; apply list_eq; intros i; rewrite list_lookup_fmap.
  - destruct (decide (i < length positions)%nat) as [Hi|Hi].
    + destruct (lookup_lt_is_Some_2 sforces i) as [f Hf]; [lia|].
      destruct (lookup_lt_is_Some_2 positions i) as [p Hp]; [lia|].
      destruct (lookup_lt_is_Some_2 velocities i) as [v Hv]; [lia|].
      destruct (Hst i f p v Hf Hp Hv) as [-> _].
      destruct (Hst2 i (Vec.mul f (-1)) (Vec.mul p (-1)) (Vec.mul v (-1)))
        as [-> _]; [by rewrite list_lookup_fmap, ?Hf, ?Hp, ?Hv..|].
      cbv zeta. by rewrite particle_mirror.
    + rewrite !lookup_ge_None_2 by lia. done.
  - destruct (decide (i < length positions)%nat) as [Hi|Hi].
    + destruct (lookup_lt_is_Some_2 sforces i) as [f Hf]; [lia|].
      destruct (lookup_lt_is_Some_2 positions i) as [p Hp]; [lia|].
      destruct (lookup_lt_is_Some_2 velocities i) as [v Hv]; [lia|].
      destruct (Hst i f p v Hf Hp Hv) as [_ ->].
      destruct (Hst2 i (Vec.mul f (-1)) (Vec.mul p (-1)) (Vec.mul v (-1)))
        as [_ ->]; [by rewrite list_lookup_fmap, ?Hf, ?Hp, ?Hv..|].
      cbv zeta. by rewrite particle_mirror.
    + rewrite Hrest2, Hrest by lia. by rewrite list_lookup_fmap.
Qed.

End Symmetry.

Section ExactWitnesses.
Local Open Scope R_scope.

Lemma collide_dissipates_witness :
  (0 <= 1 / 2 <= 1 ∧
   length stretched_positions ≤ length stretched_velocities) ∧
  ∃ positions' velocities',
    collide (1 / 2) (stretched_positions, stretched_velocities)
      = Some (positions', velocities') ∧
    ∀ i p v axis, stretched_positions !! i = Some p →
      stretched_velocities !! i = Some v →
      ∃ p' v', positions' !! i = Some p' ∧ velocities' !! i = Some v' ∧
        -1 <= Vec.get axis p' <= 1 ∧
        Rabs (Vec.get axis v') <= Rabs (Vec.get axis v) ∧
        (Vec.get axis p < -1 → 0 <= Vec.get axis v') ∧
        (1 < Vec.get axis p → Vec.get axis v' <= 0).
Proof.
  split; [split; [lra|simpl; lia]|].
  exact (collide_dissipates (1 / 2) stretched_positions stretched_velocities
           ltac:(lra) ltac:(simpl; lia)).
Defined.

Lemma spring_force_magnitude_witness :
  let L := Vec.len (Vec.sub (mkVec3 2 0 0) (mkVec3 0 0 0)) in
  0 < L ∧
  Vec.len (spring_force 1 (mkVec3 0 0 0) (mkVec3 2 0 0) 1)
    = Rabs (1 * (L - 1)) ∧
  (L = 1 → spring_force 1 (mkVec3 0 0 0) (mkVec3 2 0 0) 1 = mkVec3 0 0 0) ∧
  (L = 2 * 1 →
   Vec.len (spring_force 1 (mkVec3 0 0 0) (mkVec3 2 0 0) 1) = Rabs (1 * 1)).
Proof.
  assert (0 < Vec.len (Vec.sub (mkVec3 2 0 0) (mkVec3 0 0 0))) as HL
    by (rewrite stretched_length; lra).
  split; [exact HL|].
  exact (spring_force_magnitude 1 1 (mkVec3 0 0 0) (mkVec3 2 0 0) HL).
Defined.

Lemma free_fall_ignores_mass_witness :
  (valid_springs (F := R) (length stretched_positions) [] ∧
   length stretched_positions ≤ length stretched_velocities ∧
   stretched_positions !! 1%nat = Some (mkVec3 2 0 0) ∧
   stretched_velocities !! 1%nat = Some (mkVec3 0 0 0) ∧
   Forall (λ spring : Spring R, p0 spring ≠ 1%nat ∧ p1 spring ≠ 1%nat) [] ∧
   3 ≠ 0) ∧
  ∃ positions1 velocities1,
    integrate (1 / 100) stretched_positions stretched_velocities [] 1 0 3
      (mkVec3 0 (-10) 0) = Some (positions1, velocities1) ∧
    velocities1 !! 1%nat
      = Some (Vec.inc (mkVec3 0 0 0) (Vec.mul (mkVec3 0 (-10) 0) (1 / 100))) ∧
    positions1 !! 1%nat
      = Some (Vec.inc (mkVec3 2 0 0)
                (Vec.mul (Vec.inc (mkVec3 0 0 0)
                            (Vec.mul (mkVec3 0 (-10) 0) (1 / 100)))
                   (1 / 100))).
Proof.
  split; [split_and!; [constructor|simpl; lia|reflexivity|reflexivity
                      |constructor|lra]|].
  exact (free_fall_ignores_mass (1 / 100) 1 3 (mkVec3 0 (-10) 0)
           stretched_positions stretched_velocities [] 1%nat (mkVec3 2 0 0)
           (mkVec3 0 0 0) (Forall_nil_2 _) ltac:(simpl; lia) eq_refl eq_refl
           (Forall_nil_2 _) ltac:(lra)).
Defined.

Lemma spring_forces_order_witness :
  [unit_spring; mkSpring 1 0 2] ≡ₚ [mkSpring 1 0 2; unit_spring] ∧
  spring_forces 1 stretched_positions [unit_spring; mkSpring 1 0 2]
  = spring_forces 1 stretched_positions [mkSpring 1 0 2; unit_spring].
Proof.
  split; [apply perm_swap|].
  exact (spring_forces_order 1 stretched_positions
           [unit_spring; mkSpring 1 0 2] [mkSpring 1 0 2; unit_spring]
           (perm_swap _ _ _)).
Defined.

Lemma SimTimeStep_mirror_witness :
  (valid_springs (length stretched_positions) [unit_spring] ∧
   length stretched_positions ≤ length stretched_velocities) ∧
  ∃ positions' velocities',
    (SimTimeStep (1 / 100) stretched_positions stretched_velocities
       [unit_spring] 1 (1 / 2) 1 (mkVec3 0 (-10) 0) (1 / 2)).2
    = Some (positions', velocities') ∧
    (SimTimeStep (1 / 100) ((λ p, Vec.mul p (-1)) <$> stretched_positions)
       ((λ v, Vec.mul v (-1)) <$> stretched_velocities) [unit_spring] 1
       (1 / 2) 1 (Vec.mul (mkVec3 0 (-10) 0) (-1)) (1 / 2)).2
    = Some ((λ p, Vec.mul p (-1)) <$> positions',
            (λ v, Vec.mul v (-1)) <$> velocities').
Proof.
  split; [split; [exact valid_unit_spring|simpl; lia]|].
  exact (SimTimeStep_mirror (1 / 100) 1 (1 / 2) 1 (1 / 2) (mkVec3 0 (-10) 0)
           stretched_positions stretched_velocities [unit_spring]
           valid_unit_spring ltac:(simpl; lia)).
Defined.

End ExactWitnesses.

(** * The mesh drawer *)

Section DrawerFields.
Context {F Handle : Type} `{Number F} `{NumberOfNat F}.
Implicit Types (this : MeshDrawer F Handle) (ms : list (Method F Handle)).

Lemma invoke_all_cons this (m : Method F Handle) ms :
  (invoke_all this (m :: ms)).1 = (invoke_all (invoke this m).1 ms).1.
Proof.
  cbn [invoke_all]. destruct (invoke this m) as [this1 calls1].
  cbn [fst]. by destruct (invoke_all this1 ms).
Qed.

(** No method replaces an object of the context, and each field that a
    setter writes holds the value of the last call of that setter. *)
Lemma invoke_all_fields ms this :
  let this' := (invoke_all this ms).1 in
  (prog this' = prog this ∧ mvpLoc this' = mvpLoc this ∧
   mvLoc this' = mvLoc this ∧ normalLoc this' = normalLoc this ∧
   lightDirLoc this' = lightDirLoc this ∧
   shininessLoc this' = shininessLoc this ∧
   swapYZLoc this' = swapYZLoc this ∧
   showTextureLoc this' = showTextureLoc this ∧
   texSamplerLoc this' = texSamplerLoc this) ∧
  (posLoc this' = posLoc this ∧ textLoc this' = textLoc this ∧
   normLoc this' = normLoc this ∧ vertexBuffer this' = vertexBuffer this ∧
   texCoordBuffer this' = texCoordBuffer this ∧
   normalBuffer this' = normalBuffer this ∧ texture this' = texture this) ∧
  numTriangles this' = last_setMesh (numTriangles this) ms ∧
  useSwapYZ this' = last_swapYZ (useSwapYZ this) ms ∧
  useTexture this' = last_showTexture (useTexture this) ms ∧
  lightDir this' = last_setLightDir (lightDir this) ms ∧
  shininess this' = last_setShininess (shininess this) ms.
Proof.
  revert this. induction ms as [|m ms IH]; intros this; cbv zeta.
  - split_and!; reflexivity.
  - rewrite invoke_all_cons.
    specialize (IH (invoke this m).1). cbv zeta in IH.
    destruct IH as ((?&?&?&?&?&?&?&?&?) & (?&?&?&?&?&?&?) & ?&?&?&?&?).
    destruct m; split_and!; (etrans; [eassumption|reflexivity]).
Qed.

(** X21: whatever methods were called since the construction, [draw]
    makes exactly these calls on the context: it uses the program,
    locations, buffers and texture that the constructor obtained, uploads
    the two flags, the shininess and the light direction of the last
    calls of their setters (or the constructor's [false], [true], [32]
    and [[0, 0, -1]]), and asks for as many vertices as the last mesh
    holds (a third of its coordinates; [0] before any [setMesh]). *)
Theorem draw_uploads_last_settings (InitShaderProgram : Handle)
    (getUniformLocation getAttribLocation : Handle → string → Handle)
    (createBuffer : nat → Handle) (createTexture : Handle) ms
    (matrixMVP matrixMV matrixNormal : list F) :
  let new := (constructor InitShaderProgram getUniformLocation
                getAttribLocation createBuffer createTexture).1 in
  let this := (invoke_all new ms).1 in
  let prog := InitShaderProgram in
  draw this matrixMVP matrixMV matrixNormal
  = (this,
     [gl.useProgram prog;
      gl.uniformMatrix4fv (getUniformLocation prog "mvp"%string) false
        matrixMVP;
      gl.uniformMatrix4fv (getUniformLocation prog "mv"%string) false
        matrixMV;
      gl.uniformMatrix3fv (getUniformLocation prog "normalMatrix"%string)
        false matrixNormal;
      gl.uniform3fv (getUniformLocation prog "lightDir"%string)
        (last_setLightDir [lit_0; lit_0; (- lit_1)%js] ms);
      gl.uniform1f (getUniformLocation prog "shininess"%string)
        (last_setShininess (num_of_nat 32) ms);
      gl.uniform1i (getUniformLocation prog "showTexture"%string)
        (gl.flag (last_showTexture true ms));
      gl.uniform1i (getUniformLocation prog "swapYZ"%string)
        (gl.flag (last_swapYZ false ms));
      gl.bindBuffer gl.ARRAY_BUFFER (createBuffer 0%nat);
      gl.vertexAttribPointer (getAttribLocation prog "pos"%string) 3
        gl.FLOAT false 0 0;
      gl.enableVertexAttribArray (getAttribLocation prog "pos"%string);
      gl.bindBuffer gl.ARRAY_BUFFER (createBuffer 1%nat);
      gl.vertexAttribPointer (getAttribLocation prog "tex"%string) 2
        gl.FLOAT false 0 0;
      gl.enableVertexAttribArray (getAttribLocation prog "tex"%string);
      gl.bindBuffer gl.ARRAY_BUFFER (createBuffer 2%nat);
      gl.vertexAttribPointer (getAttribLocation prog "normal"%string) 3
        gl.FLOAT false 0 0;
      gl.enableVertexAttribArray (getAttribLocation prog "normal"%string);
      gl.activeTexture gl.TEXTURE0;
      gl.bindTexture gl.TEXTURE_2D createTexture;
      gl.uniform1i (getUniformLocation prog "texSampler"%string) (gl.int 0);
      gl.drawArrays gl.TRIANGLES 0 (last_setMesh lit_0 ms)]).
Proof.
  intros new this prog0.
  destruct (invoke_all_fields ms new)
    as ((Hprog & Hmvp & Hmv & Hnormal & Hlight & Hshin & Hswap & Hshow & Htex)
        & (Hpos & Htext & Hnorm & Hvb & Htb & Hnb & Htexture)
        & Hnum & Huse & Husetex & Hdir & Hshininess).
  cbv zeta in *. fold this in Hprog, Hmvp, Hmv, Hnormal, Hlight, Hshin, Hswap,
    Hshow, Htex, Hpos, Htext, Hnorm, Hvb, Htb, Hnb, Htexture, Hnum, Huse,
    Husetex, Hdir, Hshininess.
  unfold draw.
  rewrite Hprog, Hmvp, Hmv, Hnormal, Hlight, Hshin, Hswap, Hshow, Htex, Hpos,
    Htext, Hnorm, Hvb, Htb, Hnb, Htexture, Hnum, Huse, Husetex, Hdir,
    Hshininess.
  reflexivity.
Qed.

End DrawerFields.

(** ** The light direction *)

Section LightExact.
Context {Handle : Type}.
Local Open Scope R_scope.
Implicit Types (this : MeshDrawer R Handle) (ms : list (Method R Handle)).

Lemma normalized_unit_length (x y z : R) :
  ¬ (x = 0 ∧ y = 0 ∧ z = 0) →
  let length := sqrt (x * x + y * y + z * z) in
  unit_length [x / length; y / length; z / length].
Proof.
  intros Hnz length.
  assert (0 < x * x + y * y + z * z) as Hpos.
  { destruct (Req_dec x 0) as [->|Hx]; [|nra].
    destruct (Req_dec y 0) as [->|Hy]; [|nra].
    destruct (Req_dec z 0) as [->|Hz]; [|nra].
    exfalso. by apply Hnz. }
  assert (0 < length) as Hlen by (by apply sqrt_lt_R0).
  assert (length * length = x * x + y * y + z * z) as Hsqr
    by (apply sqrt_sqrt; lra).
  eexists _, _, _. split; [reflexivity|].
  replace (x / length * (x / length) + y / length * (y / length)
           + z / length * (z / length))
    with ((x * x + y * y + z * z) / (length * length)) by (field; lra).
  rewrite Hsqr. field. lra.
Qed.

(** The invariant, from any drawer that holds a direction of length 1. *)
Lemma invoke_all_unit_light ms this :
  unit_length (lightDir this) → no_zero_light ms →
  unit_length (lightDir (invoke_all this ms).1) ∧
  unit_light_directions (invoke_all this ms).2.
Proof.
  revert this. induction ms as [|m ms IH]; intros this Hunit Hnz.
  - split; [exact Hunit|constructor].
  - apply Forall_cons in Hnz as [Hm Hnz].
    assert (unit_length (lightDir (invoke this m).1) ∧
            unit_light_directions (invoke this m).2) as [Hunit1 Hcalls1].
    { destruct m; simpl; (split; [try done|]);
        try (repeat constructor; done);
        try (by apply normalized_unit_length).
      repeat constructor. by apply normalized_unit_length. }
    specialize (IH (invoke this m).1 Hunit1 Hnz) as [Hunit' Hcalls'].
    cbn [invoke_all]. destruct (invoke this m) as [this1 calls1].
    cbn [fst snd] in *.
    destruct (invoke_all this1 ms) as [this' calls']. cbn [fst snd] in *.
    split; [done|]. by apply Forall_app.
Qed.

(** X22: in exact arithmetic the drawer holds a light direction of
    length 1 at all times, and sends no other to the shader: the
    constructor's [[0, 0, -1]] is one, and [setLightDir] divides the
    vector it is given by its length.  This holds over any sequence of
    method calls in which [setLightDir] is never called on the zero
    vector. *)
Theorem light_direction_is_unit (InitShaderProgram : Handle)
    (getUniformLocation getAttribLocation : Handle → string → Handle)
    (createBuffer : nat → Handle) (createTexture : Handle) ms :
  no_zero_light ms →
  let new := (constructor InitShaderProgram getUniformLocation
                getAttribLocation createBuffer createTexture).1 in
  unit_length (lightDir (invoke_all new ms).1) ∧
  unit_light_directions (invoke_all new ms).2.
Proof.
  intros Hnz new. apply invoke_all_unit_light; [|done].
  exists 0, 0, (-1). split; [reflexivity|]. lra.
Qed.

(** X23: [numTriangles] holds the number of vertices.  In exact
    arithmetic, after [setMesh] on a mesh of [T] triangles ([9 * T]
    coordinates) it is [3 * T], and that is the count the next [draw]
    passes to [drawArrays], its last call. *)
Theorem draw_requests_all_vertices this (vertPos texCoords normals : list R)
    (matrixMVP matrixMV matrixNormal : list R) (T : nat) :
  length vertPos = (9 * T)%nat →
  let this' := (setMesh this vertPos texCoords normals).1 in
  numTriangles this' = INR (3 * T) ∧
  last (draw this' matrixMVP matrixMV matrixNormal).2
  = Some (gl.drawArrays gl.TRIANGLES 0 (INR (3 * T))).
Proof.
  intros Hlen this'.
  assert (numTriangles this' = INR (3 * T)) as Hnum.
  { unfold this', setMesh. cbn [fst numTriangles set_numTriangles].
    unfold num_of_nat, real_of_nat. rewrite Hlen, !mult_INR. simpl.
    field. }
  split; [done|]. unfold draw. cbn [snd]. by rewrite <- Hnum.
Qed.

End LightExact.

Section LightFloat.
Context {Handle : Type}.
Local Open Scope float_scope.
Implicit Types (this : MeshDrawer float Handle).

(** X24: [setLightDir] does not test the length.  When the sum of the
    squares is zero on binary64 numbers (the zero vector, or a vector so
    short that its squares underflow), it divides by zero: no component
    of the direction it stores and uploads is finite, the zero
    components being NaN; and the next [draw] uploads that direction
    again. *)
Theorem setLightDir_zero_length this (x y z : float)
    (matrixMVP matrixMV matrixNormal : list float) :
  is_zero (x * x + y * y + z * z) = true →
  let this' := (setLightDir this x y z).1 in
  ∃ a b c,
    lightDir this' = [a; b; c] ∧
    not_finite a = true ∧ not_finite b = true ∧ not_finite c = true ∧
    (is_zero x = true → is_nan a = true) ∧
    (is_zero y = true → is_nan b = true) ∧
    (is_zero z = true → is_nan c = true) ∧
    (setLightDir this x y z).2
    = [gl.useProgram (prog this); gl.uniform3fv (lightDirLoc this) [a; b; c]] ∧
    gl.uniform3fv (lightDirLoc this) [a; b; c]
    ∈ (draw this' matrixMVP matrixMV matrixNormal).2.
Proof.
  intros Hsum this'.
  pose proof (sqrt_zero _ Hsum) as Hlen.
  set (length := PrimFloat.sqrt (x * x + y * y + z * z)) in *.
  exists (x / length), (y / length), (z / length).
  assert (∀ c, is_zero c = true → is_nan (c / length) = true) as Hnan.
  { intros c Hc. apply zero_or_nan_div; unfold zero_or_nan.
    - by rewrite Hc.
    - by rewrite Hlen. }
  split_and!; try reflexivity; try (by apply not_finite_div_zero);
    try (by apply Hnan).
  unfold draw. cbn [snd].
  do 4 apply list_elem_of_further. apply list_elem_of_here.
Qed.

End LightFloat.

Section DrawerWitnesses.
Local Open Scope R_scope.

Lemma light_direction_is_unit_witness :
  no_zero_light (Handle := nat)
    [SetLightDir 3 4 0; Draw [] [] []; ShowTexture false] ∧
  let new := (constructor (F := R) 0%nat (λ _ name, String.length name)
                (λ _ name, String.length name) (λ n, n) 1%nat).1 in
  unit_length
    (lightDir (invoke_all new
                 [SetLightDir 3 4 0; Draw [] [] []; ShowTexture false]).1) ∧
  unit_light_directions
    (invoke_all new [SetLightDir 3 4 0; Draw [] [] []; ShowTexture false]).2.
Proof.
  assert (no_zero_light (Handle := nat)
            [SetLightDir 3 4 0; Draw [] [] []; ShowTexture false]) as Hnz.
  { repeat constructor. intros (H3 & _). lra. }
  split; [exact Hnz|].
  exact (light_direction_is_unit 0%nat (λ _ name, String.length name)
           (λ _ name, String.length name) (λ n, n) 1%nat _ Hnz).
Defined.

Lemma draw_requests_all_vertices_witness :
  length [0; 0; 0; 1; 0; 0; 0; 1; 0] = (9 * 1)%nat ∧
  let this' := (setMesh sample_drawer [0; 0; 0; 1; 0; 0; 0; 1; 0]
                  [0; 0; 1; 0; 0; 1] [0; 0; 1; 0; 0; 1; 0; 0; 1]).1 in
  numTriangles this' = INR (3 * 1) ∧
  last (draw this' [] [] []).2
  = Some (gl.drawArrays gl.TRIANGLES 0 (INR (3 * 1))).
Proof.
  split; [reflexivity|].
  exact (draw_requests_all_vertices sample_drawer
           [0; 0; 0; 1; 0; 0; 0; 1; 0] [0; 0; 1; 0; 0; 1]
           [0; 0; 1; 0; 0; 1; 0; 0; 1] [] [] [] 1 eq_refl).
Defined.

End DrawerWitnesses.

Section DrawerFloatWitnesses.
Local Open Scope float_scope.

Lemma setLightDir_zero_length_witness :
  is_zero (1e-200 * 1e-200 + 0 * 0 + -0 * -0) = true ∧
  let this' := (setLightDir (sample_drawer (F := float)) 1e-200 0 (-0)).1 in
  ∃ a b c,
    lightDir this' = [a; b; c] ∧
    not_finite a = true ∧ not_finite b = true ∧ not_finite c = true ∧
    (is_zero 1e-200 = true → is_nan a = true) ∧
    (is_zero 0 = true → is_nan b = true) ∧
    (is_zero (-0) = true → is_nan c = true) ∧
    (setLightDir (sample_drawer (F := float)) 1e-200 0 (-0)).2
    = [gl.useProgram (prog (sample_drawer (F := float)));
       gl.uniform3fv (lightDirLoc (sample_drawer (F := float))) [a; b; c]] ∧
    gl.uniform3fv (lightDirLoc (sample_drawer (F := float))) [a; b; c]
    ∈ (draw this' [] [] []).2.
Proof.
  split; [reflexivity|].
  exact (setLightDir_zero_length sample_drawer 1e-200 0 (-0) [] [] [] eq_refl).
Defined.

End DrawerFloatWitnesses.

(** * The model-view matrix (exact arithmetic) *)

Section ModelView.
Local Open Scope R_scope.

(** X25: if [MatrixMult] multiplies 4x4 matrices stored column by
    column, then in exact arithmetic [GetModelViewMatrix] returns an
    isometry: the last column is the translation, the last row is
    [(0, 0, 0, 1)], and the three other columns are orthonormal. *)
Theorem GetModelViewMatrix_isometry (MatrixMult : list R → list R → list R)
    (translationX translationY translationZ rotationX rotationY : R) :
  (∀ A B, MatrixMult A B = column_major_product A B) →
  let M := GetModelViewMatrix MatrixMult translationX translationY
             translationZ rotationX rotationY in
  M = [cos rotationY; 0; sin rotationY; 0;
       sin rotationX * sin rotationY; cos rotationX;
         - (sin rotationX * cos rotationY); 0;
       - (cos rotationX * sin rotationY); sin rotationX;
         cos rotationX * cos rotationY; 0;
       translationX; translationY; translationZ; 1] ∧
  ∀ c c' : nat, (c < 3)%nat → (c' < 3)%nat →
    column_dot M c c' = if decide (c = c') then 1 else 0.
Proof.
  intros Hmult M.
  assert (M = [cos rotationY; 0; sin rotationY; 0;
       sin rotationX * sin rotationY; cos rotationX;
         - (sin rotationX * cos rotationY); 0;
       - (cos rotationX * sin rotationY); sin rotationX;
         cos rotationX * cos rotationY; 0;
       translationX; translationY; translationZ; 1]) as ->.
  { unfold M, GetModelViewMatrix. rewrite !Hmult.
    unfold column_major_product, entry. simpl.
    repeat (f_equal; try ring). }
  split; [done|].
  pose proof (sin2_cos2 rotationX) as HX.
  pose proof (sin2_cos2 rotationY) as HY.
  unfold Rsqr in HX, HY.
  assert (∀ k, k * (sin rotationY * sin rotationY)
               + k * (cos rotationY * cos rotationY) = k) as HYk
    by (intros k; rewrite <- Rmult_plus_distr_l, HY; ring).
  pose proof (HYk (sin rotationX * sin rotationX)) as Hss.
  pose proof (HYk (cos rotationX * cos rotationX)) as Hcc.
  pose proof (HYk (sin rotationX * cos rotationX)) as Hsc.
  intros c c' Hc Hc'.
  destruct c as [|[|[|c]]]; [| | |lia];
    (destruct c' as [|[|[|c']]]; [| | |lia]);
    unfold column_dot, entry; simpl; lra.
Qed.

End ModelView.

Section ModelViewWitness.
Local Open Scope R_scope.

Lemma GetModelViewMatrix_isometry_witness :
  (∀ A B : list R, column_major_product A B = column_major_product A B) ∧
  let M := GetModelViewMatrix column_major_product 1 2 3 (PI / 2) 0 in
  M = [cos 0; 0; sin 0; 0;
       sin (PI / 2) * sin 0; cos (PI / 2); - (sin (PI / 2) * cos 0); 0;
       - (cos (PI / 2) * sin 0); sin (PI / 2); cos (PI / 2) * cos 0; 0;
       1; 2; 3; 1] ∧
  ∀ c c' : nat, (c < 3)%nat → (c' < 3)%nat →
    column_dot M c c' = if decide (c = c') then 1 else 0.
Proof.
  split; [reflexivity|].
  exact (GetModelViewMatrix_isometry column_major_product 1 2 3 (PI / 2) 0
           (λ A B, eq_refl)).
Defined.

End ModelViewWitness.
